(** * iommufd: in-kernel access and hardware page table attachment

    A shallow embedding of drivers/iommu/iommufd/device.c and
    drivers/iommu/iommufd/hw_pagetable.c.

    - [unsigned long] values are integers in [0, ULONG_MAX]; the one place
      where the code handles wrap-around, [check_add_overflow], is written
      out.
    - A return code [int rc] is [Success] (0) or [Failure e] (-e).
    - The area tree of an [io_pagetable] is the list of its areas in IOVA
      order; a pointer to an area is a [cursor] into that list.
    - The counters that [iopt_area_add_access] and [iopt_area_remove_access]
      maintain under [pages->mutex] are kept as multisets in a [pin_state],
      and [WARN_ON] appends to the [warnings] log of that state. *)

From Stdlib Require Import ZArith Lia Bool List.
From stdpp Require Import base numbers option list gmap gmultiset.

Open Scope Z_scope.

(** ** Return codes *)

Inductive errno : Set :=
  | EPERM | ENOENT | ENOMEM | EFAULT | EBUSY | ENODEV | EINVAL
  | EOVERFLOW | EOPNOTSUPP | EADDRINUSE.

#[global] Instance errno_eq_dec : EqDecision errno.
Proof. solve_decision. Defined.

Inductive rc : Set :=
  | Success
  | Failure (e : errno).

#[global] Instance rc_eq_dec : EqDecision rc.
Proof. solve_decision. Defined.

Definition is_failure (r : rc) : bool :=
  match r with Success => false | Failure _ => true end.

(** ** Machine arithmetic *)

Definition ULONG_MAX : Z := 2 ^ 64 - 1.

(** [check_add_overflow(a, b, &d)]: [d] receives the wrapped sum and the
    result tells whether the sum wrapped. *)
Definition check_add_overflow (a b : Z) : bool * Z :=
  (ULONG_MAX <? a + b, (a + b) mod 2 ^ 64).

(** ** Data model *)

(** Modelled from the spec: [struct iopt_pages] (io_pagetable.h and pages.c
    are not part of the sources).  A Pages Store knows whether its backing
    is writable, and which of its pages cannot be pinned, each with the
    error pinning it gives (AddressFault for an unmapped page of the source
    address space, OutOfMemory when the pin cannot be accounted). *)
Record iopt_pages : Type := {
  writable : bool;
  pin_fault : list (Z * errno);
}.

(** Modelled from the spec: [struct iopt_area], declared in io_pagetable.h
    which is not part of the sources.  An Area has an inclusive IOVA range,
    an offset into its Pages Store, permission bits, and the
    [prevent_access] mark set by unmap.  [pages] is NULL ([None]) while the
    area is being set up or torn down. *)
Record iopt_area : Type := {
  node_start : Z;
  node_last : Z;
  pages : option nat;
  store_offset : Z;
  iommu_prot : Z;
  prevent_access : bool;
}.

(** [struct iommufd_access], as far as device.c reads it. *)
Record iommufd_access : Type := {
  data : Z;
  iova_alignment : Z;
  ops_unmap : bool;
  obj_lockable : bool;
}.

(** A reserved IOVA range and the device that owns it. *)
Record iopt_reserved : Type := {
  resv_start : Z;
  resv_last : Z;
  resv_owner : nat;
}.

(** Modelled from the spec: [struct io_pagetable], declared in
    io_pagetable.h which is not part of the sources: the Areas ordered by
    IOVA, the Pages Stores they refer to, the registered in-kernel
    accesses, the attached domains, the reserved regions and the alignment
    requirement. *)
Record io_pagetable : Type := {
  areas : list iopt_area;
  stores : list iopt_pages;
  access_list : list iommufd_access;
  domains : list nat;
  reserved : list iopt_reserved;
  iopt_alignment : Z;
}.

Inductive warning : Set :=
  | WARN_NO_PIN_OPS
  | WARN_ZERO_LENGTH
  | WARN_OVERFLOW
  | WARN_NOT_CONTIG
  | WARN_NO_ACCESS.

(** A struct page of a Pages Store: the store and the page index. *)
Definition page : Type := nat * Z.

(** The state that the access functions change while they hold
    [iova_rwsem] for reading.  [num_accesses] counts, for each area (by its
    position in the tree), the accesses added through it, as
    [area->num_accesses] does; [access_itree] counts, for each Pages Store
    and exact index range, the users of that access; [memory] is the
    content of the backing memory, by store and byte offset. *)
Record pin_state : Type := {
  num_accesses : gmultiset nat;
  access_itree : gmultiset (nat * (Z * Z));
  memory : gmap (nat * Z) Byte.byte;
  warnings : list warning;
}.

Definition WARN_ON (cond : bool) (w : warning) (st : pin_state) : pin_state :=
  if cond then
    {| num_accesses := num_accesses st; access_itree := access_itree st;
       memory := memory st; warnings := warnings st ++ [w] |}
  else st.

(** ** The area tree and the contiguous-area iterator *)

Definition iopt_area_iova (a : iopt_area) : Z := node_start a.
Definition iopt_area_last_iova (a : iopt_area) : Z := node_last a.

(** A pointer to an area in the tree: its position, the area, and the
    areas that follow it in IOVA order. *)
Record cursor : Type := {
  c_index : nat;
  c_area : iopt_area;
  c_succ : list iopt_area;
}.

Definition intersects (a : iopt_area) (start last : Z) : bool :=
  (node_start a <=? last) && (start <=? node_last a).

(** Modelled from the spec: the interval-tree queries
    [iopt_area_iter_first] and [iopt_area_iter_next] (io_pagetable.h): the
    first area, in IOVA order, that intersects [start, last], searched from
    the root or after a given area. *)
Fixpoint iter_from (l : list iopt_area) (i : nat) (start last : Z)
  : option cursor :=
  match l with
  | [] => None
  | a :: l' =>
      if intersects a start last
      then Some {| c_index := i; c_area := a; c_succ := l' |}
      else iter_from l' (S i) start last
  end.

Definition iopt_area_iter_first (iopt : io_pagetable) (start last : Z)
  : option cursor :=
  iter_from (areas iopt) 0%nat start last.

Definition iopt_area_iter_next (c : cursor) (start last : Z) : option cursor :=
  iter_from (c_succ c) (S (c_index c)) start last.

Record iopt_area_contig_iter : Type := {
  cur_iova : Z;
  last_iova : Z;
  area : option cursor;
}.

Definition has_pages (c : cursor) : bool :=
  match pages (c_area c) with Some _ => true | None => false end.

(** Modelled from the spec: [iopt_area_contig_init] (io_pagetable.c is not
    part of the sources).  The walk starts at the area that holds [iova];
    an area without a Pages Store does not count as covering. The second
    component is the returned area pointer. *)
Definition iopt_area_contig_init (iopt : io_pagetable) (iova last : Z)
  : iopt_area_contig_iter * option cursor :=
  match iopt_area_iter_first iopt iova iova with
  | None => ({| cur_iova := iova; last_iova := last; area := None |}, None)
  | Some c =>
      if has_pages c
      then ({| cur_iova := iova; last_iova := last; area := Some c |}, Some c)
      else ({| cur_iova := iova; last_iova := last; area := None |}, None)
  end.

(** Modelled from the spec: [iopt_area_contig_next].  When the current
    area reaches [last_iova] the walk is over and the iterator keeps its
    area; otherwise the next area has to start right after the current one
    and to have a Pages Store, or the iterator loses its area. *)
Definition iopt_area_contig_next (iter : iopt_area_contig_iter)
  : iopt_area_contig_iter * option cursor :=
  match area iter with
  | None => (iter, None)
  | Some c =>
      let last := iopt_area_last_iova (c_area c) in
      if last_iova iter <=? last then (iter, None)
      else
        let cur := last + 1 in
        match iopt_area_iter_next c cur (last_iova iter) with
        | None =>
            ({| cur_iova := cur; last_iova := last_iova iter; area := None |},
             None)
        | Some c' =>
            if negb (cur =? iopt_area_iova (c_area c')) || negb (has_pages c')
            then
              ({| cur_iova := cur; last_iova := last_iova iter;
                  area := None |}, None)
            else
              ({| cur_iova := cur; last_iova := last_iova iter;
                  area := Some c' |}, Some c')
        end
  end.

(** Modelled from the spec: [iopt_area_contig_done]: the walk has reached
    [last_iova] inside an area. *)
Definition iopt_area_contig_done (iter : iopt_area_contig_iter) : bool :=
  match area iter with
  | None => false
  | Some c => last_iova iter <=? iopt_area_last_iova (c_area c)
  end.

(** [for (area = init; area; area = iopt_area_contig_next(iter)) body]
    with a body that may leave the loop early ([goto]) with a value.  The
    bound [fuel] is the number of iterations allowed; the functions below
    pass one more than the number of areas, which is never used up
    (see [for_each_contig_spec]). *)
Fixpoint for_each_contig {St E : Type} (fuel : nat)
    (body : iopt_area_contig_iter → cursor → St → St * option E)
    (iter : iopt_area_contig_iter) (ret : option cursor) (s : St)
  : iopt_area_contig_iter * St * option E :=
  match ret, fuel with
  | Some c, S f =>
      match body iter c s with
      | (s', Some e) => (iter, s', Some e)
      | (s', None) =>
          let '(iter', ret') := iopt_area_contig_next iter in
          for_each_contig f body iter' ret' s'
      end
  | _, _ => (iter, s, None)
  end.

Definition iopt_for_each_contig_area {St E : Type} (iopt : io_pagetable)
    (iova last : Z)
    (body : iopt_area_contig_iter → cursor → St → St * option E) (s : St)
  : iopt_area_contig_iter * St * option E :=
  let '(iter, ret) := iopt_area_contig_init iopt iova last in
  for_each_contig (S (length (areas iopt))) body iter ret s.

(** ** Pages Store operations used by the access functions *)

Definition pages_pin_error (ps : iopt_pages) (start_index last_index : Z)
  : option errno :=
  snd <$> List.find
            (λ f : Z * errno, (start_index <=? fst f) && (fst f <=? last_index))
            (pin_fault ps).

Definition page_list (p : nat) (start_index last_index : Z) : list page :=
  (λ i, (p, i)) <$> seqZ start_index (last_index - start_index + 1).

Definition mem_read (m : gmap (nat * Z) Byte.byte) (p : nat) (start len : Z)
  : list Byte.byte :=
  (λ k, default Byte.x00 (m !! (p, k))) <$> seqZ start len.

Fixpoint mem_write (m : gmap (nat * Z) Byte.byte) (p : nat) (start : Z)
    (bs : list Byte.byte) : gmap (nat * Z) Byte.byte :=
  match bs with
  | [] => m
  | b :: bs' => mem_write (<[(p, start) := b]> m) p (start + 1) bs'
  end.

(** The kernel buffer [data] of [iommufd_access_rw] is a list of bytes
    together with the offset the [data] pointer has advanced to. *)
Definition buf_read (buf : list Byte.byte) (off len : Z) : list Byte.byte :=
  take (Z.to_nat len) (drop (Z.to_nat off) buf).

Definition buf_write (buf : list Byte.byte) (off : Z) (bs : list Byte.byte)
  : list Byte.byte :=
  take (Z.to_nat off) buf ++ bs ++ drop (Z.to_nat off + length bs)%nat buf.

Definition set_pins (st : pin_state) (n : gmultiset nat)
    (t : gmultiset (nat * (Z * Z))) : pin_state :=
  {| num_accesses := n; access_itree := t;
     memory := memory st; warnings := warnings st |}.

Definition set_memory (st : pin_state) (m : gmap (nat * Z) Byte.byte)
  : pin_state :=
  {| num_accesses := num_accesses st; access_itree := access_itree st;
     memory := m; warnings := warnings st |}.

(** Per-page pin count held by in-kernel accesses: the number of accesses
    of the store whose index range contains the page. *)
Definition access_pin_count (st : pin_state) (p : nat) (index : Z) : nat :=
  length (List.filter
            (λ k : nat * (Z * Z),
               bool_decide (k.1 = p) && (k.2.1 <=? index) && (index <=? k.2.2))
            (elements (access_itree st))).

(** * Reasoning about the contiguous-area walk *)

(** The areas a walk over [cur, last] visits after the first one, each
    with the IOVA at which the walk enters it: the search of
    [iopt_area_contig_next], iterated. *)
Fixpoint walk_list (l : list iopt_area) (i : nat) (last cur : Z)
  : list (Z * cursor) :=
  match l with
  | [] => []
  | a :: l' =>
      if intersects a cur last then
        if (cur =? node_start a)
           && match pages a with Some _ => true | None => false end
        then
          (cur, {| c_index := i; c_area := a; c_succ := l' |})
          :: (if last <=? node_last a then []
              else walk_list l' (S i) last (node_last a + 1))
        else []
      else walk_list l' (S i) last cur
  end.

Definition tail_walk (c : cursor) (last : Z) : list (Z * cursor) :=
  if last <=? node_last (c_area c) then []
  else walk_list (c_succ c) (S (c_index c)) last (node_last (c_area c) + 1).

(** The areas the loop over [iova, last] visits, in order. *)
Definition contig_areas (iopt : io_pagetable) (iova last : Z)
  : list (Z * cursor) :=
  match iopt_area_iter_first iopt iova iova with
  | Some c => if has_pages c then (iova, c) :: tail_walk c last else []
  | None => []
  end.

Definition iter_at (last : Z) (step : Z * cursor) : iopt_area_contig_iter :=
  {| cur_iova := step.1; last_iova := last; area := Some step.2 |}.

(** The iterator once the loop has run through all of [steps]. *)
Definition contig_final (iova last : Z) (steps : list (Z * cursor))
  : iopt_area_contig_iter :=
  match list.last steps with
  | None => {| cur_iova := iova; last_iova := last; area := None |}
  | Some step =>
      if last <=? node_last (c_area step.2) then iter_at last step
      else {| cur_iova := node_last (c_area step.2) + 1; last_iova := last;
              area := None |}
  end.

(** The loop body run over the visited areas, until it leaves the loop. *)
Fixpoint run_steps {St E : Type}
    (body : iopt_area_contig_iter → cursor → St → St * option E)
    (last : Z) (steps : list (Z * cursor)) (s : St)
  : St * option (Z * cursor * E) :=
  match steps with
  | [] => (s, None)
  | step :: tl =>
      match body (iter_at last step) step.2 s with
      | (s', Some e) => (s', Some (step, e))
      | (s', None) => run_steps body last tl s'
      end
  end.

Definition loop_result {St E : Type}
    (body : iopt_area_contig_iter → cursor → St → St * option E)
    (iova last : Z) (steps : list (Z * cursor)) (s : St)
  : iopt_area_contig_iter * St * option E :=
  match run_steps body last steps s with
  | (s', Some (step, e)) => (iter_at last step, s', Some e)
  | (s', None) => (contig_final iova last steps, s', None)
  end.

(** The shape of a walk: every visited area has a Pages Store and holds
    the IOVA at which the walk enters it, and the walk goes on, right
    after the area, exactly when the area stops short of [last]. *)
Inductive chain (last : Z) : list (Z * cursor) → Prop :=
  | chain_one step :
      node_start (c_area step.2) ≤ step.1 →
      step.1 ≤ node_last (c_area step.2) →
      has_pages step.2 = true →
      chain last [step]
  | chain_cons step step' tl :
      node_start (c_area step.2) ≤ step.1 →
      step.1 ≤ node_last (c_area step.2) →
      has_pages step.2 = true →
      node_last (c_area step.2) < last →
      step'.1 = node_last (c_area step.2) + 1 →
      chain last (step' :: tl) →
      chain last (step :: step' :: tl).


(** A cursor points into the area list [l], whose first element has
    position [i] in the tree. *)
Definition cursor_at (l : list iopt_area) (i : nat) (c : cursor) : Prop :=
  ∃ k : nat, c_index c = (i + k)%nat ∧ l !! k = Some (c_area c)
             ∧ c_succ c = drop (S k) l.

(** The range [iova, last] is fully covered by Areas that have a Pages
    Store. *)
Definition range_covered (iopt : io_pagetable) (iova last : Z) : Prop :=
  ∀ x, iova ≤ x ≤ last →
    ∃ a, a ∈ areas iopt ∧ pages a ≠ None ∧ node_start a ≤ x ≤ node_last a.

(** The same for a part of the tree. *)
Definition covered_by (l : list iopt_area) (cur last : Z) : Prop :=
  ∀ x, cur ≤ x ≤ last →
    ∃ a, a ∈ l ∧ pages a ≠ None ∧ node_start a ≤ x ≤ node_last a.

(** The invariant of the area tree: every Area is a non-empty range of
    unsigned addresses, and the Areas are in IOVA order and do not
    overlap. *)
Fixpoint areas_sorted (bound : Z) (l : list iopt_area) : bool :=
  match l with
  | [] => true
  | a :: l' =>
      (bound <? node_start a) && (node_start a <=? node_last a)
      && areas_sorted (node_last a) l'
  end.

Definition iopt_wf (iopt : io_pagetable) : bool :=
  areas_sorted (-1) (areas iopt).

(** ** Hardware page tables: the data of device.c and hw_pagetable.c *)

(** What the IOMMU core, the IOMMU driver and the object allocator do is
    outside the sources; their answers are the fields of a [platform]:
    the driver's [enforce_cache_coherency] operation (if it has one), the
    results of [iommu_get_msi_cookie] and [iommu_attach_group], the result
    of programming an Area into a domain, the minimum page size of a
    domain, the reserved regions of a device, and the results of the
    allocations made by [iommufd_hw_pagetable_alloc]. *)
Record resv_region : Type := {
  region_start : Z;
  region_length : Z;
  region_sw_msi : bool;
}.

Record platform : Type := {
  drv_enforce_cache_coherency : nat → option bool;
  iommu_get_msi_cookie : nat → Z → rc;
  iommu_attach_group : nat → rc;
  drv_map_area : nat → iopt_area → rc;
  drv_min_pgsize : nat → Z;
  iommu_get_resv_regions : nat → list resv_region;
  ops_domain_alloc_user : bool;
  iommufd_object_alloc : option nat;
  drv_domain_alloc : option nat;
  drv_domain_type_ok : bool;
}.

Record iommufd_hw_pagetable : Type := {
  hwpt_domain : option nat;
  hwpt_parent : option nat;
  auto_domain : bool;
  enforce_cache_coherency : bool;
  msi_cookie : bool;
  hwpt_users : Z;
  hwpt_lockable : bool;
}.

Record iommufd_group : Type := {
  ig_hwpt : option nat;
  device_list : list nat;
  sw_msi_start : Z;
}.

Record iommufd_device : Type := {
  dev : nat;
  dev_enforce_cache_coherency : bool;
}.

(** One IOAS with its hardware page tables, the group of the device, and
    the state of the IOMMU: the domain the group is attached to and the
    entries of each allocated domain, an entry being the IOVA range of an
    Area. *)
Record world : Type := {
  objs : gmap nat iommufd_hw_pagetable;
  hwpt_list : list nat;
  ioas_iopt : io_pagetable;
  ioas_users : Z;
  igroup : iommufd_group;
  group_domain : option nat;
  hw_entries : gmap nat (list (Z * Z));
}.

Definition set_objs (w : world) (o : gmap nat iommufd_hw_pagetable) : world :=
  {| objs := o; hwpt_list := hwpt_list w; ioas_iopt := ioas_iopt w;
     ioas_users := ioas_users w; igroup := igroup w;
     group_domain := group_domain w; hw_entries := hw_entries w |}.

Definition set_hwpt_list (w : world) (l : list nat) : world :=
  {| objs := objs w; hwpt_list := l; ioas_iopt := ioas_iopt w;
     ioas_users := ioas_users w; igroup := igroup w;
     group_domain := group_domain w; hw_entries := hw_entries w |}.

Definition set_iopt (w : world) (iopt : io_pagetable) : world :=
  {| objs := objs w; hwpt_list := hwpt_list w; ioas_iopt := iopt;
     ioas_users := ioas_users w; igroup := igroup w;
     group_domain := group_domain w; hw_entries := hw_entries w |}.

Definition set_ioas_users (w : world) (n : Z) : world :=
  {| objs := objs w; hwpt_list := hwpt_list w; ioas_iopt := ioas_iopt w;
     ioas_users := n; igroup := igroup w;
     group_domain := group_domain w; hw_entries := hw_entries w |}.

Definition set_igroup (w : world) (g : iommufd_group) : world :=
  {| objs := objs w; hwpt_list := hwpt_list w; ioas_iopt := ioas_iopt w;
     ioas_users := ioas_users w; igroup := g;
     group_domain := group_domain w; hw_entries := hw_entries w |}.

Definition set_group_domain (w : world) (d : option nat) : world :=
  {| objs := objs w; hwpt_list := hwpt_list w; ioas_iopt := ioas_iopt w;
     ioas_users := ioas_users w; igroup := igroup w;
     group_domain := d; hw_entries := hw_entries w |}.

Definition set_hw_entries (w : world) (e : gmap nat (list (Z * Z))) : world :=
  {| objs := objs w; hwpt_list := hwpt_list w; ioas_iopt := ioas_iopt w;
     ioas_users := ioas_users w; igroup := igroup w;
     group_domain := group_domain w; hw_entries := e |}.

Definition set_reserved (iopt : io_pagetable) (r : list iopt_reserved)
  : io_pagetable :=
  {| areas := areas iopt; stores := stores iopt;
     access_list := access_list iopt; domains := domains iopt;
     reserved := r; iopt_alignment := iopt_alignment iopt |}.

Definition set_domains (iopt : io_pagetable) (d : list nat) (align : Z)
  : io_pagetable :=
  {| areas := areas iopt; stores := stores iopt;
     access_list := access_list iopt; domains := d;
     reserved := reserved iopt; iopt_alignment := align |}.

Definition set_enforce_cc (h : iommufd_hw_pagetable) (b : bool)
  : iommufd_hw_pagetable :=
  {| hwpt_domain := hwpt_domain h; hwpt_parent := hwpt_parent h;
     auto_domain := auto_domain h; enforce_cache_coherency := b;
     msi_cookie := msi_cookie h; hwpt_users := hwpt_users h;
     hwpt_lockable := hwpt_lockable h |}.

Definition set_msi_cookie (h : iommufd_hw_pagetable) (b : bool)
  : iommufd_hw_pagetable :=
  {| hwpt_domain := hwpt_domain h; hwpt_parent := hwpt_parent h;
     auto_domain := auto_domain h;
     enforce_cache_coherency := enforce_cache_coherency h;
     msi_cookie := b; hwpt_users := hwpt_users h;
     hwpt_lockable := hwpt_lockable h |}.

Definition set_hwpt_users (h : iommufd_hw_pagetable) (n : Z)
  : iommufd_hw_pagetable :=
  {| hwpt_domain := hwpt_domain h; hwpt_parent := hwpt_parent h;
     auto_domain := auto_domain h;
     enforce_cache_coherency := enforce_cache_coherency h;
     msi_cookie := msi_cookie h; hwpt_users := n;
     hwpt_lockable := hwpt_lockable h |}.

Definition set_auto_domain (h : iommufd_hw_pagetable) (b : bool)
  : iommufd_hw_pagetable :=
  {| hwpt_domain := hwpt_domain h; hwpt_parent := hwpt_parent h;
     auto_domain := b;
     enforce_cache_coherency := enforce_cache_coherency h;
     msi_cookie := msi_cookie h; hwpt_users := hwpt_users h;
     hwpt_lockable := hwpt_lockable h |}.

Definition set_hwpt_domain (h : iommufd_hw_pagetable) (d : option nat)
  : iommufd_hw_pagetable :=
  {| hwpt_domain := d; hwpt_parent := hwpt_parent h;
     auto_domain := auto_domain h;
     enforce_cache_coherency := enforce_cache_coherency h;
     msi_cookie := msi_cookie h; hwpt_users := hwpt_users h;
     hwpt_lockable := hwpt_lockable h |}.

(** A refcount of another object changes by [n]. *)
Definition add_hwpt_users (w : world) (id : nat) (n : Z) : world :=
  set_objs w (alter (λ h, set_hwpt_users h (hwpt_users h + n)) id (objs w)).


(** ** Groups and bound devices: the data of the first part of device.c *)

(** [struct iommufd_group]: the [iommu_group] it stands for, its [kref],
    and the attachment state of the group. *)
Record igroup_entry : Type := {
  ge_group : nat;
  ge_ref : Z;
  ge_data : iommufd_group;
}.

(** A bound device object: the [struct iommufd_device] fields that
    [iommufd_device_bind] sets. *)
Record bound_device : Type := {
  bd_idev : iommufd_device;
  bd_igroup : nat;
  bd_users : Z;
  bd_finalized : bool;
}.

Inductive group_warning : Set :=
  | WARN_GROUP_IN_USE
  | WARN_GROUP_MISMATCH
  | DEV_WARN_UNSAFE_MSI.

(** The state of an [iommufd_ctx] that binding a device changes.
    Pointers to [struct iommufd_group] are numbers; [groups] is the
    xarray [ictx->groups], from the ID of an [iommu_group] to the pointer
    stored for it; [igroup_mem] holds the allocated structures;
    [iommu_group_refs] has one element for each reference held on an
    [iommu_group], and [dma_owners] one for each claim of DMA ownership
    of a device. *)
Record ictx_state : Type := {
  groups : gmap nat nat;
  igroup_mem : gmap nat igroup_entry;
  iommu_group_refs : gmultiset nat;
  dma_owners : gmultiset nat;
  ctx_users : Z;
  idevs : gmap nat bound_device;
  ictx_log : list group_warning;
}.

(** What the IOMMU core and the allocators answer while a device is
    bound. *)
Record bind_platform : Type := {
  cap_cache_coherency : nat → bool;
  cap_enforce_cache_coherency : nat → bool;
  iommu_group_get : nat → option nat;
  iommu_group_id : nat → nat;
  kzalloc_igroup : option nat;
  xa_store_error : option errno;
  iommufd_selftest_is_mock_dev : nat → bool;
  iommu_group_has_isolated_msi : nat → bool;
  allow_unsafe_interrupts : bool;
  iommu_device_claim_dma_owner : nat → rc;
  object_alloc_device : nat + errno;
}.

Definition set_groups (s : ictx_state) (g : gmap nat nat) : ictx_state :=
  {| groups := g; igroup_mem := igroup_mem s;
     iommu_group_refs := iommu_group_refs s; dma_owners := dma_owners s;
     ctx_users := ctx_users s; idevs := idevs s; ictx_log := ictx_log s |}.

Definition set_igroup_mem (s : ictx_state) (m : gmap nat igroup_entry)
  : ictx_state :=
  {| groups := groups s; igroup_mem := m;
     iommu_group_refs := iommu_group_refs s; dma_owners := dma_owners s;
     ctx_users := ctx_users s; idevs := idevs s; ictx_log := ictx_log s |}.

Definition set_iommu_group_refs (s : ictx_state) (r : gmultiset nat)
  : ictx_state :=
  {| groups := groups s; igroup_mem := igroup_mem s;
     iommu_group_refs := r; dma_owners := dma_owners s;
     ctx_users := ctx_users s; idevs := idevs s; ictx_log := ictx_log s |}.

Definition set_dma_owners (s : ictx_state) (o : gmultiset nat)
  : ictx_state :=
  {| groups := groups s; igroup_mem := igroup_mem s;
     iommu_group_refs := iommu_group_refs s; dma_owners := o;
     ctx_users := ctx_users s; idevs := idevs s; ictx_log := ictx_log s |}.

Definition set_ctx_users (s : ictx_state) (n : Z) : ictx_state :=
  {| groups := groups s; igroup_mem := igroup_mem s;
     iommu_group_refs := iommu_group_refs s; dma_owners := dma_owners s;
     ctx_users := n; idevs := idevs s; ictx_log := ictx_log s |}.

Definition set_idevs (s : ictx_state) (d : gmap nat bound_device)
  : ictx_state :=
  {| groups := groups s; igroup_mem := igroup_mem s;
     iommu_group_refs := iommu_group_refs s; dma_owners := dma_owners s;
     ctx_users := ctx_users s; idevs := d; ictx_log := ictx_log s |}.

Definition ictx_warn (s : ictx_state) (w : group_warning) : ictx_state :=
  {| groups := groups s; igroup_mem := igroup_mem s;
     iommu_group_refs := iommu_group_refs s; dma_owners := dma_owners s;
     ctx_users := ctx_users s; idevs := idevs s;
     ictx_log := ictx_log s ++ [w] |}.

Definition set_ge_ref (g : igroup_entry) (n : Z) : igroup_entry :=
  {| ge_group := ge_group g; ge_ref := n; ge_data := ge_data g |}.

(** ** The commands of hw_pagetable.c and the objects they name *)

(** [struct iommu_hwpt_alloc], the input of [IOMMU_HWPT_ALLOC]. *)
Record iommu_hwpt_alloc : Type := {
  ha_flags : Z;
  ha_reserved : Z;
  ha_dev_id : nat;
  ha_pt_id : nat;
  ha_hwpt_type : Z;
  ha_data_len : Z;
  ha_data_uptr : Z;
}.

(** [struct iommu_hwpt_invalidate], the input of
    [IOMMU_HWPT_INVALIDATE]. *)
Record iommu_hwpt_invalidate : Type := {
  hi_hwpt_id : nat;
  hi_data_len : Z;
  hi_reserved : Z;
  hi_data_uptr : Z;
}.

(** The type of the object that an ID names, as far as the code
    distinguishes it. *)
Inductive object_type : Set :=
  | IOMMUFD_OBJ_IOAS
  | IOMMUFD_OBJ_HW_PAGETABLE
  | IOMMUFD_OBJ_OTHER.

(** What the object table, the driver's operations and user memory
    answer to a command: the device or the object of an ID (or the error
    of the lookup), the driver's [hwpt_type_bitmap] and
    [domain_alloc_user_data_len] array (if it has one), whether the copy
    of the user data can be allocated, the result of
    [copy_struct_from_user] for a kernel length, a user pointer and a
    user length, the result of [iommufd_ucmd_respond], and for a domain
    the driver's [cache_invalidate_user] (if it has one) and
    [cache_invalidate_user_data_len]. *)
Record ucmd_env : Type := {
  iommufd_get_device : nat → iommufd_device + errno;
  iommufd_get_object : nat → object_type + errno;
  hwpt_type_bitmap : Z;
  domain_alloc_user_data_len : option (Z → Z);
  kzalloc_data : bool;
  copy_struct_from_user : Z → Z → Z → rc;
  iommufd_ucmd_respond : rc;
  cache_invalidate_user : nat → option rc;
  cache_invalidate_user_data_len : nat → Z;
}.

(** ** Creating and destroying an access *)

(** [struct iommufd_access_ops], as far as device.c reads it: whether the
    driver needs pinned page lists, and whether it has an [unmap]
    operation. *)
Record iommufd_access_ops : Type := {
  needs_pin_pages : bool;
  unmap : bool;
}.

(** What the object table and the I/O page table answer while an access
    is created: the error of the allocation of the object, if it fails,
    the error of the lookup of the IOAS, if it fails, the result of the
    registration with the table, and the place that the registration
    gives the access among the accesses registered before, in the order
    in which the table walks them. *)
Record access_env : Type := {
  object_alloc_access : option errno;
  get_ioas : option errno;
  iopt_add_access_rc : rc;
  iopt_add_access_place : nat;
}.

Definition set_access_list (iopt : io_pagetable) (l : list iommufd_access)
  : io_pagetable :=
  {| areas := areas iopt; stores := stores iopt; access_list := l;
     domains := domains iopt; reserved := reserved iopt;
     iopt_alignment := iopt_alignment iopt |}.

Definition set_obj_lockable (a : iommufd_access) (b : bool)
  : iommufd_access :=
  {| data := data a; iova_alignment := iova_alignment a;
     ops_unmap := ops_unmap a; obj_lockable := b |}.

(** * Example data *)

Module Examples.

Definition mk_area (start last : Z) (store : nat) (offset prot : Z)
    (draining : bool) : iopt_area :=
  {| node_start := start; node_last := last; pages := Some store;
     store_offset := offset; iommu_prot := prot;
     prevent_access := draining |}.

(** Six areas of one page each; the third is being unmapped, and
    nothing is mapped at 0x4000 and from 0x8000 on.  Store 1 is read-only, and page 0 of
    store 2 cannot be pinned. *)
Definition iopt : io_pagetable :=
  {| areas :=
       [ mk_area 0x1000 0x1fff 0 0 3 false;
         mk_area 0x2000 0x2fff 1 0 1 false;
         mk_area 0x3000 0x3fff 0 0x1000 3 true;
         mk_area 0x5000 0x5fff 0 0x2000 3 false;
         mk_area 0x6000 0x6fff 2 0 3 false;
         mk_area 0x7000 0x7fff 0 0x3000 3 false ];
     stores :=
       [ {| writable := true; pin_fault := [] |};
         {| writable := false; pin_fault := [] |};
         {| writable := true; pin_fault := [(0, EFAULT)] |} ];
     access_list :=
       [ {| data := 1; iova_alignment := 4096; ops_unmap := true;
            obj_lockable := true |};
         {| data := 2; iova_alignment := 4096; ops_unmap := true;
            obj_lockable := false |} ];
     domains := [];
     reserved := [];
     iopt_alignment := 4096 |}.

Definition access : iommufd_access :=
  {| data := 1; iova_alignment := 4096; ops_unmap := true;
     obj_lockable := true |}.

(** A state in which the first page of the first area is pinned once. *)
Definition st : pin_state :=
  {| num_accesses := {[+ 0%nat +]};
     access_itree := {[+ (0%nat, (0, 0)) +]};
     memory := ∅;
     warnings := [] |}.

Definition buf : list Byte.byte := [Byte.x0a; Byte.x0b; Byte.x0c; Byte.x0d].

(** An IOAS over that table with two automatic hardware page tables, 10
    and 11, whose domains are 100 and 101, and an idle group. *)
Definition mk_hwpt (domain : nat) : iommufd_hw_pagetable :=
  {| hwpt_domain := Some domain; hwpt_parent := None; auto_domain := true;
     enforce_cache_coherency := false; msi_cookie := false;
     hwpt_users := 1; hwpt_lockable := true |}.

Definition world0 : world :=
  {| objs := {[ 10%nat := mk_hwpt 100; 11%nat := mk_hwpt 101 ]};
     hwpt_list := [10%nat; 11%nat];
     ioas_iopt := iopt;
     ioas_users := 3;
     igroup :=
       {| ig_hwpt := None; device_list := []; sw_msi_start := 2 ^ 64 - 1 |};
     group_domain := None;
     hw_entries := {[ 100%nat := []; 101%nat := [] ]} |}.

Definition idev : iommufd_device :=
  {| dev := 1; dev_enforce_cache_coherency := true |}.

(** A platform on which the device has one reserved region, at 0x9000,
    and a new object gets the ID 12 and the domain 102.  [attach_rc]
    gives the result of [iommu_attach_group] for each domain, and
    [map_rc] the result of programming an Area into a domain. *)
Definition mk_platform (attach_rc : nat → rc) (map_rc : nat → iopt_area → rc)
  : platform :=
  {| drv_enforce_cache_coherency := λ _, Some true;
     iommu_get_msi_cookie := λ _ _, Success;
     iommu_attach_group := attach_rc;
     drv_map_area := map_rc;
     drv_min_pgsize := λ _, 4096;
     iommu_get_resv_regions :=
       λ _, [ {| region_start := 0x9000; region_length := 0x1000;
                 region_sw_msi := false |} ];
     ops_domain_alloc_user := false;
     iommufd_object_alloc := Some 12%nat;
     drv_domain_alloc := Some 102%nat;
     drv_domain_type_ok := true |}.

(** Domain 100 is incompatible with the device, the others accept it. *)
Definition pf_second : platform :=
  mk_platform (λ d, if Nat.eqb d 100 then Failure EINVAL else Success)
    (λ _ _, Success).

(** Domain 100 is busy. *)
Definition pf_busy : platform :=
  mk_platform (λ d, if Nat.eqb d 100 then Failure EBUSY else Success)
    (λ _ _, Success).

(** The existing domains are incompatible with the device. *)
Definition pf_new : platform :=
  mk_platform (λ d, if Nat.ltb d 102 then Failure EINVAL else Success)
    (λ _ _, Success).


End Examples.

Module MoreExamples.

(** A second device of the group of [Examples.idev]. *)
Definition idev2 : iommufd_device :=
  {| dev := 2; dev_enforce_cache_coherency := false |}.

(** A platform whose device has a software MSI window at 0x8000000 among
    its reserved regions. *)
Definition pf_msi : platform :=
  {| drv_enforce_cache_coherency := λ _, Some true;
     iommu_get_msi_cookie := λ _ _, Success;
     iommu_attach_group := λ _, Success;
     drv_map_area := λ _ _, Success;
     drv_min_pgsize := λ _, 4096;
     iommu_get_resv_regions :=
       λ _, [ {| region_start := 0x8000000; region_length := 0x100000;
                 region_sw_msi := true |} ];
     ops_domain_alloc_user := false;
     iommufd_object_alloc := Some 12%nat;
     drv_domain_alloc := Some 102%nat;
     drv_domain_type_ok := true |}.



(** A context in which the [iommu_group] 7 has a group, at address 40,
    that is held once and attached to nothing. *)
Definition ictx0 : ictx_state :=
  {| groups := {[ 7%nat := 40%nat ]};
     igroup_mem :=
       {[ 40%nat :=
            {| ge_group := 7; ge_ref := 1;
               ge_data := {| ig_hwpt := None; device_list := [];
                             sw_msi_start := 2 ^ 64 - 1 |} |} ]};
     iommu_group_refs := {[+ 7%nat +]};
     dma_owners := ∅;
     ctx_users := 1;
     idevs := ∅;
     ictx_log := [] |}.

(** Devices 1 and 2 are in the [iommu_group] 7 and device 3 in the
    group 8; device 4 has no group.  The MSI of group 8 is not isolated.
    New memory is at address 41 and a new object gets the ID 20. *)
Definition mk_bind_platform (allow : bool) (claim_rc : nat → rc)
  : bind_platform :=
  {| cap_cache_coherency := λ _, true;
     cap_enforce_cache_coherency := λ _, true;
     iommu_group_get :=
       λ d, if (d <? 3)%nat then Some 7%nat
            else if (d =? 3)%nat then Some 8%nat else None;
     iommu_group_id := λ g, g;
     kzalloc_igroup := Some 41%nat;
     xa_store_error := None;
     iommufd_selftest_is_mock_dev := λ _, false;
     iommu_group_has_isolated_msi := λ g, (g =? 7)%nat;
     allow_unsafe_interrupts := allow;
     iommu_device_claim_dma_owner := claim_rc;
     object_alloc_device := inl 20%nat |}.

Definition bpf : bind_platform := mk_bind_platform false (λ _, Success).

(** The same, with DMA ownership of device 3 already taken. *)
Definition bpf_busy : bind_platform :=
  mk_bind_platform true (λ d, if (d =? 3)%nat then Failure EBUSY else Success).

(** The object table of the commands: the device object 5 is
    [Examples.idev], the object 1 is the IOAS and the objects 10 and 11
    are hardware page tables.  The driver supports the type 1 of hardware
    page tables, with 16 bytes of data, and cache invalidation with 8
    bytes of data. *)
Definition env : ucmd_env :=
  {| iommufd_get_device :=
       λ id, if (id =? 5)%nat then inl Examples.idev else inr ENOENT;
     iommufd_get_object :=
       λ id, if (id =? 1)%nat then inl IOMMUFD_OBJ_IOAS
             else if (id =? 10)%nat || (id =? 11)%nat
             then inl IOMMUFD_OBJ_HW_PAGETABLE
             else if (id =? 5)%nat then inl IOMMUFD_OBJ_OTHER
             else inr ENOENT;
     hwpt_type_bitmap := 2;
     domain_alloc_user_data_len := Some (λ t, if t =? 1 then 16 else 0);
     kzalloc_data := true;
     copy_struct_from_user := λ _ _ _, Success;
     iommufd_ucmd_respond := Success;
     cache_invalidate_user := λ _, Some Success;
     cache_invalidate_user_data_len := λ _, 8 |}.

(** A request for a hardware page table of the default type on the
    IOAS. *)
Definition alloc_cmd : iommu_hwpt_alloc :=
  {| ha_flags := 0; ha_reserved := 0; ha_dev_id := 5; ha_pt_id := 1;
     ha_hwpt_type := 0; ha_data_len := 0; ha_data_uptr := 0 |}.

(** A driver that needs pinned pages and has an unmap operation. *)
Definition pin_ops : iommufd_access_ops :=
  {| needs_pin_pages := true; unmap := true |}.

(** The object table while an access is created, with the result of the
    registration, which places the access second in the walk. *)
Definition access_env_of (add_rc : rc) : access_env :=
  {| object_alloc_access := None; get_ioas := None;
     iopt_add_access_rc := add_rc; iopt_add_access_place := 1 |}.

End MoreExamples.
Section Iommufd.

(** Constants of headers that are not part of the sources. *)
Variable PAGE_SIZE : Z.
Variable IOMMUFD_ACCESS_RW_WRITE : Z.
Variable IOMMU_READ : Z.
Variable IOMMU_WRITE : Z.
Variable CONFIG_IOMMUFD_TEST : bool.

(** Modelled from the spec: [iopt_area_start_byte] (io_pagetable.h): the
    byte of the Pages Store that backs [iova], by the Area's offset into
    its store. *)
Definition iopt_area_start_byte (a : iopt_area) (iova : Z) : Z :=
  (iova - iopt_area_iova a) + store_offset a.

(** Modelled from the spec: [iopt_area_iova_to_index] (io_pagetable.h): the
    page of the Pages Store that backs [iova]. *)
Definition iopt_area_iova_to_index (a : iopt_area) (iova : Z) : Z :=
  iopt_area_start_byte a iova / PAGE_SIZE.

Definition wants_write (flags : Z) : bool :=
  negb (Z.land flags IOMMUFD_ACCESS_RW_WRITE =? 0).

(** Modelled from the spec: [iopt_area_add_access] (pages.c is not part of
    the sources): the Pages Store [pin].  It fails with PermissionDenied
    when write access is asked of a read-only backing and with the error
    of the first page that cannot be pinned; otherwise it adds one access
    over the index range and returns the pages. A failure changes
    nothing. *)
Definition iopt_area_add_access (iopt : io_pagetable) (c : cursor)
    (start_index last_index flags : Z) (st : pin_state)
  : pin_state * rc * list page :=
  match pages (c_area c) with
  | None => (st, Failure EFAULT, [])
  | Some p =>
      match stores iopt !! p with
      | None => (st, Failure EFAULT, [])
      | Some ps =>
          if wants_write flags && negb (writable ps)
          then (st, Failure EPERM, [])
          else
            match pages_pin_error ps start_index last_index with
            | Some e => (st, Failure e, [])
            | None =>
                (set_pins st
                   (num_accesses st ⊎ {[+ c_index c +]})
                   (access_itree st ⊎ {[+ (p, (start_index, last_index)) +]}),
                 Success, page_list p start_index last_index)
            end
      end
  end.

(** Modelled from the spec: [iopt_area_remove_access] (pages.c): the Pages
    Store [unpin] of an access.  The access must exist with exactly this
    index range; an unpin without a matching pin is a programming error,
    which is reported and changes nothing else. *)
Definition iopt_area_remove_access (c : cursor) (start_index last_index : Z)
    (st : pin_state) : pin_state :=
  match pages (c_area c) with
  | None => st
  | Some p =>
      if bool_decide ((p, (start_index, last_index)) ∈ access_itree st)
      then
        let st1 :=
          WARN_ON (negb (bool_decide (c_index c ∈ num_accesses st)))
            WARN_NO_ACCESS st in
        set_pins st1
          (num_accesses st1 ∖ {[+ c_index c +]})
          (access_itree st1 ∖ {[+ (p, (start_index, last_index)) +]})
      else WARN_ON true WARN_NO_ACCESS st
  end.

(** Modelled from the spec: [iopt_pages_rw_access] (pages.c): the Pages
    Store [read_write]: a copy between the buffer and the backing bytes
    under a transient pin, which leaves no access behind.  It fails as a
    pin of the same pages does. *)
Definition iopt_pages_rw_access (iopt : io_pagetable) (pgs : option nat)
    (start_byte : Z) (buf : list Byte.byte) (off length flags : Z)
    (st : pin_state) : pin_state * rc * list Byte.byte :=
  match pgs with
  | None => (st, Failure EFAULT, buf)
  | Some p =>
      match stores iopt !! p with
      | None => (st, Failure EFAULT, buf)
      | Some ps =>
          if wants_write flags && negb (writable ps)
          then (st, Failure EPERM, buf)
          else
            match pages_pin_error ps (start_byte / PAGE_SIZE)
                    ((start_byte + length - 1) / PAGE_SIZE) with
            | Some e => (st, Failure e, buf)
            | None =>
                if wants_write flags
                then (set_memory st
                        (mem_write (memory st) p start_byte
                           (buf_read buf off length)),
                      Success, buf)
                else (st, Success,
                      buf_write buf off (mem_read (memory st) p start_byte length))
            end
      end
  end.

(** ** device.c: the in-kernel access functions *)

Definition iopt_area_contig_is_aligned (iter : iopt_area_contig_iter) : bool :=
  match area iter with
  | None => false
  | Some c =>
      if negb (iopt_area_start_byte (c_area c) (cur_iova iter) mod PAGE_SIZE =? 0)
      then false
      else if negb (iopt_area_contig_done iter)
              && negb (iopt_area_start_byte (c_area c)
                         (iopt_area_last_iova (c_area c)) mod PAGE_SIZE
                       =? PAGE_SIZE - 1)
      then false
      else true
  end.

Definition check_area_prot (a : iopt_area) (flags : Z) : bool :=
  if negb (Z.land flags IOMMUFD_ACCESS_RW_WRITE =? 0)
  then negb (Z.land (iommu_prot a) IOMMU_WRITE =? 0)
  else negb (Z.land (iommu_prot a) IOMMU_READ =? 0).

(** Body of the loop of [iommufd_access_unpin_pages], which is also the
    body of the unwinding loop of [iommufd_access_pin_pages]. *)
Definition unpin_body (last_iova_v : Z) (iter : iopt_area_contig_iter)
    (c : cursor) (st : pin_state) : pin_state * option errno :=
  (iopt_area_remove_access c
     (iopt_area_iova_to_index (c_area c) (cur_iova iter))
     (iopt_area_iova_to_index (c_area c)
        (Z.min last_iova_v (iopt_area_last_iova (c_area c))))
     st,
   None).

Definition iommufd_access_unpin_pages (iopt : io_pagetable)
    (iova length : Z) (st : pin_state) : pin_state :=
  if length =? 0 then WARN_ON true WARN_ZERO_LENGTH st
  else
    let '(overflow, last_iova_v) := check_add_overflow iova (length - 1) in
    if overflow then WARN_ON true WARN_OVERFLOW st
    else
      let '(iter, st1, _) :=
        iopt_for_each_contig_area iopt iova last_iova_v
          (unpin_body last_iova_v) st in
      WARN_ON (negb (iopt_area_contig_done iter)) WARN_NOT_CONTIG st1.

(** Body of the pinning loop; the second component of the loop state is
    what has been stored through [out_pages] so far. *)
Definition pin_body (iopt : io_pagetable) (last_iova_v flags : Z)
    (iter : iopt_area_contig_iter) (c : cursor) (s : pin_state * list page)
  : (pin_state * list page) * option errno :=
  let last := Z.min last_iova_v (iopt_area_last_iova (c_area c)) in
  let last_index := iopt_area_iova_to_index (c_area c) last in
  let index := iopt_area_iova_to_index (c_area c) (cur_iova iter) in
  if prevent_access (c_area c) || negb (iopt_area_contig_is_aligned iter)
  then (s, Some EINVAL)
  else if negb (check_area_prot (c_area c) flags)
  then (s, Some EPERM)
  else
    match iopt_area_add_access iopt c index last_index flags (fst s) with
    | (st', Failure e, _) => ((st', snd s), Some e)
    | (st', Success, pgs) => ((st', snd s ++ pgs), None)
    end.

Definition iommufd_access_pin_pages (iopt : io_pagetable)
    (access : iommufd_access) (iova length flags : Z) (st : pin_state)
  : pin_state * rc * list page :=
  if CONFIG_IOMMUFD_TEST
     && (negb (iova_alignment access =? PAGE_SIZE) || negb (ops_unmap access))
  then (WARN_ON true WARN_NO_PIN_OPS st, Failure EINVAL, [])
  else if length =? 0 then (st, Failure EINVAL, [])
  else
    let '(overflow, last_iova_v) := check_add_overflow iova (length - 1) in
    if overflow then (st, Failure EOVERFLOW, [])
    else
      let '(iter, (st1, out), brk) :=
        iopt_for_each_contig_area iopt iova last_iova_v
          (pin_body iopt last_iova_v flags) (st, []) in
      let err :=
        match brk with
        | Some e => Some e
        | None =>
            if negb (iopt_area_contig_done iter) then Some ENOENT else None
        end in
      match err with
      | None => (st1, Success, out)
      | Some e =>
          (* err_remove *)
          let st2 :=
            if iova <? cur_iova iter then
              let last2 := cur_iova iter - 1 in
              let '(_, st2, _) :=
                iopt_for_each_contig_area iopt iova last2
                  (unpin_body last2) st1 in
              st2
            else st1 in
          (st2, Failure e, out)
      end.

(** Body of the loop of [iommufd_access_rw]; the loop state carries the
    buffer and the offset of the [data] pointer. *)
Definition rw_body (iopt : io_pagetable) (last_iova_v flags : Z)
    (iter : iopt_area_contig_iter) (c : cursor)
    (s : pin_state * list Byte.byte * Z)
  : (pin_state * list Byte.byte * Z) * option errno :=
  let '(st, buf, off) := s in
  let last := Z.min last_iova_v (iopt_area_last_iova (c_area c)) in
  let bytes := (last - cur_iova iter) + 1 in
  if prevent_access (c_area c) then (s, Some EINVAL)
  else if negb (check_area_prot (c_area c) flags) then (s, Some EPERM)
  else
    match iopt_pages_rw_access iopt (pages (c_area c))
            (iopt_area_start_byte (c_area c) (cur_iova iter))
            buf off bytes flags st with
    | (st', Failure e, buf') => ((st', buf', off), Some e)
    | (st', Success, buf') => ((st', buf', off + bytes), None)
    end.

Definition iommufd_access_rw (iopt : io_pagetable) (iova : Z)
    (buf : list Byte.byte) (length flags : Z) (st : pin_state)
  : pin_state * rc * list Byte.byte :=
  if length =? 0 then (st, Failure EINVAL, buf)
  else
    let '(overflow, last_iova_v) := check_add_overflow iova (length - 1) in
    if overflow then (st, Failure EOVERFLOW, buf)
    else
      let '(iter, (st1, buf1, _), brk) :=
        iopt_for_each_contig_area iopt iova last_iova_v
          (rw_body iopt last_iova_v flags) (st, buf, 0) in
      match brk with
      | Some e => (st1, Failure e, buf1)
      | None =>
          if negb (iopt_area_contig_done iter)
          then (st1, Failure ENOENT, buf1)
          else (st1, Success, buf1)
      end.

(** A call of an access's [ops->unmap(access->data, iova, length)]. *)
Record unmap_call : Type := {
  call_data : Z;
  call_iova : Z;
  call_length : Z;
}.

(** [iommufd_lock_obj(&access->obj)] fails for an object that is being
    destroyed. *)
Definition iommufd_lock_obj (a : iommufd_access) : bool := obj_lockable a.

(** [iommufd_access_notify_unmap]: the calls made, in the order of the
    access list. *)
Fixpoint notify_unmap_loop (l : list iommufd_access) (iova length : Z)
  : list unmap_call :=
  match l with
  | [] => []
  | a :: l' =>
      if negb (iommufd_lock_obj a) then notify_unmap_loop l' iova length
      else
        {| call_data := data a; call_iova := iova; call_length := length |}
        :: notify_unmap_loop l' iova length
  end.

Definition iommufd_access_notify_unmap (iopt : io_pagetable)
    (iova length : Z) : list unmap_call :=
  notify_unmap_loop (access_list iopt) iova length.


(** ** What a walk adds to the pin state *)

(** The index range of the access that the pinning loop adds, and the
    unpinning loop removes, for a visited area. *)
Definition step_range (last : Z) (step : Z * cursor) : Z * Z :=
  (iopt_area_iova_to_index (c_area step.2) step.1,
   iopt_area_iova_to_index (c_area step.2)
     (Z.min last (iopt_area_last_iova (c_area step.2)))).

Definition step_key (last : Z) (step : Z * cursor)
  : option (nat * (Z * Z)) :=
  (λ p, (p, step_range last step)) <$> pages (c_area step.2).

Definition steps_nums (steps : list (Z * cursor)) : gmultiset nat :=
  list_to_set_disj ((λ step, c_index step.2) <$> steps).

Definition steps_keys (last : Z) (steps : list (Z * cursor))
  : gmultiset (nat * (Z * Z)) :=
  list_to_set_disj (omap (step_key last) steps).

(** The pages that the pinning loop stores through [out_pages]. *)
Definition step_pages (last : Z) (step : Z * cursor) : list page :=
  match pages (c_area step.2) with
  | Some p => page_list p (step_range last step).1 (step_range last step).2
  | None => []
  end.

(** ** The checks of the loops, area by area *)

(** The error of the Pages Store when the pages [start_index] to
    [last_index] are pinned for an access with [flags]. *)
Definition store_error (iopt : io_pagetable) (pgs : option nat)
    (start_index last_index flags : Z) : option errno :=
  match pgs with
  | None => Some EFAULT
  | Some p =>
      match stores iopt !! p with
      | None => Some EFAULT
      | Some ps =>
          if wants_write flags && negb (writable ps) then Some EPERM
          else pages_pin_error ps start_index last_index
      end
  end.

(** The error with which the pinning loop leaves at a visited area. *)
Definition pin_verdict (iopt : io_pagetable) (last flags : Z)
    (step : Z * cursor) : option errno :=
  if prevent_access (c_area step.2)
     || negb (iopt_area_contig_is_aligned (iter_at last step))
  then Some EINVAL
  else if negb (check_area_prot (c_area step.2) flags) then Some EPERM
  else store_error iopt (pages (c_area step.2))
         (step_range last step).1 (step_range last step).2 flags.

(** The error with which the loop of [iommufd_access_rw] leaves at a
    visited area. *)
Definition rw_verdict (iopt : io_pagetable) (last flags : Z)
    (step : Z * cursor) : option errno :=
  if prevent_access (c_area step.2) then Some EINVAL
  else if negb (check_area_prot (c_area step.2) flags) then Some EPERM
  else store_error iopt (pages (c_area step.2))
         (step_range last step).1 (step_range last step).2 flags.

(** The error of the first area, in IOVA order, that fails. *)
Fixpoint first_error (verdict : Z * cursor → option errno)
    (steps : list (Z * cursor)) : option errno :=
  match steps with
  | [] => None
  | step :: tl =>
      match verdict step with
      | Some e => Some e
      | None => first_error verdict tl
      end
  end.

(** The walk of a request that passed the length and overflow checks. *)
Definition request_last (iova length : Z) : Z := iova + (length - 1).

Definition request_areas (iopt : io_pagetable) (iova length : Z)
  : list (Z * cursor) :=
  contig_areas iopt iova (request_last iova length).

(** The access can be used for pinning, as far as the self-test build
    checks. *)
Definition pin_ops_ok (access : iommufd_access) : bool :=
  negb (CONFIG_IOMMUFD_TEST
        && (negb (iova_alignment access =? PAGE_SIZE)
            || negb (ops_unmap access))).

(** ** device.c and hw_pagetable.c: hardware page tables *)

(** Constant of a header that is not part of the sources. *)
Variable PHYS_ADDR_MAX : Z.

(** *** The I/O page table operations used by attach *)

Definition area_overlaps (start last : Z) (a : iopt_area) : bool :=
  (node_start a <=? last) && (start <=? node_last a).

(** Modelled from the spec: [iopt_remove_reserved_iova] (io_pagetable.c is
    not part of the sources): the reserved regions that belong to [owner]
    are removed. *)
Definition iopt_remove_reserved_iova (iopt : io_pagetable) (owner : nat)
  : io_pagetable :=
  set_reserved iopt
    (List.filter (λ r, negb (Nat.eqb (resv_owner r) owner)) (reserved iopt)).

(** Modelled from the spec: [iopt_reserve_iova] ([add_reserved_region]): a
    region that is already occupied by an Area is refused as Busy. *)
Definition iopt_reserve_iova (iopt : io_pagetable) (start last : Z)
    (owner : nat) : io_pagetable * rc :=
  if existsb (area_overlaps start last) (areas iopt)
  then (iopt, Failure EBUSY)
  else
    (set_reserved iopt
       (reserved iopt
        ++ [{| resv_start := start; resv_last := last;
               resv_owner := owner |}]),
     Success).

Fixpoint reserve_regions (iopt : io_pagetable) (owner : nat)
    (regions : list resv_region) (sw_msi : Z) : io_pagetable * Z * rc :=
  match regions with
  | [] => (iopt, sw_msi, Success)
  | r :: tl =>
      let sw_msi' := if region_sw_msi r then region_start r else sw_msi in
      match iopt_reserve_iova iopt (region_start r)
              (region_length r - 1 + region_start r) owner with
      | (iopt', Failure e) => (iopt', sw_msi', Failure e)
      | (iopt', Success) => reserve_regions iopt' owner tl sw_msi'
      end
  end.

(** Modelled from the spec: [iopt_table_enforce_dev_resv_regions]
    (io_pagetable.c): the reserved regions of the device are added to the
    table, and the start of a software MSI window is stored through
    [sw_msi_start]; a failure rolls back by removing the regions of the
    device. *)
Definition iopt_table_enforce_dev_resv_regions (pf : platform)
    (iopt : io_pagetable) (device : nat) (sw_msi : Z)
  : io_pagetable * Z * rc :=
  match reserve_regions iopt device (iommu_get_resv_regions pf device)
          sw_msi with
  | (iopt', sw_msi', Failure e) =>
      (iopt_remove_reserved_iova iopt' device, sw_msi', Failure e)
  | (iopt', sw_msi', Success) => (iopt', sw_msi', Success)
  end.

Definition area_entry (a : iopt_area) : Z * Z := (node_start a, node_last a).

(** Modelled from the spec: [fill_domain] over the Areas of the table in
    IOVA order: the entries of each Area are programmed into the domain;
    at the first failure the walk stops with the Areas already filled. *)
Fixpoint fill_areas (pf : platform) (domain : nat) (l : list iopt_area)
    (entries : list (Z * Z)) : list (Z * Z) * list iopt_area * rc :=
  match l with
  | [] => (entries, [], Success)
  | a :: tl =>
      match drv_map_area pf domain a with
      | Failure e => (entries, [], Failure e)
      | Success =>
          let '(entries', filled, r) :=
            fill_areas pf domain tl (entries ++ [area_entry a]) in
          (entries', a :: filled, r)
      end
  end.

(** Modelled from the spec: [unfill_domain] over Areas: their entries are
    removed from the domain. *)
Definition unfill_areas (l : list iopt_area) (entries : list (Z * Z))
  : list (Z * Z) :=
  List.filter
    (λ e, negb (existsb (λ a, bool_decide (area_entry a = e)) l)) entries.

Definition area_aligned_to (align : Z) (a : iopt_area) : bool :=
  (node_start a mod align =? 0) && ((node_last a + 1) mod align =? 0).

(** Modelled from the spec: [iopt_table_add_domain] (io_pagetable.c), the
    spec's attach of a domain: the alignment the domain needs is checked
    against the Areas first, and a domain whose minimum page size they do
    not support is refused as Incompatible (EINVAL); then every Area is
    filled in IOVA order, and a failure on the way unfills the Areas
    already filled before the error is reported. *)
Definition iopt_table_add_domain (pf : platform) (domain : nat) (w : world)
  : world * rc :=
  let iopt := ioas_iopt w in
  let align := Z.max (iopt_alignment iopt) (drv_min_pgsize pf domain) in
  if negb (forallb (area_aligned_to align) (areas iopt))
  then (w, Failure EINVAL)
  else
    let entries := default [] (hw_entries w !! domain) in
    match fill_areas pf domain (areas iopt) entries with
    | (entries', filled, Failure e) =>
        (set_hw_entries w
           (<[domain := unfill_areas filled entries']> (hw_entries w)),
         Failure e)
    | (entries', _, Success) =>
        (set_iopt
           (set_hw_entries w (<[domain := entries']> (hw_entries w)))
           (set_domains iopt (domains iopt ++ [domain]) align),
         Success)
    end.

(** Modelled from the spec: [iopt_table_remove_domain], the spec's detach
    of a domain: every Area is unfilled and the binding leaves the
    attached set. *)
Definition iopt_table_remove_domain (domain : nat) (w : world) : world :=
  let iopt := ioas_iopt w in
  set_iopt
    (set_hw_entries w
       (alter (unfill_areas (areas iopt)) domain (hw_entries w)))
    (set_domains iopt
       (List.filter (λ d, negb (Nat.eqb d domain)) (domains iopt))
       (iopt_alignment iopt)).

(** *** hw_pagetable.c and device.c *)

Definition iommufd_hw_pagetable_enforce_cc (pf : platform)
    (hwpt : iommufd_hw_pagetable) : iommufd_hw_pagetable * rc :=
  if enforce_cache_coherency hwpt then (hwpt, Success)
  else
    let hwpt' :=
      match hwpt_domain hwpt with
      | None => hwpt
      | Some d =>
          match drv_enforce_cache_coherency pf d with
          | Some b => set_enforce_cc hwpt b
          | None => hwpt
          end
      end in
    if negb (enforce_cache_coherency hwpt') then (hwpt', Failure EINVAL)
    else (hwpt', Success).

Definition iommufd_group_setup_msi (pf : platform) (g : iommufd_group)
    (hwpt : iommufd_hw_pagetable) : iommufd_hw_pagetable * rc :=
  if negb (sw_msi_start g =? PHYS_ADDR_MAX) && negb (msi_cookie hwpt) then
    match hwpt_domain hwpt with
    | None => (hwpt, Failure EINVAL)
    | Some d =>
        match iommu_get_msi_cookie pf d (sw_msi_start g) with
        | Failure e => (hwpt, Failure e)
        | Success => (set_msi_cookie hwpt true, Success)
        end
    end
  else (hwpt, Success).

Definition set_sw_msi_start (g : iommufd_group) (s : Z) : iommufd_group :=
  {| ig_hwpt := ig_hwpt g; device_list := device_list g; sw_msi_start := s |}.

Definition set_ig_hwpt (g : iommufd_group) (h : option nat) : iommufd_group :=
  {| ig_hwpt := h; device_list := device_list g;
     sw_msi_start := sw_msi_start g |}.

Definition set_device_list (g : iommufd_group) (l : list nat)
  : iommufd_group :=
  {| ig_hwpt := ig_hwpt g; device_list := l;
     sw_msi_start := sw_msi_start g |}.

(** [iommufd_hw_pagetable_attach(hwpt, idev)], with [hwpt] given by its
    object ID.  A pointer that is not an object of the IOAS is refused
    with ENOENT, as the lookup of the ID is. *)
Definition iommufd_hw_pagetable_attach (pf : platform) (id : nat)
    (idev : iommufd_device) (w : world) : world * rc :=
  match objs w !! id with
  | None => (w, Failure ENOENT)
  | Some hwpt =>
      if match ig_hwpt (igroup w) with
         | Some cur => negb (Nat.eqb cur id)
         | None => false
         end
      then (w, Failure EINVAL)
      else
        (* Try to upgrade the domain we have *)
        let '(hwpt1, rc1) :=
          if dev_enforce_cache_coherency idev
          then iommufd_hw_pagetable_enforce_cc pf hwpt
          else (hwpt, Success) in
        let w1 := set_objs w (<[id := hwpt1]> (objs w)) in
        match rc1 with
        | Failure e => (w1, Failure e)
        | Success =>
            let '(iopt2, sw_msi, rc2) :=
              iopt_table_enforce_dev_resv_regions pf (ioas_iopt w1)
                (dev idev) (sw_msi_start (igroup w1)) in
            let w2 :=
              set_igroup (set_iopt w1 iopt2)
                (set_sw_msi_start (igroup w1) sw_msi) in
            match rc2 with
            | Failure e => (w2, Failure e)
            | Success =>
                let err_unresv (w' : world) (e : errno) :=
                  (set_iopt w'
                     (iopt_remove_reserved_iova (ioas_iopt w') (dev idev)),
                   Failure e) in
                let finish (w' : world) :=
                  (set_igroup (add_hwpt_users w' id 1)
                     (set_device_list (igroup w')
                        (device_list (igroup w') ++ [dev idev])),
                   Success) in
                match device_list (igroup w2) with
                | [] =>
                    let '(hwpt3, rc3) :=
                      iommufd_group_setup_msi pf (igroup w2) hwpt1 in
                    let w3 := set_objs w2 (<[id := hwpt3]> (objs w2)) in
                    match rc3 with
                    | Failure e => err_unresv w3 e
                    | Success =>
                        match hwpt_domain hwpt3 with
                        | None => err_unresv w3 EINVAL
                        | Some d =>
                            match iommu_attach_group pf d with
                            | Failure e => err_unresv w3 e
                            | Success =>
                                finish
                                  (set_igroup
                                     (set_group_domain w3 (Some d))
                                     (set_ig_hwpt (igroup w3) (Some id)))
                            end
                        end
                    end
                | _ :: _ => finish w2
                end
            end
        end
  end.

(** [list_del(&idev->group_item)]. *)
Fixpoint list_del (d : nat) (l : list nat) : list nat :=
  match l with
  | [] => []
  | x :: tl => if Nat.eqb x d then tl else x :: list_del d tl
  end.

(** [iommufd_hw_pagetable_detach(idev)]; the result is the ID of the
    hardware page table the group was attached to. *)
Definition iommufd_hw_pagetable_detach (idev : iommufd_device) (w : world)
  : world * option nat :=
  let hwpt := ig_hwpt (igroup w) in
  let w1 :=
    set_igroup w
      (set_device_list (igroup w) (list_del (dev idev) (device_list (igroup w))))
  in
  let w2 :=
    match device_list (igroup w1) with
    | [] =>
        set_igroup (set_group_domain w1 None) (set_ig_hwpt (igroup w1) None)
    | _ :: _ => w1
    end in
  (set_iopt w2 (iopt_remove_reserved_iova (ioas_iopt w2) (dev idev)), hwpt).

Definition iommufd_hw_pagetable_link_ioas (pf : platform) (id : nat)
    (w : world) : world * rc :=
  match objs w !! id with
  | None => (w, Failure ENOENT)
  | Some hwpt =>
      match hwpt_parent hwpt with
      | Some _ => (w, Success)
      | None =>
          match hwpt_domain hwpt with
          | None => (w, Failure EINVAL)
          | Some d =>
              match iopt_table_add_domain pf d w with
              | (w', Failure e) => (w', Failure e)
              | (w', Success) =>
                  (set_hwpt_list w' (hwpt_list w' ++ [id]), Success)
              end
          end
      end
  end.

(** [iommufd_hw_pagetable_destroy], which is also what
    [iommufd_hw_pagetable_abort] comes to: abort unlinks a linked hardware
    page table and removes its domain from the table itself, and then
    calls destroy, which finds nothing left to unlink. *)
Definition iommufd_hw_pagetable_destroy (id : nat) (w : world) : world :=
  match objs w !! id with
  | None => w
  | Some hwpt =>
      let w1 :=
        if bool_decide (id ∈ hwpt_list w) then
          let w' :=
            set_hwpt_list w
              (List.filter (λ x, negb (Nat.eqb x id)) (hwpt_list w)) in
          match hwpt_domain hwpt with
          | Some d => iopt_table_remove_domain d w'
          | None => w'
          end
        else w in
      let w2 :=
        match hwpt_domain hwpt with
        | Some d => set_hw_entries w1 (delete d (hw_entries w1))
        | None => w1
        end in
      let w3 :=
        match hwpt_parent hwpt with
        | Some p => add_hwpt_users w2 p (-1)
        | None => w2
        end in
      set_ioas_users w3 (ioas_users w3 - 1)
  end.

(** [iommufd_object_abort_and_destroy]: the abort operation of the object,
    then the release of its ID. *)
Definition iommufd_object_abort_and_destroy (id : nat) (w : world) : world :=
  let w' := iommufd_hw_pagetable_destroy id w in
  set_objs w' (delete id (objs w')).

(** [iommufd_hw_pagetable_alloc]; the result carries the ID of the new
    object on success. *)
Definition iommufd_hw_pagetable_alloc (pf : platform)
    (idev : iommufd_device) (parent : option nat) (user_data : bool)
    (immediate_attach : bool) (w : world) : world * rc * option nat :=
  if (user_data || bool_decide (parent ≠ None))
     && negb (ops_domain_alloc_user pf)
  then (w, Failure EOPNOTSUPP, None)
  else
    match iommufd_object_alloc pf with
    | None => (w, Failure ENOMEM, None)
    | Some id =>
        let hwpt :=
          {| hwpt_domain := None; hwpt_parent := parent;
             auto_domain := false; enforce_cache_coherency := false;
             msi_cookie := false; hwpt_users := 1;
             hwpt_lockable := false |} in
        (* Pairs with iommufd_hw_pagetable_destroy() *)
        let w1 :=
          set_ioas_users (set_objs w (<[id := hwpt]> (objs w)))
            (ioas_users w + 1) in
        let w2 :=
          match parent with
          | Some p => add_hwpt_users w1 p 1
          | None => w1
          end in
        let out_abort (w' : world) (e : errno) :=
          (iommufd_object_abort_and_destroy id w', Failure e, None) in
        match drv_domain_alloc pf with
        | None => out_abort w2 ENOMEM
        | Some d =>
            let hwpt3 := set_hwpt_domain hwpt (Some d) in
            let w3 :=
              set_hw_entries (set_objs w2 (<[id := hwpt3]> (objs w2)))
                (<[d := []]> (hw_entries w2)) in
            if negb (drv_domain_type_ok pf) then out_abort w3 EINVAL
            else
              let '(hwpt4, rc4) :=
                if dev_enforce_cache_coherency idev
                then iommufd_hw_pagetable_enforce_cc pf hwpt3
                else (hwpt3, Success) in
              let w4 := set_objs w3 (<[id := hwpt4]> (objs w3)) in
              match rc4 with
              | Failure e => out_abort w4 e
              | Success =>
                  let '(w5, rc5) :=
                    if immediate_attach
                    then iommufd_hw_pagetable_attach pf id idev w4
                    else (w4, Success) in
                  match rc5 with
                  | Failure e => out_abort w5 e
                  | Success =>
                      match iommufd_hw_pagetable_link_ioas pf id w5 with
                      | (w6, Failure e) =>
                          (* out_detach *)
                          let w7 :=
                            if immediate_attach
                            then (iommufd_hw_pagetable_detach idev w6).1
                            else w6 in
                          out_abort w7 e
                      | (w6, Success) => (w6, Success, Some id)
                      end
                  end
              end
        end
    end.

Definition set_hwpt_lockable (h : iommufd_hw_pagetable) (b : bool)
  : iommufd_hw_pagetable :=
  {| hwpt_domain := hwpt_domain h; hwpt_parent := hwpt_parent h;
     auto_domain := auto_domain h;
     enforce_cache_coherency := enforce_cache_coherency h;
     msi_cookie := msi_cookie h; hwpt_users := hwpt_users h;
     hwpt_lockable := b |}.

(** [iommufd_object_finalize]: the object becomes visible and can be
    locked. *)
Definition iommufd_object_finalize (id : nat) (w : world) : world :=
  set_objs w (alter (λ h, set_hwpt_lockable h true) id (objs w)).

(** The loop of [iommufd_device_auto_get_domain] over [ioas->hwpt_list];
    [None] when no hardware page table of the list was used. *)
Fixpoint auto_get_domain_loop (pf : platform) (idev : iommufd_device)
    (l : list nat) (pt_id : nat) (w : world) : world * option (rc * nat) :=
  match l with
  | [] => (w, None)
  | id :: tl =>
      match objs w !! id with
      | None => auto_get_domain_loop pf idev tl pt_id w
      | Some hwpt =>
          if negb (auto_domain hwpt)
          then auto_get_domain_loop pf idev tl pt_id w
          else if negb (hwpt_lockable hwpt)
          then auto_get_domain_loop pf idev tl pt_id w
          else
            let '(w', r) := iommufd_hw_pagetable_attach pf id idev w in
            (* -EINVAL means the domain is incompatible with the device. *)
            if bool_decide (r = Failure EINVAL)
            then auto_get_domain_loop pf idev tl pt_id w'
            else (w', Some (r, id))
      end
  end.

(** [iommufd_device_auto_get_domain(idev, ioas, pt_id)]; the last
    component is the value of [*pt_id] on return. *)
Definition iommufd_device_auto_get_domain (pf : platform)
    (idev : iommufd_device) (pt_id : nat) (w : world) : world * rc * nat :=
  match auto_get_domain_loop pf idev (hwpt_list w) pt_id w with
  | (w', Some (r, id)) => (w', r, id)
  | (w', None) =>
      match iommufd_hw_pagetable_alloc pf idev None false true w' with
      | (w'', Failure e, _) => (w'', Failure e, pt_id)
      | (w'', Success, None) => (w'', Failure EINVAL, pt_id)
      | (w'', Success, Some id) =>
          let w3 :=
            set_objs w''
              (alter (λ h, set_auto_domain h true) id (objs w'')) in
          (iommufd_object_finalize id w3, Success, id)
      end
  end.

(** ** What a failed attach leaves unchanged *)

(** The device has no reserved region in the table: it is not attached. *)
Definition owns_nothing (iopt : io_pagetable) (owner : nat) : Prop :=
  Forall (λ x, resv_owner x ≠ owner) (reserved iopt).

(** A hardware page table without the two flags that an attach may
    upgrade ([enforce_cache_coherency] and [msi_cookie]). *)
Definition hwpt_binding (h : iommufd_hw_pagetable)
  : option nat * option nat * bool * Z * bool :=
  (hwpt_domain h, hwpt_parent h, auto_domain h, hwpt_users h,
   hwpt_lockable h).


(** The group is attached to an existing hardware page table, or it is
    idle: no device of it is attached and the IOMMU has no domain for
    it. *)
Definition group_wf (w : world) : Prop :=
  match ig_hwpt (igroup w) with
  | Some h => is_Some (objs w !! h)
  | None => device_list (igroup w) = [] ∧ group_domain w = None
  end.


Definition bump (n : Z) (b : option nat * option nat * bool * Z * bool)
  : option nat * option nat * bool * Z * bool :=
  (b.1.1.1.1, b.1.1.1.2, b.1.1.2, b.1.2 + n, b.2).


(** ** Candidates that automatic domain selection passes over *)

(** [skipped pf idev l w w']: the loop of
    [iommufd_device_auto_get_domain] goes through all of [l] without
    using a hardware page table, from [w] to [w']: each one is not an
    automatic domain, or cannot be locked, or refuses the device with
    EINVAL. *)
Inductive skipped (pf : platform) (idev : iommufd_device)
  : list nat → world → world → Prop :=
  | skipped_nil w : skipped pf idev [] w w
  | skipped_dangling id tl w w' :
      objs w !! id = None →
      skipped pf idev tl w w' →
      skipped pf idev (id :: tl) w w'
  | skipped_manual id tl w w' h :
      objs w !! id = Some h → auto_domain h = false →
      skipped pf idev tl w w' →
      skipped pf idev (id :: tl) w w'
  | skipped_unlockable id tl w w' h :
      objs w !! id = Some h → auto_domain h = true →
      hwpt_lockable h = false →
      skipped pf idev tl w w' →
      skipped pf idev (id :: tl) w w'
  | skipped_incompatible id tl w w1 w' h :
      objs w !! id = Some h → auto_domain h = true →
      hwpt_lockable h = true →
      iommufd_hw_pagetable_attach pf id idev w = (w1, Failure EINVAL) →
      skipped pf idev tl w1 w' →
      skipped pf idev (id :: tl) w w'.

(** ** More of device.c and hw_pagetable.c *)

(** The platform with other answers of [iommu_attach_group] and
    [iommu_get_msi_cookie]. *)
Definition with_group_ops (pf : platform) (attach_rc : nat → rc)
    (cookie_rc : nat → Z → rc) : platform :=
  {| drv_enforce_cache_coherency := drv_enforce_cache_coherency pf;
     iommu_get_msi_cookie := cookie_rc;
     iommu_attach_group := attach_rc;
     drv_map_area := drv_map_area pf;
     drv_min_pgsize := drv_min_pgsize pf;
     iommu_get_resv_regions := iommu_get_resv_regions pf;
     ops_domain_alloc_user := ops_domain_alloc_user pf;
     iommufd_object_alloc := iommufd_object_alloc pf;
     drv_domain_alloc := drv_domain_alloc pf;
     drv_domain_type_ok := drv_domain_type_ok pf |}.

(** [h'] is [h] after the upgrades that an attach may make: the flags
    [enforce_cache_coherency] and [msi_cookie] are set or left, never
    cleared, and the rest of the hardware page table is that of [h] but
    for a reference taken. *)
Definition upgraded (h h' : iommufd_hw_pagetable) : Prop :=
  hwpt_domain h' = hwpt_domain h
  ∧ hwpt_parent h' = hwpt_parent h
  ∧ auto_domain h' = auto_domain h
  ∧ hwpt_lockable h' = hwpt_lockable h
  ∧ (enforce_cache_coherency h = true → enforce_cache_coherency h' = true)
  ∧ (msi_cookie h = true → msi_cookie h' = true)
  ∧ (hwpt_users h' = hwpt_users h ∨ hwpt_users h' = hwpt_users h + 1).

(** *** Groups *)

(** [xa_cmpxchg(xa, index, old, entry)]: the entry at [index] is replaced
    by [entry] if it is [old]; the result is the entry found, or the
    error of a store that could not be made. *)
Definition xa_cmpxchg (err : option errno) (xa : gmap nat nat) (index : nat)
    (old entry : option nat) : gmap nat nat * (option nat + errno) :=
  let cur := xa !! index in
  if bool_decide (cur = old) then
    match entry, err with
    | Some _, Some e => (xa, inr e)
    | Some p, None => (<[index := p]> xa, inl cur)
    | None, _ => (delete index xa, inl cur)
    end
  else (xa, inl cur).

Definition iommu_group_put (s : ictx_state) (group : nat) : ictx_state :=
  set_iommu_group_refs s (iommu_group_refs s ∖ {[+ group +]}).

(** [iommufd_group_release(kref)], for the group at [ptr]. *)
Definition iommufd_group_release (pf : bind_platform) (ptr : nat)
    (s : ictx_state) : ictx_state :=
  match igroup_mem s !! ptr with
  | None => s
  | Some g =>
      let s1 :=
        if bool_decide (ig_hwpt (ge_data g) ≠ None)
           || bool_decide (device_list (ge_data g) ≠ [])
        then ictx_warn s WARN_GROUP_IN_USE else s in
      let s2 :=
        set_groups s1
          (xa_cmpxchg None (groups s1) (iommu_group_id pf (ge_group g))
             (Some ptr) None).1 in
      let s3 := iommu_group_put s2 (ge_group g) in
      (* kfree(igroup) *)
      set_igroup_mem s3 (delete ptr (igroup_mem s3))
  end.

(** [iommufd_put_group]: [kref_put(&group->ref, iommufd_group_release)]. *)
Definition iommufd_put_group (pf : bind_platform) (ptr : nat)
    (s : ictx_state) : ictx_state :=
  match igroup_mem s !! ptr with
  | None => s
  | Some g =>
      let s1 :=
        set_igroup_mem s
          (<[ptr := set_ge_ref g (ge_ref g - 1)]> (igroup_mem s)) in
      if ge_ref g - 1 =? 0 then iommufd_group_release pf ptr s1 else s1
  end.

(** [iommufd_group_try_get(igroup, group)]; [kref_get_unless_zero] takes
    the reference unless the count is zero. *)
Definition iommufd_group_try_get (igroup : option nat) (group : nat)
    (s : ictx_state) : ictx_state * bool :=
  match igroup with
  | None => (s, false)
  | Some ptr =>
      match igroup_mem s !! ptr with
      | None => (s, false)
      | Some g =>
          if negb (Nat.eqb (ge_group g) group)
          then (ictx_warn s WARN_GROUP_MISMATCH, false)
          else if ge_ref g =? 0 then (s, false)
          else
            (set_igroup_mem s
               (<[ptr := set_ge_ref g (ge_ref g + 1)]> (igroup_mem s)),
             true)
      end
  end.

(** The [while (true)] loop of [iommufd_get_group]; [None] when [fuel]
    iterations did not leave it. *)
Fixpoint get_group_loop (fuel : nat) (pf : bind_platform)
    (group id new_igroup : nat) (cur_igroup : option nat) (s : ictx_state)
  : option (ictx_state * (nat + errno)) :=
  match fuel with
  | O => None
  | S fuel' =>
      match xa_cmpxchg (xa_store_error pf) (groups s) id cur_igroup
              (Some new_igroup) with
      | (_, inr e) => Some (iommufd_put_group pf new_igroup s, inr e)
      | (xa, inl igroup) =>
          let s1 := set_groups s xa in
          (* new_group was successfully installed *)
          if bool_decide (cur_igroup = igroup) then Some (s1, inl new_igroup)
          else
            (* Check again if the current group is any good *)
            match iommufd_group_try_get igroup group s1, igroup with
            | (s2, true), Some ptr =>
                Some (iommufd_put_group pf new_igroup s2, inl ptr)
            | (s2, _), _ =>
                get_group_loop fuel' pf group id new_igroup igroup s2
            end
      end
  end.

(** [iommufd_get_group(ictx, dev)]: the pointer to the group of the
    device, or an error. *)
Definition iommufd_get_group (pf : bind_platform) (device : nat)
    (s : ictx_state) : option (ictx_state * (nat + errno)) :=
  match iommu_group_get pf device with
  | None => Some (s, inr ENODEV)
  | Some group =>
      let s0 :=
        set_iommu_group_refs s (iommu_group_refs s ⊎ {[+ group +]}) in
      let id := iommu_group_id pf group in
      let igroup := groups s0 !! id in
      match iommufd_group_try_get igroup group s0, igroup with
      | (s1, true), Some ptr => Some (iommu_group_put s1 group, inl ptr)
      | (s1, _), _ =>
          match kzalloc_igroup pf with
          | None => Some (iommu_group_put s1 group, inr ENOMEM)
          | Some new_igroup =>
              (* group reference moves into new_igroup *)
              let s2 :=
                set_igroup_mem s1
                  (<[new_igroup :=
                       {| ge_group := group; ge_ref := 1;
                          ge_data :=
                            {| ig_hwpt := None; device_list := [];
                               sw_msi_start := PHYS_ADDR_MAX |} |}]>
                     (igroup_mem s1)) in
              get_group_loop 2 pf group id new_igroup None s2
          end
      end
  end.

(** [iommufd_device_destroy], for the device object [id]. *)
Definition iommufd_device_destroy (pf : bind_platform) (id : nat)
    (s : ictx_state) : ictx_state :=
  match idevs s !! id with
  | None => s
  | Some d =>
      let device := dev (bd_idev d) in
      let s1 := set_dma_owners s (dma_owners s ∖ {[+ device +]}) in
      let s2 := iommufd_put_group pf (bd_igroup d) s1 in
      if negb (iommufd_selftest_is_mock_dev pf device)
      then set_ctx_users s2 (ctx_users s2 - 1) else s2
  end.

(** [iommufd_device_bind(ictx, dev, id)]: the ID of the new device
    object, or an error. *)
Definition iommufd_device_bind (pf : bind_platform) (device : nat)
    (s : ictx_state) : option (ictx_state * (nat + errno)) :=
  if negb (cap_cache_coherency pf device) then Some (s, inr EINVAL)
  else
    match iommufd_get_group pf device s with
    | None => None
    | Some (s1, inr e) => Some (s1, inr e)
    | Some (s1, inl igroup) =>
        let group :=
          match igroup_mem s1 !! igroup with
          | Some g => ge_group g
          | None => 0%nat
          end in
        let unsafe :=
          negb (iommufd_selftest_is_mock_dev pf device)
          && negb (iommu_group_has_isolated_msi pf group) in
        if unsafe && negb (allow_unsafe_interrupts pf)
        then Some (iommufd_put_group pf igroup s1, inr EPERM)
        else
          let s2 := if unsafe then ictx_warn s1 DEV_WARN_UNSAFE_MSI else s1 in
          match iommu_device_claim_dma_owner pf device with
          | Failure e => Some (iommufd_put_group pf igroup s2, inr e)
          | Success =>
              let s3 :=
                set_dma_owners s2 (dma_owners s2 ⊎ {[+ device +]}) in
              match object_alloc_device pf with
              | inr e =>
                  (* out_release_owner *)
                  let s4 :=
                    set_dma_owners s3 (dma_owners s3 ∖ {[+ device +]}) in
                  Some (iommufd_put_group pf igroup s4, inr e)
              | inl id =>
                  let s4 :=
                    if negb (iommufd_selftest_is_mock_dev pf device)
                    then set_ctx_users s3 (ctx_users s3 + 1) else s3 in
                  let idev :=
                    {| bd_idev :=
                         {| dev := device;
                            dev_enforce_cache_coherency :=
                              cap_enforce_cache_coherency pf device |};
                       bd_igroup := igroup;
                       (* The calling driver is a user until
                          iommufd_device_unbind() *)
                       bd_users := 2;
                       bd_finalized := true |} in
                  Some (set_idevs s4 (<[id := idev]> (idevs s4)), inl id)
              end
          end
    end.

(** The invariant of [ictx->groups]: an entry points to an allocated
    group that is alive and stands for the [iommu_group] with that ID. *)
Definition groups_wf (pf : bind_platform) (s : ictx_state) : Prop :=
  ∀ id ptr, groups s !! id = Some ptr →
    ∃ g, igroup_mem s !! ptr = Some g
         ∧ iommu_group_id pf (ge_group g) = id ∧ 0 < ge_ref g.

(** Two states of the context that differ in the log only. *)
Definition same_ictx (s s' : ictx_state) : Prop :=
  groups s' = groups s ∧ igroup_mem s' = igroup_mem s
  ∧ iommu_group_refs s' = iommu_group_refs s
  ∧ dma_owners s' = dma_owners s ∧ ctx_users s' = ctx_users s
  ∧ idevs s' = idevs s.

(** *** The commands of hw_pagetable.c *)

(** Constant of a header that is not part of the sources. *)
Variable IOMMU_HWPT_TYPE_DEFAULT : Z.

(** The parent that [iommufd_hwpt_alloc] derives from [cmd->pt_id]: none
    for an IOAS, the hardware page table itself if it is neither an
    automatic domain nor nested. *)
Definition hwpt_alloc_parent (env : ucmd_env) (cmd : iommu_hwpt_alloc)
    (w : world) : option nat + errno :=
  match iommufd_get_object env (ha_pt_id cmd) with
  | inr _ => inr EINVAL
  | inl IOMMUFD_OBJ_IOAS => inl None
  | inl IOMMUFD_OBJ_HW_PAGETABLE =>
      (* pt_id points HWPT only when hwpt_type is
         !IOMMU_HWPT_TYPE_DEFAULT *)
      if ha_hwpt_type cmd =? IOMMU_HWPT_TYPE_DEFAULT then inr EINVAL
      else
        match objs w !! ha_pt_id cmd with
        | None => inr EINVAL
        | Some parent =>
            if auto_domain parent || bool_decide (hwpt_parent parent ≠ None)
            then inr EINVAL
            else inl (Some (ha_pt_id cmd))
        end
  | inl IOMMUFD_OBJ_OTHER => inr EINVAL
  end.

(** The copy of the user data that [iommufd_hwpt_alloc] makes: whether
    there is any ([data != NULL]), or the error. *)
Definition hwpt_alloc_data (env : ucmd_env) (cmd : iommu_hwpt_alloc)
  : bool + errno :=
  let klen :=
    if negb (ha_hwpt_type cmd =? IOMMU_HWPT_TYPE_DEFAULT) then
      match domain_alloc_user_data_len env with
      | Some len => len (ha_hwpt_type cmd)
      | None => 0
      end
    else 0 in
  if klen =? 0 then inl false
  else if ha_data_len cmd =? 0 then inr EINVAL
  else if negb (kzalloc_data env) then inr ENOMEM
  else
    match copy_struct_from_user env klen (ha_data_uptr cmd)
            (ha_data_len cmd) with
    | Failure e => inr e
    | Success => inl true
    end.

(** [iommufd_hwpt_alloc(ucmd)]; the last component is
    [cmd->out_hwpt_id] when it has been set. *)
Definition iommufd_hwpt_alloc (env : ucmd_env) (pf : platform)
    (cmd : iommu_hwpt_alloc) (w : world) : world * rc * option nat :=
  if negb (ha_flags cmd =? 0) || negb (ha_reserved cmd =? 0)
  then (w, Failure EOPNOTSUPP, None)
  else
    match iommufd_get_device env (ha_dev_id cmd) with
    | inr e => (w, Failure e, None)
    | inl idev =>
        let nondefault :=
          negb (ha_hwpt_type cmd =? IOMMU_HWPT_TYPE_DEFAULT) in
        if nondefault
           && negb (Z.testbit (hwpt_type_bitmap env) (ha_hwpt_type cmd))
        then (w, Failure EINVAL, None)
        else if nondefault
                && negb (bool_decide
                           (is_Some (domain_alloc_user_data_len env)))
        then (w, Failure EOPNOTSUPP, None)
        else
          match hwpt_alloc_parent env cmd w with
          | inr e => (w, Failure e, None)
          | inl parent =>
              match hwpt_alloc_data env cmd with
              | inr e => (w, Failure e, None)
              | inl data =>
                  match iommufd_hw_pagetable_alloc pf idev parent data
                          false w with
                  | (w', Failure e, _) => (w', Failure e, None)
                  | (w', Success, None) => (w', Failure EINVAL, None)
                  | (w', Success, Some id) =>
                      match iommufd_ucmd_respond env with
                      | Failure e =>
                          (* out_hwpt *)
                          (iommufd_object_abort_and_destroy id w',
                           Failure e, Some id)
                      | Success =>
                          (iommufd_object_finalize id w', Success, Some id)
                      end
                  end
              end
          end
    end.

(** [iommufd_hwpt_invalidate(ucmd)]: the result, and the domain whose
    driver was asked to invalidate, if it was.  [iommufd_get_hwpt] is
    declared in a header that is not part of the sources: it is taken as
    the lookup of the object table, which fails with the error of the
    table or, for an ID that is not a hardware page table, with ENOENT.
    A hardware page table that can be looked up has a domain; one without
    is refused here, where the C code would dereference it. *)
Definition iommufd_hwpt_invalidate (env : ucmd_env)
    (cmd : iommu_hwpt_invalidate) (w : world) : rc * option nat :=
  if (hi_data_len cmd =? 0) || negb (hi_reserved cmd =? 0)
  then (Failure EOPNOTSUPP, None)
  else
    match iommufd_get_object env (hi_hwpt_id cmd),
          objs w !! hi_hwpt_id cmd with
    | inr e, _ => (Failure e, None)
    | inl IOMMUFD_OBJ_HW_PAGETABLE, Some hwpt =>
        (* Do not allow any kernel-managed hw_pagetable *)
        if negb (bool_decide (is_Some (hwpt_parent hwpt)))
        then (Failure EINVAL, None)
        else
          match hwpt_domain hwpt with
          | None => (Failure EINVAL, None)
          | Some d =>
              let klen := cache_invalidate_user_data_len env d in
              match cache_invalidate_user env d with
              | None => (Failure EOPNOTSUPP, None)
              | Some drv_rc =>
                  if klen =? 0 then (Failure EOPNOTSUPP, None)
                  else
                    match copy_struct_from_user env klen
                            (hi_data_uptr cmd) (hi_data_len cmd) with
                    | Failure e => (Failure e, None)
                    | Success => (drv_rc, Some d)
                    end
              end
          end
    | inl _, _ => (Failure ENOENT, None)
    end.

(** *** iommufd_device_attach *)

(** [iommufd_device_attach(idev, pt_id)]: the result, the value of
    [*pt_id] on return, and the reference count of the device object,
    which is [idev_users] before the call. *)
Definition iommufd_device_attach (env : ucmd_env) (pf : platform)
    (idev : iommufd_device) (idev_users : Z) (pt_id : nat) (w : world)
  : world * rc * nat * Z :=
  match iommufd_get_object env pt_id with
  | inr e => (w, Failure e, pt_id, idev_users)
  | inl IOMMUFD_OBJ_HW_PAGETABLE =>
      match iommufd_hw_pagetable_attach pf pt_id idev w with
      | (w', Failure e) => (w', Failure e, pt_id, idev_users)
      | (w', Success) => (w', Success, pt_id, idev_users + 1)
      end
  | inl IOMMUFD_OBJ_IOAS =>
      match iommufd_device_auto_get_domain pf idev pt_id w with
      | (w', Failure e, pt_id') => (w', Failure e, pt_id', idev_users)
      | (w', Success, pt_id') => (w', Success, pt_id', idev_users + 1)
      end
  | inl IOMMUFD_OBJ_OTHER => (w, Failure EINVAL, pt_id, idev_users)
  end.

(** *** Creating and destroying an access *)

(** Modelled from the spec: [iopt_add_access] (io_pagetable.c is not part
    of the sources): the registration of an access with the accessor set
    of the table, which may fail and then changes nothing.  The set has
    no order of its own: the registration decides where the walk of
    [iommufd_access_notify_unmap] meets the new access, and [place] is
    that decision; an access registered before keeps its place relative
    to the others. *)
Definition iopt_add_access (result : rc) (place : nat) (iopt : io_pagetable)
    (access : iommufd_access) : io_pagetable * rc :=
  match result with
  | Failure e => (iopt, Failure e)
  | Success =>
      (set_access_list iopt
         (take place (access_list iopt)
          ++ access :: drop place (access_list iopt)),
       Success)
  end.

(** Modelled from the spec: [iopt_remove_access]: the deregistration of
    the access at position [i] of the accessor set. *)
Definition iopt_remove_access (iopt : io_pagetable) (i : nat)
  : io_pagetable :=
  set_access_list iopt (delete i (access_list iopt)).

(** [iommufd_access_create(ictx, ioas_id, ops, data)]: the position of
    the new access in the accessor set of the IOAS, or an error; [ctx] is
    the reference count of the context.  [iommufd_ref_to_users], of a
    header that is not part of the sources, turns the reference of the
    lookup into a reference on [users], the one that [out_put_ioas] and
    [iommufd_access_destroy_object] drop. *)
Definition iommufd_access_create (env : access_env)
    (ops : iommufd_access_ops) (data_v : Z) (w : world) (ctx : Z)
  : world * Z * (nat + errno) :=
  match object_alloc_access env with
  | Some e => (w, ctx, inr e)
  | None =>
      match get_ioas env with
      | Some e => (* out_abort *) (w, ctx, inr e)
      | None =>
          (* iommufd_ref_to_users(obj) *)
          let w1 := set_ioas_users w (ioas_users w + 1) in
          let access :=
            {| data := data_v;
               iova_alignment := if needs_pin_pages ops then PAGE_SIZE else 1;
               ops_unmap := unmap ops;
               obj_lockable := false |} in
          match iopt_add_access (iopt_add_access_rc env)
                  (iopt_add_access_place env) (ioas_iopt w1) access with
          | (_, Failure e) =>
              (* out_put_ioas *)
              (set_ioas_users w1 (ioas_users w1 - 1), ctx, inr e)
          | (iopt', Success) =>
              let i :=
                length (take (iopt_add_access_place env)
                          (access_list (ioas_iopt w1))) in
              (* iommufd_object_finalize *)
              let iopt'' :=
                set_access_list iopt'
                  (alter (λ a, set_obj_lockable a true) i
                     (access_list iopt')) in
              (set_iopt w1 iopt'', ctx + 1, inl i)
          end
      end
  end.

(** [iommufd_access_destroy_object], for the access at position [i]. *)
Definition iommufd_access_destroy_object (i : nat) (w : world) (ctx : Z)
  : world * Z :=
  let w1 := set_iopt w (iopt_remove_access (ioas_iopt w) i) in
  (set_ioas_users w1 (ioas_users w1 - 1), ctx - 1).
Lemma iter_from_succ_length l i start last c :
  iter_from l i start last = Some c → (length (c_succ c) < length l)%nat.
Proof.
  revert i. induction l as [|a l IH]; intros i H; simpl in *; [done|].
  destruct (intersects a start last).
  - inversion H; subst; simpl. lia.
  - apply IH in H. lia.
Qed.

Lemma walk_list_iter_from l i last cur :
  walk_list l i last cur =
  match iter_from l i cur last with
  | None => []
  | Some c' =>
      if negb (cur =? iopt_area_iova (c_area c')) || negb (has_pages c')
      then []
      else (cur, c') :: tail_walk c' last
  end.
Proof.
  revert i. induction l as [|a l IH]; intros i; simpl; [done|].
  destruct (intersects a cur last); [|apply IH].
  unfold has_pages, iopt_area_iova, tail_walk; simpl.
  destruct (cur =? node_start a); simpl; [|done].
  destruct (pages a); simpl; done.
Qed.

Lemma contig_final_cons iova last step step' tl :
  contig_final iova last (step :: step' :: tl)
  = contig_final (node_last (c_area step.2) + 1) last (step' :: tl).
Proof.
  unfold contig_final. rewrite last_cons_cons, last_cons.
  by destruct (list.last tl).
Qed.

Lemma for_each_contig_spec {St E : Type} (fuel : nat)
    (body : iopt_area_contig_iter → cursor → St → St * option E)
    (iter : iopt_area_contig_iter) (c : cursor) (s : St) :
  area iter = Some c →
  (length (c_succ c) < fuel)%nat →
  for_each_contig fuel body iter (Some c) s
  = loop_result body (cur_iova iter) (last_iova iter)
      ((cur_iova iter, c) :: tail_walk c (last_iova iter)) s.
Proof.
  revert iter c s.
  induction fuel as [|f IH]; intros iter c s Harea Hfuel; [lia|].
  destruct iter as [cur last ar]; simpl in Harea; subst ar.
  cbn [for_each_contig cur_iova last_iova].
  unfold loop_result. cbn [run_steps]. unfold iter_at at 1. cbn [fst snd].
  destruct (body _ c s) as [s' [e|]]; [done|].
  unfold iopt_area_contig_next, tail_walk. cbn [area last_iova cur_iova].
  unfold iopt_area_last_iova.
  destruct (last <=? node_last (c_area c)) eqn:Hlast.
  { destruct f; cbn [for_each_contig run_steps];
      unfold contig_final; cbn; by rewrite Hlast. }
  unfold iopt_area_iter_next. rewrite walk_list_iter_from.
  destruct (iter_from _ _ _ _) as [c'|] eqn:Hnext.
  2:{ destruct f; cbn [for_each_contig run_steps];
        unfold contig_final; cbn; by rewrite Hlast. }
  destruct (negb _ || negb _) eqn:Hok.
  { destruct f; cbn [for_each_contig run_steps];
      unfold contig_final; cbn; by rewrite Hlast. }
  apply iter_from_succ_length in Hnext.
  rewrite IH; [|done|lia].
  cbn [cur_iova last_iova]. unfold loop_result.
  destruct (run_steps _ _ _ _) as [s'' [[step e]|]]; [done|].
  by rewrite contig_final_cons.
Qed.

Lemma iopt_for_each_contig_area_spec {St E : Type} (iopt : io_pagetable)
    (iova last : Z)
    (body : iopt_area_contig_iter → cursor → St → St * option E) (s : St) :
  iopt_for_each_contig_area iopt iova last body s
  = loop_result body iova last (contig_areas iopt iova last) s.
Proof.
  unfold iopt_for_each_contig_area, iopt_area_contig_init, contig_areas.
  unfold iopt_area_iter_first.
  destruct (iter_from _ _ _ _) as [c|] eqn:Hc; [|done].
  destruct (has_pages c); [|done].
  apply iter_from_succ_length in Hc.
  rewrite for_each_contig_spec; [done|done|lia].
Qed.

Lemma intersects_spec a start last :
  intersects a start last = true ↔ node_start a ≤ last ∧ start ≤ node_last a.
Proof. unfold intersects. rewrite andb_true_iff, !Z.leb_le. done. Qed.

Lemma walk_list_chain l i last cur :
  walk_list l i last cur = [] ∨
  (chain last (walk_list l i last cur) ∧
   ∃ c tl, walk_list l i last cur = (cur, c) :: tl).
Proof.
  revert i cur. induction l as [|a l IH]; intros i cur; simpl; [by left|].
  destruct (intersects a cur last) eqn:Hi; [|apply IH].
  apply intersects_spec in Hi as [Hs Hl].
  destruct (cur =? node_start a) eqn:Hcur; simpl; [|by left].
  apply Z.eqb_eq in Hcur.
  destruct (pages a) as [p|] eqn:Hp; [|by left].
  right. split; [|eauto].
  destruct (last <=? node_last a) eqn:Hlast.
  { apply chain_one; simpl; unfold has_pages; simpl; try lia.
    by rewrite Hp. }
  apply Z.leb_gt in Hlast.
  destruct (IH (S i) (node_last a + 1)) as [->|[Hch (c' & tl & Heq)]].
  { apply chain_one; simpl; unfold has_pages; simpl; try lia.
    by rewrite Hp. }
  rewrite Heq in Hch |- *.
  apply chain_cons; simpl; unfold has_pages; simpl; try lia; try done.
  by rewrite Hp.
Qed.

Lemma contig_areas_chain iopt iova last :
  contig_areas iopt iova last = [] ∨
  (chain last (contig_areas iopt iova last) ∧
   ∃ c tl, contig_areas iopt iova last = (iova, c) :: tl).
Proof.
  unfold contig_areas, iopt_area_iter_first.
  destruct (iter_from _ _ _ _) as [c|] eqn:Hc; [|by left].
  destruct (has_pages c) eqn:Hp; [|by left].
  right. split; [|eauto].
  assert (node_start (c_area c) ≤ iova ∧ iova ≤ node_last (c_area c))
    as [Hs Hl].
  { clear Hp. revert Hc. generalize 0%nat.
    induction (areas iopt) as [|a l IH]; intros i H; simpl in H; [done|].
    destruct (intersects a iova iova) eqn:Hi; [|by eapply IH].
    apply intersects_spec in Hi. by inversion H; subst. }
  unfold tail_walk.
  destruct (last <=? node_last (c_area c)) eqn:Hlast.
  { by apply chain_one. }
  apply Z.leb_gt in Hlast.
  destruct (walk_list_chain (c_succ c) (S (c_index c)) last
              (node_last (c_area c) + 1)) as [->|[Hch (c' & tl & Heq)]].
  { by apply chain_one. }
  rewrite Heq in Hch |- *. by apply chain_cons.
Qed.

Lemma chain_bounds last steps :
  chain last steps →
  ∀ step0 tl, steps = step0 :: tl →
  ∀ step, step ∈ steps →
    step0.1 ≤ step.1 ∧ node_start (c_area step.2) ≤ step.1
    ∧ step.1 ≤ node_last (c_area step.2) ∧ has_pages step.2 = true.
Proof.
  induction 1 as [s Hs Hl Hp|s s' tl Hs Hl Hp Hlt Hadj Hch IH];
    intros step0 tl0 Heq step Hin; inversion Heq; subst.
  - apply list_elem_of_singleton in Hin as ->. repeat split; try done; lia.
  - apply elem_of_cons in Hin as [->|Hin]; [repeat split; try done; lia|].
    destruct (IH s' tl eq_refl step Hin) as (? & ? & ? & ?).
    repeat split; try done; lia.
Qed.

Ltac chain_tail Hch :=
  simpl in Hch; inversion Hch; subst;
  [ match goal with H : [] = ?pre ++ _ :: _ |- _ => by destruct pre end
  | match goal with
    | H : ?s :: ?tl = ?pre ++ _, H' : chain _ (?s :: ?tl) |- _ =>
        rewrite H in H'
    end ].

Lemma chain_not_last last pre step post :
  chain last (pre ++ step :: post) → post ≠ [] →
  node_last (c_area step.2) < last.
Proof.
  revert step post. induction pre as [|p pre IH]; intros step post Hch Hne.
  - simpl in Hch. inversion Hch; subst; done.
  - chain_tail Hch. by eapply IH.
Qed.

Lemma chain_adjacent last pre step step' post :
  chain last (pre ++ step :: step' :: post) →
  step'.1 = node_last (c_area step.2) + 1.
Proof.
  revert step step' post.
  induction pre as [|p pre IH]; intros step step' post Hch.
  - simpl in Hch. by inversion Hch; subst.
  - chain_tail Hch. by eapply IH.
Qed.


Lemma walk_list_bounds l i last cur step :
  step ∈ walk_list l i last cur →
  cur ≤ step.1 ∧ step.1 ≤ node_last (c_area step.2).
Proof.
  intros Hin.
  destruct (walk_list_chain l i last cur) as [Hnil|[Hch (c & tl & Heq)]].
  { rewrite Hnil in Hin. by apply elem_of_nil in Hin. }
  destruct (chain_bounds _ _ Hch _ _ Heq step Hin) as (? & ? & ? & ?).
  simpl in *. lia.
Qed.

(** Unwinding walks again over the areas already visited: a walk cut at
    the end of one of its areas visits the same areas up to that one. *)
Lemma walk_list_prefix l i last cur pre step post :
  walk_list l i last cur = pre ++ step :: post →
  node_last (c_area step.2) < last →
  walk_list l i (node_last (c_area step.2)) cur = pre ++ [step].
Proof.
  revert i cur pre.
  induction l as [|a l IH]; intros i cur pre Heq Hlt; simpl in *.
  { by destruct pre. }
  destruct (intersects a cur last) eqn:Hi.
  2:{ assert (intersects a cur (node_last (c_area step.2)) = false) as ->.
      { apply not_true_is_false. intros Hi'.
        apply intersects_spec in Hi'.
        assert (intersects a cur last = true) as Hi''
          by (apply intersects_spec; lia).
        congruence. }
      by apply IH. }
  apply intersects_spec in Hi as [Hs Hl].
  destruct ((cur =? node_start a)
            && match pages a with Some _ => true | None => false end) eqn:Hok.
  2:{ by destruct pre. }
  apply andb_true_iff in Hok as [Hcur Hp]. apply Z.eqb_eq in Hcur.
  destruct pre as [|p pre]; simpl in Heq; inversion Heq as [[Hstep Hrest]].
  - simpl.
    assert (intersects a cur (node_last a) = true) as ->
      by (apply intersects_spec; lia).
    rewrite Z.leb_refl. done.
  - destruct (last <=? node_last a) eqn:Hlast; [by destruct pre|].
    assert (step ∈ walk_list l (S i) last (node_last a + 1)) as Hin.
    { rewrite Hrest. apply elem_of_app. right. apply elem_of_cons. by left. }
    apply walk_list_bounds in Hin as [Hb1 Hb2].
    assert (intersects a cur (node_last (c_area step.2)) = true) as ->
      by (apply intersects_spec; lia).
    assert ((node_last (c_area step.2) <=? node_last a) = false) as ->
      by (apply Z.leb_gt; lia).
    by rewrite (IH _ _ _ Hrest Hlt).
Qed.

Lemma contig_areas_prefix iopt iova last pre step post :
  contig_areas iopt iova last = pre ++ step :: post →
  node_last (c_area step.2) < last →
  contig_areas iopt iova (node_last (c_area step.2)) = pre ++ [step].
Proof.
  unfold contig_areas.
  destruct (iopt_area_iter_first iopt iova iova) as [c|]; [|by destruct pre].
  destruct (has_pages c); [|by destruct pre].
  intros Heq Hlt.
  destruct pre as [|p pre]; simpl in Heq; inversion Heq as [[Hstep Hrest]].
  - unfold tail_walk. simpl. by rewrite Z.leb_refl.
  - unfold tail_walk in *.
    destruct (last <=? node_last (c_area c)) eqn:Hlast; [by destruct pre|].
    assert (step ∈ walk_list (c_succ c) (S (c_index c)) last
                     (node_last (c_area c) + 1)) as Hin.
    { rewrite Hrest. apply elem_of_app. right. apply elem_of_cons. by left. }
    apply walk_list_bounds in Hin as [Hb1 Hb2].
    assert ((node_last (c_area step.2) <=? node_last (c_area c)) = false) as ->
      by (apply Z.leb_gt; lia).
    by rewrite (walk_list_prefix _ _ _ _ _ _ _ Hrest Hlt).
Qed.

(** ** The pin state under the loops *)

Lemma set_pins_id st : set_pins st (num_accesses st) (access_itree st) = st.
Proof. by destruct st. Qed.

Lemma set_pins_set_pins st n t n' t' :
  set_pins (set_pins st n t) n' t' = set_pins st n' t'.
Proof. done. Qed.

Lemma pin_body_failure iopt last flags iter c s s' e :
  pin_body iopt last flags iter c s = (s', Some e) → s' = s.
Proof.
  unfold pin_body.
  destruct (prevent_access _ || _); [by inversion 1|].
  destruct (negb (check_area_prot _ _)); [by inversion 1|].
  unfold iopt_area_add_access.
  destruct (pages (c_area c)) as [p|]; [|inversion 1; by destruct s].
  destruct (stores iopt !! p) as [ps|]; [|inversion 1; by destruct s].
  destruct (wants_write flags && negb (writable ps));
    [inversion 1; by destruct s|].
  destruct (pages_pin_error _ _ _); inversion 1; by destruct s.
Qed.

Lemma pin_body_success iopt last flags step st out s' :
  pin_body iopt last flags (iter_at last step) step.2 (st, out) = (s', None) →
  ∃ p, pages (c_area step.2) = Some p
       ∧ s' = (set_pins st (num_accesses st ⊎ {[+ c_index step.2 +]})
                 (access_itree st ⊎ {[+ (p, step_range last step) +]}),
               out ++ step_pages last step).
Proof.
  unfold pin_body, step_pages.
  destruct (prevent_access _ || _); [by inversion 1|].
  destruct (negb (check_area_prot _ _)); [by inversion 1|].
  unfold iopt_area_add_access. cbn [fst snd].
  destruct (pages (c_area step.2)) as [p|]; [|by inversion 1].
  destruct (stores iopt !! p) as [ps|]; [|by inversion 1].
  destruct (wants_write flags && negb (writable ps)); [by inversion 1|].
  destruct (pages_pin_error _ _ _); inversion 1.
  exists p. done.
Qed.

Lemma pin_run_success iopt last flags steps st out st' out' :
  run_steps (pin_body iopt last flags) last steps (st, out)
  = ((st', out'), None) →
  st' = set_pins st (num_accesses st ⊎ steps_nums steps)
          (access_itree st ⊎ steps_keys last steps)
  ∧ out' = out ++ concat (step_pages last <$> steps)
  ∧ Forall (λ step, has_pages step.2 = true) steps.
Proof.
  revert st out.
  induction steps as [|step tl IH]; intros st out H; simpl in H.
  { inversion H; subst. unfold steps_nums, steps_keys. simpl.
    rewrite !(right_id_L ∅ (⊎)), set_pins_id, app_nil_r. done. }
  destruct (pin_body _ _ _ _ _ _) as [s1 [e|]] eqn:Hbody; [done|].
  apply pin_body_success in Hbody as (p & Hp & ->).
  apply IH in H as (-> & -> & Hall).
  unfold steps_nums, steps_keys, step_key. simpl. rewrite Hp. simpl.
  rewrite set_pins_set_pins, <-app_assoc.
  split; [|split; [done|]].
  - by rewrite !(assoc_L (⊎)).
  - constructor; [|done]. unfold has_pages. by rewrite Hp.
Qed.

Lemma gmultiset_cancel_mid `{Countable A} (X Y : gmultiset A) (x : A) :
  (X ⊎ ({[+ x +]} ⊎ Y)) ∖ {[+ x +]} = X ⊎ Y.
Proof. multiset_solver. Qed.

Lemma gmultiset_elem_of_mid `{Countable A} (X Y : gmultiset A) (x : A) :
  x ∈ X ⊎ ({[+ x +]} ⊎ Y).
Proof. multiset_solver. Qed.

Lemma unpin_run last steps st n t :
  Forall (λ step, has_pages step.2 = true) steps →
  run_steps (unpin_body last) last steps
    (set_pins st (n ⊎ steps_nums steps) (t ⊎ steps_keys last steps))
  = (set_pins st n t, None).
Proof.
  revert n t. induction steps as [|step tl IH]; intros n t Hall.
  { unfold steps_nums, steps_keys. simpl.
    by rewrite !(right_id_L ∅ (⊎)). }
  inversion Hall as [|? ? Hp Hall']; subst.
  unfold has_pages in Hp.
  destruct (pages (c_area step.2)) as [p|] eqn:Hpages; [|done].
  assert (steps_nums (step :: tl) = {[+ c_index step.2 +]} ⊎ steps_nums tl)
    as -> by done.
  assert (steps_keys last (step :: tl)
          = {[+ (p, step_range last step) +]} ⊎ steps_keys last tl) as ->.
  { unfold steps_keys, step_key. simpl. by rewrite Hpages. }
  cbn [run_steps].
  unfold unpin_body at 1, iopt_area_remove_access.
  cbn [iter_at cur_iova fst snd]. rewrite Hpages.
  fold (step_range last step).
  cbn [access_itree num_accesses set_pins].
  rewrite bool_decide_eq_true_2 by apply gmultiset_elem_of_mid.
  rewrite bool_decide_eq_true_2 by apply gmultiset_elem_of_mid.
  cbn [negb WARN_ON access_itree num_accesses set_pins].
  rewrite !gmultiset_cancel_mid.
  apply (IH n t Hall').
Qed.

Lemma steps_keys_ext last last' steps :
  Forall (λ step : Z * cursor,
            Z.min last (node_last (c_area step.2))
            = Z.min last' (node_last (c_area step.2))) steps →
  steps_keys last steps = steps_keys last' steps.
Proof.
  intros Hall. unfold steps_keys. f_equal.
  induction Hall as [|step tl Hmin Hall IH]; [done|].
  assert (step_key last step = step_key last' step) as Hk.
  { unfold step_key, step_range, iopt_area_last_iova. by rewrite Hmin. }
  cbn. by rewrite Hk, IH.
Qed.

Lemma run_steps_break {St E : Type}
    (body : iopt_area_contig_iter → cursor → St → St * option E)
    last steps s s' step e :
  run_steps body last steps s = (s', Some (step, e)) →
  ∃ pre post s_mid,
    steps = pre ++ step :: post
    ∧ run_steps body last pre s = (s_mid, None)
    ∧ body (iter_at last step) step.2 s_mid = (s', Some e).
Proof.
  revert s. induction steps as [|x tl IH]; intros s H; simpl in H; [done|].
  destruct (body (iter_at last x) x.2 s) as [s1 [e1|]] eqn:Hbody.
  - inversion H; subst. exists [], tl, s. done.
  - apply IH in H as (pre & post & s_mid & -> & Hrun & Hb).
    exists (x :: pre), post, s_mid. simpl. rewrite Hbody. done.
Qed.

Lemma chain_min_prefix last pre sk post :
  chain last (pre ++ sk :: post) →
  node_last (c_area sk.2) ≤ last →
  Forall (λ x : Z * cursor,
            Z.min last (node_last (c_area x.2)) = node_last (c_area x.2))
    (pre ++ [sk]).
Proof.
  intros Hch Hsk. apply Forall_app. split.
  - apply list.Forall_forall. intros x Hx.
    apply list_elem_of_split in Hx as (a & b & ->).
    rewrite <-app_assoc in Hch. simpl in Hch.
    apply chain_not_last in Hch; [lia|]. by destruct b.
  - constructor; [lia|constructor].
Qed.

(** The unwinding loop of [iommufd_access_pin_pages], and the loop of
    [iommufd_access_unpin_pages], take back what the pinning loop added
    over the areas up to [sk]. *)
Lemma unwind_prefix iopt iova last pre sk post st :
  contig_areas iopt iova last = pre ++ sk :: post →
  node_last (c_area sk.2) < last →
  Forall (λ step, has_pages step.2 = true) (pre ++ [sk]) →
  (iopt_for_each_contig_area iopt iova (node_last (c_area sk.2))
     (unpin_body (node_last (c_area sk.2)))
     (set_pins st (num_accesses st ⊎ steps_nums (pre ++ [sk]))
        (access_itree st ⊎ steps_keys last (pre ++ [sk])))).1.2
  = st.
Proof.
  intros HW Hlt Hall.
  rewrite iopt_for_each_contig_area_spec. unfold loop_result.
  pose proof (contig_areas_prefix _ _ _ _ _ _ HW Hlt) as HW2.
  rewrite HW2.
  assert (steps_keys last (pre ++ [sk])
          = steps_keys (node_last (c_area sk.2)) (pre ++ [sk])) as ->.
  { apply steps_keys_ext.
    destruct (contig_areas_chain iopt iova last) as [Hnil|[Hch _]].
    { rewrite HW in Hnil. by destruct pre. }
    destruct (contig_areas_chain iopt iova (node_last (c_area sk.2)))
      as [Hnil|[Hch2 _]].
    { rewrite HW2 in Hnil. by destruct pre. }
    rewrite HW in Hch. rewrite HW2 in Hch2.
    assert (node_last (c_area sk.2) ≤ last) as Hle by lia.
    pose proof (chain_min_prefix _ _ _ _ Hch Hle) as H1.
    change (pre ++ [sk]) with (pre ++ sk :: []) in Hch2.
    pose proof (chain_min_prefix _ _ _ _ Hch2 (Z.le_refl _)) as H2.
    rewrite list.Forall_forall in H1, H2.
    apply list.Forall_forall. intros x Hx.
    by rewrite (H1 x Hx), (H2 x Hx). }
  rewrite unpin_run by done. simpl. apply set_pins_id.
Qed.


Lemma contig_areas_head iopt iova last step tl :
  contig_areas iopt iova last = step :: tl → step.1 = iova.
Proof.
  intros HW.
  destruct (contig_areas_chain iopt iova last) as [Hnil|[_ (c & tl' & Heq)]];
    [congruence|].
  rewrite HW in Heq. by inversion Heq.
Qed.

Lemma contig_areas_snoc_bounds iopt iova last pre sk post :
  contig_areas iopt iova last = pre ++ sk :: post →
  iova ≤ sk.1 ∧ sk.1 ≤ node_last (c_area sk.2).
Proof.
  intros HW.
  destruct (contig_areas_chain iopt iova last)
    as [Hnil|[Hch (c & tl' & Heq)]].
  { rewrite HW in Hnil. by destruct pre. }
  assert (sk ∈ contig_areas iopt iova last) as Hin.
  { rewrite HW. apply elem_of_app. right. apply elem_of_cons. by left. }
  destruct (chain_bounds _ _ Hch _ _ Heq sk Hin) as (? & ? & ? & ?).
  simpl in *. lia.
Qed.

(** After the pinning loop has failed, [err_remove] leaves the pin state
    as it was before the call. *)
Lemma pin_error_state iopt iova last flags st iter st1 out brk :
  iopt_for_each_contig_area iopt iova last (pin_body iopt last flags) (st, [])
  = (iter, (st1, out), brk) →
  brk ≠ None ∨ iopt_area_contig_done iter = false →
  (if iova <? cur_iova iter
   then (iopt_for_each_contig_area iopt iova (cur_iova iter - 1)
           (unpin_body (cur_iova iter - 1)) st1).1.2
   else st1) = st.
Proof.
  rewrite iopt_for_each_contig_area_spec. unfold loop_result.
  destruct (run_steps _ _ _ _) as [[st1' out'] [[step e]|]] eqn:Hrun;
    intros H Hfail; inversion H; subst; clear H.
  - apply run_steps_break in Hrun
      as (pre & post & [st_mid out_mid] & HW & Hpre & Hbody).
    apply pin_body_failure in Hbody. inversion Hbody; subst.
    apply pin_run_success in Hpre as (-> & _ & Hall).
    cbn [iter_at cur_iova fst].
    destruct pre as [|sk pre' _] using rev_ind.
    + simpl in HW. apply contig_areas_head in HW. rewrite HW.
      rewrite Z.ltb_irrefl. unfold steps_nums, steps_keys. simpl.
      by rewrite !(right_id_L ∅ (⊎)), set_pins_id.
    + rewrite <-app_assoc in HW. simpl in HW.
      destruct (contig_areas_chain iopt iova last) as [Hnil|[Hch _]].
      { rewrite HW in Hnil. by destruct pre'. }
      rewrite HW in Hch.
      pose proof (chain_adjacent _ _ _ _ _ Hch) as Hadj.
      pose proof (chain_not_last _ _ _ _ Hch ltac:(done)) as Hlt.
      pose proof (contig_areas_snoc_bounds _ _ _ _ _ _ HW) as [Hb1 Hb2].
      assert ((iova <? step.1) = true) as -> by (apply Z.ltb_lt; lia).
      replace (step.1 - 1) with (node_last (c_area sk.2)) by lia.
      by apply (unwind_prefix _ _ _ _ _ _ _ HW).
  - destruct Hfail as [?|Hdone]; [done|].
    apply pin_run_success in Hrun as (-> & _ & Hall).
    destruct (contig_areas iopt iova last) as [|sk pre' _] eqn:HW
      using rev_ind.
    + unfold contig_final. simpl. rewrite Z.ltb_irrefl.
      unfold steps_nums, steps_keys. simpl.
      by rewrite !(right_id_L ∅ (⊎)), set_pins_id.
    + unfold contig_final in *. rewrite last_snoc in *.
      destruct (last <=? node_last (c_area sk.2)) eqn:Hlast.
      { unfold iopt_area_contig_done, iter_at, iopt_area_last_iova in Hdone.
        simpl in Hdone. congruence. }
      apply Z.leb_gt in Hlast. cbn [cur_iova].
      pose proof (contig_areas_snoc_bounds _ _ _ _ _ _ HW) as [Hb1 Hb2].
      assert ((iova <? node_last (c_area sk.2) + 1) = true) as ->
        by (apply Z.ltb_lt; lia).
      replace (node_last (c_area sk.2) + 1 - 1)
        with (node_last (c_area sk.2)) by lia.
      by apply (unwind_prefix _ _ _ _ _ _ _ HW).
Qed.

(** A failed [iommufd_access_pin_pages] returns the accesses and the
    memory it was called with. *)
Lemma pin_pages_failure_state iopt access iova length flags st st' e out :
  iommufd_access_pin_pages iopt access iova length flags st
  = (st', Failure e, out) →
  num_accesses st' = num_accesses st
  ∧ access_itree st' = access_itree st
  ∧ memory st' = memory st.
Proof.
  intros H.
  unfold iommufd_access_pin_pages in H.
  destruct (CONFIG_IOMMUFD_TEST && _).
  { inversion H; subst. done. }
  destruct (length =? 0); [by inversion H; subst|].
  destruct (check_add_overflow iova (length - 1)) as [overflow last].
  destruct overflow; [by inversion H; subst|].
  destruct (iopt_for_each_contig_area iopt iova last _ _)
    as [[iter [st1 out1]] brk] eqn:Hloop.
  pose proof (pin_error_state _ _ _ _ _ _ _ _ _ Hloop) as Hunwind.
  assert (st' = st) as ->; [|done].
  destruct brk as [e'|].
  - inversion H; subst. rewrite <-Hunwind by (by left).
    destruct (iova <? cur_iova iter); [|done].
    by destruct (iopt_for_each_contig_area iopt iova (cur_iova iter - 1) _ _)
      as [[? ?] ?].
  - destruct (iopt_area_contig_done iter) eqn:Hdone; simpl in H; [done|].
    inversion H; subst. rewrite <-Hunwind by (by right).
    destruct (iova <? cur_iova iter); [|done].
    by destruct (iopt_for_each_contig_area iopt iova (cur_iova iter - 1) _ _)
      as [[? ?] ?].
Qed.


(** ** Cursors and coverage *)

Lemma iter_from_cursor_at l i start last c :
  iter_from l i start last = Some c → cursor_at l i c.
Proof.
  revert i. induction l as [|a l IH]; intros i H; simpl in H; [done|].
  destruct (intersects a start last).
  - inversion H; subst. exists 0%nat. simpl. split; [lia|done].
  - apply IH in H as (k & Hi & Hl & Hs).
    exists (S k). simpl. split; [lia|done].
Qed.

Lemma walk_list_cursor_at l i last cur step :
  step ∈ walk_list l i last cur → cursor_at l i step.2.
Proof.
  revert i cur. induction l as [|a l IH]; intros i cur Hin; simpl in Hin.
  { by apply elem_of_nil in Hin. }
  assert (∀ j cur', step ∈ walk_list l (S j) last cur' →
            i = j → cursor_at (a :: l) i step.2) as Hrec.
  { intros j cur' Hin' ->. apply IH in Hin' as (k & Hi & Hl & Hs).
    exists (S k). simpl. split; [lia|done]. }
  destruct (intersects a cur last); [|by eapply Hrec].
  destruct (_ && _); [|by apply elem_of_nil in Hin].
  apply elem_of_cons in Hin as [->|Hin].
  { exists 0%nat. simpl. split; [lia|done]. }
  destruct (last <=? node_last a); [by apply elem_of_nil in Hin|].
  by eapply Hrec.
Qed.

Lemma cursor_at_succ l c c' :
  cursor_at l 0 c → cursor_at (c_succ c) (S (c_index c)) c' → cursor_at l 0 c'.
Proof.
  intros (k & Hi & Hl & Hs) (k' & Hi' & Hl' & Hs').
  exists (S (k + k')). rewrite Hs in Hl', Hs'.
  rewrite lookup_drop in Hl'. rewrite drop_drop in Hs'.
  split; [lia|]. split; [done|].
  rewrite Hs'. f_equal. lia.
Qed.

Lemma contig_areas_cursor_at iopt iova last step :
  step ∈ contig_areas iopt iova last → cursor_at (areas iopt) 0 step.2.
Proof.
  unfold contig_areas, iopt_area_iter_first.
  destruct (iter_from _ _ _ _) as [c|] eqn:Hc;
    [|intros H; by apply elem_of_nil in H].
  apply iter_from_cursor_at in Hc.
  destruct (has_pages c); [|intros H; by apply elem_of_nil in H].
  intros [->|Hin]%elem_of_cons; [done|].
  unfold tail_walk in Hin.
  destruct (last <=? _); [by apply elem_of_nil in Hin|].
  apply walk_list_cursor_at in Hin. by eapply cursor_at_succ.
Qed.

Lemma chain_cover last steps :
  chain last steps →
  ∀ s0 tl sk, steps = s0 :: tl → list.last steps = Some sk →
  ∀ x, s0.1 ≤ x ≤ node_last (c_area sk.2) →
    ∃ step, step ∈ steps ∧ step.1 ≤ x ≤ node_last (c_area step.2).
Proof.
  induction 1 as [s Hs Hl Hp|s s' tl Hs Hl Hp Hlt Hadj Hch IH];
    intros s0 tl0 sk Heq Hlast x Hx; inversion Heq; subst.
  - simpl in Hlast. inversion Hlast; subst.
    exists sk. split; [apply elem_of_cons; by left|done].
  - destruct (decide (x ≤ node_last (c_area s0.2))) as [Hle|Hgt].
    + exists s0. split; [apply elem_of_cons; by left|lia].
    + rewrite last_cons_cons in Hlast.
      destruct (IH s' tl sk eq_refl Hlast x ltac:(lia)) as (step & Hin & Hb).
      exists step. split; [apply elem_of_cons; by right|done].
Qed.

(** When the walk ends done, the Areas it visited cover the range. *)
Lemma contig_done_visited iopt iova last x :
  iopt_area_contig_done
    (contig_final iova last (contig_areas iopt iova last)) = true →
  iova ≤ x ≤ last →
  ∃ step, step ∈ contig_areas iopt iova last
          ∧ node_start (c_area step.2) ≤ x ≤ node_last (c_area step.2).
Proof.
  intros Hdone Hx.
  destruct (contig_areas_chain iopt iova last)
    as [Hnil|[Hch (c & tl & Heq)]].
  { rewrite Hnil in Hdone. done. }
  unfold contig_final in Hdone.
  destruct (list.last (contig_areas iopt iova last)) as [sk|] eqn:Hlast;
    [|done].
  destruct (last <=? node_last (c_area sk.2)) eqn:Hle; [|done].
  apply Z.leb_le in Hle.
  destruct (chain_cover _ _ Hch _ _ _ Heq Hlast x ltac:(simpl; lia))
    as (step & Hin & Hb).
  exists step. split; [done|].
  destruct (chain_bounds _ _ Hch _ _ Heq step Hin) as (_ & ? & _). lia.
Qed.

Lemma contig_done_covered iopt iova last :
  iopt_area_contig_done
    (contig_final iova last (contig_areas iopt iova last)) = true →
  range_covered iopt iova last.
Proof.
  intros Hdone x Hx.
  destruct (contig_done_visited _ _ _ _ Hdone Hx) as (step & Hin & Hb).
  exists (c_area step.2).
  pose proof (contig_areas_cursor_at _ _ _ _ Hin) as (k & _ & Hl & _).
  split; [by eapply list_elem_of_lookup_2|]. split; [|done].
  destruct (contig_areas_chain iopt iova last)
    as [Hnil|[Hch (c & tl & Heq)]].
  { rewrite Hnil in Hin. by apply elem_of_nil in Hin. }
  destruct (chain_bounds _ _ Hch _ _ Heq step Hin) as (_ & _ & _ & Hp).
  unfold has_pages in Hp. by destruct (pages (c_area step.2)).
Qed.

(** ** Success of the pinning loop *)

Lemma check_add_overflow_no a b :
  0 ≤ a + b → a + b ≤ ULONG_MAX → check_add_overflow a b = (false, a + b).
Proof.
  intros H0 H1. unfold check_add_overflow, ULONG_MAX in *.
  rewrite Z.mod_small by lia.
  f_equal. apply Z.ltb_ge. lia.
Qed.

Lemma check_add_overflow_yes a b :
  ULONG_MAX < a + b → (check_add_overflow a b).1 = true.
Proof. intros H. unfold check_add_overflow. simpl. by apply Z.ltb_lt. Qed.

Lemma pin_pages_success iopt access iova length flags st st1 out :
  iommufd_access_pin_pages iopt access iova length flags st
  = (st1, Success, out) →
  let last := (check_add_overflow iova (length - 1)).2 in
  let steps := contig_areas iopt iova last in
  length ≠ 0
  ∧ (check_add_overflow iova (length - 1)).1 = false
  ∧ run_steps (pin_body iopt last flags) last steps (st, [])
    = ((st1, out), None)
  ∧ iopt_area_contig_done (contig_final iova last steps) = true.
Proof.
  unfold iommufd_access_pin_pages.
  destruct (CONFIG_IOMMUFD_TEST && _); [done|].
  destruct (length =? 0) eqn:Hlen; [done|]. apply Z.eqb_neq in Hlen.
  destruct (check_add_overflow iova (length - 1)) as [overflow last].
  destruct overflow; [done|]. cbn [fst snd].
  rewrite iopt_for_each_contig_area_spec. unfold loop_result.
  destruct (run_steps _ _ _ _) as [[st1' out'] [[step e]|]] eqn:Hrun; [done|].
  destruct (iopt_area_contig_done _) eqn:Hdone; simpl; [|done].
  by inversion 1; subst.
Qed.

Lemma unpin_loop_after_pin iopt iova last flags st st1 out :
  run_steps (pin_body iopt last flags) last (contig_areas iopt iova last)
    (st, []) = ((st1, out), None) →
  iopt_for_each_contig_area iopt iova last (unpin_body last) st1
  = (contig_final iova last (contig_areas iopt iova last), st, None).
Proof.
  intros Hrun. apply pin_run_success in Hrun as (-> & _ & Hall).
  rewrite iopt_for_each_contig_area_spec. unfold loop_result.
  rewrite unpin_run by done. by rewrite set_pins_id.
Qed.


Lemma unpin_run_no_break last steps st :
  ∃ st', run_steps (unpin_body last) last steps st = (st', None).
Proof.
  revert st. induction steps as [|step tl IH]; intros st; simpl; eauto.
Qed.

(** ** The area tree invariant *)

Lemma areas_sorted_lookup bound l k b :
  areas_sorted bound l = true → l !! k = Some b →
  bound < node_start b ∧ node_start b ≤ node_last b.
Proof.
  revert bound k. induction l as [|a l IH]; intros bound k Hs Hk; [done|].
  simpl in Hs. apply andb_true_iff in Hs as [Hs Hrest].
  apply andb_true_iff in Hs as [Hb Hle].
  apply Z.ltb_lt in Hb. apply Z.leb_le in Hle.
  destruct k as [|k]; simpl in Hk.
  - inversion Hk; subst. done.
  - destruct (IH _ _ Hrest Hk). lia.
Qed.

Lemma areas_sorted_pair bound l j k a b :
  areas_sorted bound l = true → l !! j = Some a → l !! k = Some b →
  (j < k)%nat → node_last a < node_start b.
Proof.
  revert bound j k. induction l as [|x l IH]; intros bound j k Hs Hj Hk Hlt;
    [done|].
  simpl in Hs. apply andb_true_iff in Hs as [Hs Hrest].
  destruct k as [|k]; [lia|]. simpl in Hk.
  destruct j as [|j]; simpl in Hj.
  - inversion Hj; subst. by destruct (areas_sorted_lookup _ _ _ _ Hrest Hk).
  - eapply IH; eauto. lia.
Qed.

(** In a well-formed tree an address lies in at most one Area. *)
Lemma wf_area_unique iopt j k a b x :
  iopt_wf iopt = true →
  areas iopt !! j = Some a → areas iopt !! k = Some b →
  node_start a ≤ x ≤ node_last a → node_start b ≤ x ≤ node_last b →
  j = k.
Proof.
  intros Hwf Hj Hk Ha Hb.
  destruct (Nat.lt_trichotomy j k) as [Hlt|[->|Hlt]]; [|done|].
  - pose proof (areas_sorted_pair _ _ _ _ _ _ Hwf Hj Hk Hlt). lia.
  - pose proof (areas_sorted_pair _ _ _ _ _ _ Hwf Hk Hj Hlt). lia.
Qed.

Lemma run_steps_continue {St E : Type}
    (body : iopt_area_contig_iter → cursor → St → St * option E)
    last steps s s' step :
  run_steps body last steps s = (s', None) → step ∈ steps →
  ∃ s0 s1, body (iter_at last step) step.2 s0 = (s1, None).
Proof.
  revert s. induction steps as [|x tl IH]; intros s H Hin; simpl in H.
  { by apply elem_of_nil in Hin. }
  destruct (body (iter_at last x) x.2 s) as [s1 [e|]] eqn:Hbody; [done|].
  apply elem_of_cons in Hin as [->|Hin]; eauto.
Qed.

(** When a walk ends done over a well-formed tree, every Area that
    intersects the range has been visited. *)
Lemma contig_done_visits iopt iova last a x :
  iopt_wf iopt = true →
  iopt_area_contig_done
    (contig_final iova last (contig_areas iopt iova last)) = true →
  a ∈ areas iopt → iova ≤ x ≤ last → node_start a ≤ x ≤ node_last a →
  ∃ step, step ∈ contig_areas iopt iova last ∧ c_area step.2 = a.
Proof.
  intros Hwf Hdone Ha Hx Hxa.
  destruct (contig_done_visited _ _ _ _ Hdone Hx) as (step & Hin & Hb).
  exists step. split; [done|].
  pose proof (contig_areas_cursor_at _ _ _ _ Hin) as (k & _ & Hl & _).
  apply list_elem_of_lookup in Ha as (j & Hj).
  assert (k = j) as -> by (by eapply wf_area_unique).
  congruence.
Qed.

Lemma pin_body_continue iopt last flags iter c s s' :
  pin_body iopt last flags iter c s = (s', None) →
  prevent_access (c_area c) = false.
Proof.
  unfold pin_body.
  destruct (prevent_access (c_area c)); simpl; [by inversion 1|done].
Qed.

Lemma rw_body_continue iopt last flags iter c s s' :
  rw_body iopt last flags iter c s = (s', None) →
  prevent_access (c_area c) = false.
Proof.
  unfold rw_body. destruct s as [[st buf] off].
  destruct (prevent_access (c_area c)); simpl; [by inversion 1|done].
Qed.

Lemma rw_body_pins iopt last flags iter c st buf off st' buf' off' r :
  rw_body iopt last flags iter c (st, buf, off) = ((st', buf', off'), r) →
  num_accesses st' = num_accesses st ∧ access_itree st' = access_itree st
  ∧ warnings st' = warnings st.
Proof.
  unfold rw_body.
  destruct (prevent_access (c_area c)); [by inversion 1|].
  destruct (negb (check_area_prot _ _)); [by inversion 1|].
  unfold iopt_pages_rw_access.
  destruct (pages (c_area c)) as [p|]; [|by inversion 1].
  destruct (stores iopt !! p) as [ps|]; [|by inversion 1].
  destruct (wants_write flags && negb (writable ps)); [by inversion 1|].
  destruct (pages_pin_error _ _ _); [by inversion 1|].
  destruct (wants_write flags); by inversion 1.
Qed.

Lemma rw_run_pins iopt last flags steps st buf off st' buf' off' r :
  run_steps (rw_body iopt last flags) last steps (st, buf, off)
  = ((st', buf', off'), r) →
  num_accesses st' = num_accesses st ∧ access_itree st' = access_itree st
  ∧ warnings st' = warnings st.
Proof.
  revert st buf off.
  induction steps as [|step tl IH]; intros st buf off H;
    cbn [run_steps] in H.
  { by inversion H; subst. }
  destruct (rw_body _ _ _ _ _ _) as [[[st1 buf1] off1] [e|]] eqn:Hbody.
  - inversion H; subst. by eapply rw_body_pins.
  - apply rw_body_pins in Hbody as (Hn & Ht & Hw).
    apply IH in H as (-> & -> & ->). done.
Qed.

(** [iommufd_access_rw] leaves no access behind. *)
Lemma rw_pins iopt iova buf length flags st :
  let st' := (iommufd_access_rw iopt iova buf length flags st).1.1 in
  num_accesses st' = num_accesses st ∧ access_itree st' = access_itree st
  ∧ warnings st' = warnings st.
Proof.
  unfold iommufd_access_rw.
  destruct (length =? 0); [done|].
  destruct (check_add_overflow iova (length - 1)) as [overflow last].
  destruct overflow; [done|].
  rewrite iopt_for_each_contig_area_spec. unfold loop_result.
  destruct (run_steps _ _ _ _) as [[[st1 buf1] off1] r] eqn:Hrun.
  apply rw_run_pins in Hrun.
  destruct r as [[step e]|]; [done|].
  by destruct (negb _).
Qed.

Lemma rw_success iopt iova buf length flags st st1 buf1 :
  iommufd_access_rw iopt iova buf length flags st = (st1, Success, buf1) →
  let last := (check_add_overflow iova (length - 1)).2 in
  let steps := contig_areas iopt iova last in
  length ≠ 0
  ∧ (check_add_overflow iova (length - 1)).1 = false
  ∧ (∃ off1, run_steps (rw_body iopt last flags) last steps (st, buf, 0)
             = ((st1, buf1, off1), None))
  ∧ iopt_area_contig_done (contig_final iova last steps) = true.
Proof.
  unfold iommufd_access_rw.
  destruct (length =? 0) eqn:Hlen; [done|]. apply Z.eqb_neq in Hlen.
  destruct (check_add_overflow iova (length - 1)) as [overflow last].
  destruct overflow; [done|]. cbn [fst snd].
  rewrite iopt_for_each_contig_area_spec. unfold loop_result.
  destruct (run_steps _ _ _ _) as [[[st1' buf1'] off1] [[step e]|]] eqn:Hrun;
    [done|].
  destruct (iopt_area_contig_done _) eqn:Hdone; simpl; [|done].
  inversion 1; subst. eauto.
Qed.

(** ** Verdicts *)

Lemma run_steps_verdict {St : Type}
    (body : iopt_area_contig_iter → cursor → St → St * option errno)
    (verdict : Z * cursor → option errno) last steps s :
  (∀ step s, (body (iter_at last step) step.2 s).2 = verdict step) →
  snd <$> (run_steps body last steps s).2 = first_error verdict steps.
Proof.
  intros Hv. revert s.
  induction steps as [|step tl IH]; intros s; cbn [run_steps first_error];
    [done|].
  specialize (Hv step s).
  destruct (body (iter_at last step) step.2 s) as [s' [e|]]; simpl in Hv;
    rewrite <-Hv; [done|apply IH].
Qed.

Lemma pin_body_verdict iopt last flags step s :
  (pin_body iopt last flags (iter_at last step) step.2 s).2
  = pin_verdict iopt last flags step.
Proof.
  unfold pin_body, pin_verdict.
  destruct (prevent_access _ || _); [done|].
  destruct (negb (check_area_prot _ _)); [done|].
  unfold iopt_area_add_access, store_error, step_range.
  cbn [iter_at cur_iova fst snd].
  destruct (pages (c_area step.2)) as [p|]; [|done].
  destruct (stores iopt !! p) as [ps|]; [|done].
  destruct (wants_write flags && negb (writable ps)); [done|].
  by destruct (pages_pin_error _ _ _).
Qed.

Lemma rw_body_verdict iopt last flags step s :
  (rw_body iopt last flags (iter_at last step) step.2 s).2
  = rw_verdict iopt last flags step.
Proof.
  unfold rw_body, rw_verdict. destruct s as [[st buf] off].
  destruct (prevent_access _); [done|].
  destruct (negb (check_area_prot _ _)); [done|].
  unfold iopt_pages_rw_access, store_error, step_range.
  unfold iopt_area_iova_to_index, iopt_area_start_byte.
  cbn [iter_at cur_iova fst snd].
  replace (step.1 - iopt_area_iova (c_area step.2)
           + store_offset (c_area step.2)
           + (Z.min last (iopt_area_last_iova (c_area step.2)) - step.1 + 1)
           - 1)
    with (Z.min last (iopt_area_last_iova (c_area step.2))
          - iopt_area_iova (c_area step.2) + store_offset (c_area step.2))
    by lia.
  destruct (pages (c_area step.2)) as [p|]; [|done].
  destruct (stores iopt !! p) as [ps|]; [|done].
  destruct (wants_write flags && negb (writable ps)); [done|].
  destruct (pages_pin_error _ _ _); [done|].
  by destruct (wants_write flags).
Qed.

(** The return code of [iommufd_access_pin_pages]. *)
Lemma pin_pages_rc iopt access iova length flags st :
  (iommufd_access_pin_pages iopt access iova length flags st).1.2
  = if negb (pin_ops_ok access) then Failure EINVAL
    else if length =? 0 then Failure EINVAL
    else
      let '(overflow, last) := check_add_overflow iova (length - 1) in
      if overflow then Failure EOVERFLOW
      else
        match first_error (pin_verdict iopt last flags)
                (contig_areas iopt iova last) with
        | Some e => Failure e
        | None =>
            if iopt_area_contig_done
                 (contig_final iova last (contig_areas iopt iova last))
            then Success else Failure ENOENT
        end.
Proof.
  unfold iommufd_access_pin_pages, pin_ops_ok. rewrite negb_involutive.
  destruct (CONFIG_IOMMUFD_TEST && _); [done|].
  destruct (length =? 0); [done|].
  destruct (check_add_overflow iova (length - 1)) as [overflow last].
  destruct overflow; [done|].
  rewrite iopt_for_each_contig_area_spec. unfold loop_result.
  rewrite <-(run_steps_verdict (pin_body iopt last flags) _ last _ (st, []))
    by apply pin_body_verdict.
  destruct (run_steps _ _ _ _) as [[st1 out1] [[step e]|]]; [done|].
  simpl. by destruct (iopt_area_contig_done _).
Qed.

(** The return code of [iommufd_access_rw]. *)
Lemma rw_rc iopt iova buf length flags st :
  (iommufd_access_rw iopt iova buf length flags st).1.2
  = if length =? 0 then Failure EINVAL
    else
      let '(overflow, last) := check_add_overflow iova (length - 1) in
      if overflow then Failure EOVERFLOW
      else
        match first_error (rw_verdict iopt last flags)
                (contig_areas iopt iova last) with
        | Some e => Failure e
        | None =>
            if iopt_area_contig_done
                 (contig_final iova last (contig_areas iopt iova last))
            then Success else Failure ENOENT
        end.
Proof.
  unfold iommufd_access_rw.
  destruct (length =? 0); [done|].
  destruct (check_add_overflow iova (length - 1)) as [overflow last].
  destruct overflow; [done|].
  rewrite iopt_for_each_contig_area_spec. unfold loop_result.
  rewrite <-(run_steps_verdict (rw_body iopt last flags) _ last _
               (st, buf, 0)) by apply rw_body_verdict.
  destruct (run_steps _ _ _ _) as [[[st1 buf1] off1] [[step e]|]]; [done|].
  simpl. by destruct (iopt_area_contig_done _).
Qed.

Lemma first_error_ext (v1 v2 : Z * cursor → option errno) steps :
  Forall (λ step, v1 step = v2 step) steps →
  first_error v1 steps = first_error v2 steps.
Proof.
  induction 1 as [|step tl Hv Hall IH]; simpl; [done|].
  rewrite Hv. by destruct (v2 step).
Qed.

(** ** Coverage implies that the walk ends done *)

Lemma areas_sorted_elem bound l b :
  areas_sorted bound l = true → b ∈ l →
  bound < node_start b ∧ node_start b ≤ node_last b.
Proof.
  intros Hs (k & Hk)%list_elem_of_lookup. by eapply areas_sorted_lookup.
Qed.

Lemma walk_list_done l i last cur :
  areas_sorted (cur - 1) l = true → cur ≤ last → covered_by l cur last →
  ∃ sk, list.last (walk_list l i last cur) = Some sk
        ∧ last ≤ node_last (c_area sk.2).
Proof.
  revert i cur. induction l as [|a l IH]; intros i cur Hs Hle Hcov.
  { destruct (Hcov cur ltac:(lia)) as (b & Hb & _).
    by apply elem_of_nil in Hb. }
  simpl in Hs. apply andb_true_iff in Hs as [Hs Hrest].
  apply andb_true_iff in Hs as [Hb Hal].
  apply Z.ltb_lt in Hb. apply Z.leb_le in Hal.
  assert (node_start a = cur ∧ pages a ≠ None) as [Hstart Hp].
  { destruct (Hcov cur ltac:(lia)) as (b & Hin & Hpb & Hxb).
    apply elem_of_cons in Hin as [->|Hin]; [split; [lia|done]|].
    destruct (areas_sorted_elem _ _ _ Hrest Hin). lia. }
  simpl.
  assert (intersects a cur last = true) as ->
    by (apply intersects_spec; lia).
  assert ((cur =? node_start a) = true) as -> by (apply Z.eqb_eq; lia).
  destruct (pages a) as [p|] eqn:Hpa; [|done]. simpl.
  destruct (last <=? node_last a) eqn:Hlast.
  { apply Z.leb_le in Hlast. eexists. split; [done|]. done. }
  apply Z.leb_gt in Hlast.
  destruct (IH (S i) (node_last a + 1)) as (sk & Hsk & Hskl).
  - by replace (node_last a + 1 - 1) with (node_last a) by lia.
  - lia.
  - intros x Hx. destruct (Hcov x ltac:(lia)) as (b & Hin & Hpb & Hxb).
    apply elem_of_cons in Hin as [->|Hin]; [lia|]. eauto.
  - exists sk. split; [|done].
    rewrite last_cons, Hsk. done.
Qed.

Lemma iter_from_sorted bound l i k b s e :
  areas_sorted bound l = true → l !! k = Some b →
  node_start b ≤ s ≤ node_last b → s ≤ e →
  iter_from l i s e
  = Some {| c_index := i + k; c_area := b; c_succ := drop (S k) l |}.
Proof.
  revert bound i k. induction l as [|a l IH]; intros bound i k Hs Hk Hb Hse;
    [done|].
  simpl in Hs. apply andb_true_iff in Hs as [Hs Hrest].
  destruct k as [|k]; simpl in Hk.
  - inversion Hk; subst. simpl.
    assert (intersects b s e = true) as -> by (apply intersects_spec; lia).
    do 2 f_equal. lia.
  - destruct (areas_sorted_lookup _ _ _ _ Hrest Hk) as [Hlt _].
    simpl.
    assert (intersects a s e = false) as ->.
    { apply not_true_is_false. intros [? ?]%intersects_spec. lia. }
    rewrite (IH _ (S i) k Hrest Hk Hb Hse). do 2 f_equal. lia.
Qed.

Lemma areas_sorted_drop bound l k b :
  areas_sorted bound l = true → l !! k = Some b →
  areas_sorted (node_last b) (drop (S k) l) = true.
Proof.
  revert bound k. induction l as [|a l IH]; intros bound k Hs Hk; [done|].
  simpl in Hs. apply andb_true_iff in Hs as [Hs Hrest].
  destruct k as [|k]; simpl in Hk.
  - inversion Hk; subst. done.
  - simpl. by eapply IH.
Qed.

Lemma covered_contig_done iopt iova last :
  iopt_wf iopt = true → iova ≤ last → range_covered iopt iova last →
  iopt_area_contig_done
    (contig_final iova last (contig_areas iopt iova last)) = true.
Proof.
  intros Hwf Hle Hcov. unfold iopt_wf in Hwf.
  destruct (Hcov iova ltac:(lia)) as (b & Hin & Hpb & Hxb).
  apply list_elem_of_lookup in Hin as (k & Hk).
  unfold contig_areas, iopt_area_iter_first.
  rewrite (iter_from_sorted _ _ 0 k b iova iova Hwf Hk Hxb ltac:(lia)).
  unfold has_pages. cbn [c_area].
  destruct (pages b) as [p|] eqn:Hp; [|done].
  unfold tail_walk. cbn [c_area c_succ c_index].
  destruct (last <=? node_last b) eqn:Hlast.
  { unfold contig_final, iopt_area_contig_done, iopt_area_last_iova. simpl.
    by rewrite Hlast. }
  apply Z.leb_gt in Hlast.
  destruct (walk_list_done (drop (S k) (areas iopt)) (S (0 + k)) last
              (node_last b + 1)) as (sk & Hsk & Hskl).
  - replace (node_last b + 1 - 1) with (node_last b) by lia.
    by eapply areas_sorted_drop.
  - lia.
  - intros x Hx. destruct (Hcov x ltac:(lia)) as (b' & Hin' & Hpb' & Hxb').
    exists b'. split; [|done].
    apply list_elem_of_lookup in Hin' as (j & Hj).
    destruct (decide (j ≤ k)%nat) as [Hjk|Hjk].
    + destruct (decide (j = k)) as [->|Hne].
      { assert (b' = b) as -> by congruence. lia. }
      pose proof (areas_sorted_pair _ _ j k _ _ Hwf Hj Hk ltac:(lia)).
      destruct (areas_sorted_lookup _ _ _ _ Hwf Hk). lia.
    + apply list_elem_of_lookup. exists (j - S k)%nat.
      rewrite lookup_drop. rewrite <-Hj. f_equal. lia.
  - unfold contig_final. rewrite last_cons, Hsk.
    apply Z.leb_le in Hskl. rewrite Hskl.
    unfold iopt_area_contig_done, iter_at, iopt_area_last_iova. simpl.
    done.
Qed.

(** ** Reserved regions *)

Lemma set_reserved_id iopt : set_reserved iopt (reserved iopt) = iopt.
Proof. by destruct iopt. Qed.

Lemma reserve_regions_spec iopt owner regions sw iopt' sw' r :
  reserve_regions iopt owner regions sw = (iopt', sw', r) →
  ∃ news, iopt' = set_reserved iopt (reserved iopt ++ news)
          ∧ Forall (λ x, resv_owner x = owner) news.
Proof.
  revert iopt sw. induction regions as [|x tl IH]; intros iopt sw H;
    simpl in H.
  { inversion H; subst. exists []. rewrite app_nil_r, set_reserved_id. done. }
  unfold iopt_reserve_iova in H.
  destruct (existsb _ _).
  { inversion H; subst. exists []. rewrite app_nil_r, set_reserved_id. done. }
  apply IH in H as (news & -> & Hall). simpl.
  eexists (_ :: news). unfold set_reserved. simpl.
  rewrite <-app_assoc. split; [done|]. by constructor.
Qed.

Lemma remove_reserved_added iopt owner news :
  owns_nothing iopt owner →
  Forall (λ x, resv_owner x = owner) news →
  iopt_remove_reserved_iova (set_reserved iopt (reserved iopt ++ news)) owner
  = iopt.
Proof.
  intros Hnone Hnews. unfold iopt_remove_reserved_iova, set_reserved. simpl.
  rewrite List.filter_app.
  assert (List.filter (λ r, negb (resv_owner r =? owner)%nat) news = []) as ->.
  { induction Hnews as [|x l Hx Hl IH]; [done|]. simpl.
    apply Nat.eqb_eq in Hx. by rewrite Hx. }
  assert (List.filter (λ r, negb (resv_owner r =? owner)%nat) (reserved iopt)
          = reserved iopt) as ->.
  { induction Hnone as [|x l Hx Hl IH]; [done|]. simpl.
    apply Nat.eqb_neq in Hx. rewrite Hx. simpl. by rewrite IH. }
  rewrite app_nil_r. by destruct iopt.
Qed.

Lemma enforce_dev_resv_regions_spec pf iopt device sw iopt' sw' r :
  owns_nothing iopt device →
  iopt_table_enforce_dev_resv_regions pf iopt device sw = (iopt', sw', r) →
  match r with
  | Failure _ => iopt' = iopt
  | Success =>
      iopt_remove_reserved_iova iopt' device = iopt
      ∧ areas iopt' = areas iopt ∧ domains iopt' = domains iopt
  end.
Proof.
  intros Hnone. unfold iopt_table_enforce_dev_resv_regions.
  destruct (reserve_regions _ _ _ _) as [[iopt1 sw1] r1] eqn:Hres.
  apply reserve_regions_spec in Hres as (news & -> & Hnews).
  destruct r1; inversion 1; subst.
  - split; [by apply remove_reserved_added|done].
  - by apply remove_reserved_added.
Qed.

(** ** Failure of an attach *)

Lemma enforce_cc_binding pf h h' r :
  iommufd_hw_pagetable_enforce_cc pf h = (h', r) →
  hwpt_binding h' = hwpt_binding h.
Proof.
  unfold iommufd_hw_pagetable_enforce_cc.
  destruct (enforce_cache_coherency h); [by inversion 1|].
  destruct (hwpt_domain h) as [d|] eqn:Hd.
  - destruct (drv_enforce_cache_coherency pf d) as [b|];
      destruct (negb _); inversion 1; subst; done.
  - destruct (negb _); inversion 1; subst; done.
Qed.

Lemma setup_msi_binding pf g h h' r :
  iommufd_group_setup_msi pf g h = (h', r) →
  hwpt_binding h' = hwpt_binding h.
Proof.
  unfold iommufd_group_setup_msi.
  destruct (_ && _); [|by inversion 1].
  destruct (hwpt_domain h) as [d|]; [|by inversion 1].
  destruct (iommu_get_msi_cookie pf d _); inversion 1; subst; done.
Qed.






(** ** Filling a domain *)





(** ** Failure of an allocation *)

Lemma binding_set_users h n :
  hwpt_binding (set_hwpt_users h (hwpt_users h + n))
  = bump n (hwpt_binding h).
Proof. done. Qed.






(** ** Automatic domain selection *)

Lemma auto_loop_skipped pf idev l pt_id w w' :
  skipped pf idev l w w' →
  ∀ post, auto_get_domain_loop pf idev (l ++ post) pt_id w
          = auto_get_domain_loop pf idev post pt_id w'.
Proof.
  induction 1 as [w|id tl w w' Hobj _ IH|id tl w w' h Hobj Hauto _ IH
                  |id tl w w' h Hobj Hauto Hlock _ IH
                  |id tl w w1 w' h Hobj Hauto Hlock Hatt _ IH];
    intros post; simpl; [done|..].
  - rewrite Hobj. apply IH.
  - rewrite Hobj, Hauto. apply IH.
  - rewrite Hobj, Hauto, Hlock. apply IH.
  - rewrite Hobj, Hauto, Hlock, Hatt. simpl. apply IH.
Qed.

Lemma attach_success pf id idev w w' :
  iommufd_hw_pagetable_attach pf id idev w = (w', Success) →
  device_list (igroup w') = device_list (igroup w) ++ [dev idev]
  ∧ hwpt_list w' = hwpt_list w
  ∧ ∃ h h', objs w !! id = Some h ∧ objs w' !! id = Some h'
            ∧ hwpt_binding h' = bump 1 (hwpt_binding h).
Proof.
  unfold iommufd_hw_pagetable_attach.
  destruct (objs w !! id) as [hwpt|] eqn:Hobj; [|by inversion 1].
  destruct (match ig_hwpt (igroup w) with Some _ => _ | None => _ end);
    [by inversion 1|].
  destruct (if dev_enforce_cache_coherency idev then _ else _)
    as [hwpt1 rc1] eqn:Hcc.
  assert (hwpt_binding hwpt1 = hwpt_binding hwpt) as Hb1.
  { destruct (dev_enforce_cache_coherency idev).
    - by eapply enforce_cc_binding.
    - by inversion Hcc. }
  destruct rc1; [|by inversion 1].
  cbn [ioas_iopt set_objs igroup].
  destruct (iopt_table_enforce_dev_resv_regions _ _ _ _)
    as [[iopt2 sw] rc2].
  destruct rc2; [|by inversion 1].
  cbn [device_list igroup set_igroup set_iopt set_sw_msi_start].
  destruct (device_list (igroup w)) as [|d0 dl] eqn:Hdl.
  - destruct (iommufd_group_setup_msi _ _ _) as [hwpt3 rc3] eqn:Hmsi.
    pose proof (setup_msi_binding _ _ _ _ _ Hmsi) as Hb3.
    destruct rc3; [|by inversion 1].
    destruct (hwpt_domain hwpt3) as [d|]; [|by inversion 1].
    destruct (iommu_attach_group pf d); inversion 1; subst; simpl.
    rewrite Hdl. repeat (split; [done|]).
    exists hwpt, (set_hwpt_users hwpt3 (hwpt_users hwpt3 + 1)).
    rewrite lookup_alter_eq, insert_insert_eq, lookup_insert_eq. simpl.
    repeat (split; [done|]).
    rewrite binding_set_users. congruence.
  - inversion 1; subst; simpl. rewrite ?Hdl. repeat (split; [done|]).
    exists hwpt, (set_hwpt_users hwpt1 (hwpt_users hwpt1 + 1)).
    rewrite lookup_alter_eq, lookup_insert_eq. simpl.
    repeat (split; [done|]).
    rewrite binding_set_users. congruence.
Qed.

Lemma link_ioas_success pf id w w' :
  iommufd_hw_pagetable_link_ioas pf id w = (w', Success) →
  igroup w' = igroup w ∧ objs w' = objs w
  ∧ (hwpt_list w' = hwpt_list w ++ [id]
     ∨ (hwpt_list w' = hwpt_list w
        ∧ ∃ h, objs w !! id = Some h ∧ hwpt_parent h ≠ None)).
Proof.
  unfold iommufd_hw_pagetable_link_ioas.
  destruct (objs w !! id) as [h|] eqn:Hobj; [|by inversion 1].
  destruct (hwpt_parent h) eqn:Hpar.
  { inversion 1; subst. repeat (split; [done|]). right.
    split; [done|]. exists h. by rewrite Hpar. }
  destruct (hwpt_domain h) as [d|]; [|by inversion 1].
  unfold iopt_table_add_domain.
  destruct (negb (forallb _ _)); [by inversion 1|].
  destruct (fill_areas _ _ _ _) as [[entries' filled] r].
  destruct r; inversion 1; subst; simpl. repeat (split; [done|]). by left.
Qed.

(** A successful allocation for automatic domain selection: the new
    hardware page table is linked to the IOAS and the device is attached
    to it. *)
Lemma alloc_success pf idev w w' o :
  iommufd_hw_pagetable_alloc pf idev None false true w = (w', Success, o) →
  ∃ id h, o = Some id ∧ iommufd_object_alloc pf = Some id
          ∧ objs w' !! id = Some h
          ∧ hwpt_list w' = hwpt_list w ++ [id]
          ∧ device_list (igroup w') = device_list (igroup w) ++ [dev idev].
Proof.
  unfold iommufd_hw_pagetable_alloc. simpl.
  destruct (iommufd_object_alloc pf) as [id|]; [|by inversion 1].
  destruct (drv_domain_alloc pf) as [d|]; [|by inversion 1].
  destruct (negb (drv_domain_type_ok pf)); [by inversion 1|].
  destruct (if dev_enforce_cache_coherency idev then _ else _)
    as [hwpt4 rc4] eqn:Hcc.
  assert (hwpt_parent hwpt4 = None) as Hpar.
  { destruct (dev_enforce_cache_coherency idev).
    - apply enforce_cc_binding in Hcc. unfold hwpt_binding in Hcc.
      by inversion Hcc.
    - by inversion Hcc. }
  destruct rc4; [|by inversion 1].
  destruct (iommufd_hw_pagetable_attach _ _ _ _) as [w5 rc5] eqn:Hatt.
  destruct rc5; [|by inversion 1].
  destruct (iommufd_hw_pagetable_link_ioas pf id w5) as [w6 rc6] eqn:Hlink.
  destruct rc6; inversion 1; subst.
  apply attach_success in Hatt
    as (Hdl & Hl5 & (h & h' & Hh & Hh' & Hb)).
  simpl in Hdl, Hl5, Hh. rewrite lookup_insert_eq in Hh.
  inversion Hh; subst h.
  apply link_ioas_success in Hlink as (Hig & Hobjs & Hlist).
  exists id, h'. rewrite Hig, Hobjs, Hdl.
  repeat (split; [done|]). split; [|done].
  destruct Hlist as [->|(_ & h0 & Hh0 & Hne)]; [by rewrite Hl5|].
  rewrite Hh' in Hh0. inversion Hh0; subst h0.
  unfold hwpt_binding, bump in Hb. simpl in Hb. inversion Hb. congruence.
Qed.

(** ** More on attach and detach *)

(** The steps of a successful [iommufd_hw_pagetable_attach]. *)
Lemma attach_success_inv pf id idev w w' :
  iommufd_hw_pagetable_attach pf id idev w = (w', Success) →
  ∃ h h1 h3 iopt2 sw,
    objs w !! id = Some h
    ∧ (ig_hwpt (igroup w) = None ∨ ig_hwpt (igroup w) = Some id)
    ∧ (if dev_enforce_cache_coherency idev
       then iommufd_hw_pagetable_enforce_cc pf h = (h1, Success)
       else h1 = h)
    ∧ iopt_table_enforce_dev_resv_regions pf (ioas_iopt w) (dev idev)
        (sw_msi_start (igroup w)) = (iopt2, sw, Success)
    ∧ ioas_iopt w' = iopt2 ∧ hwpt_list w' = hwpt_list w
    ∧ hw_entries w' = hw_entries w ∧ ioas_users w' = ioas_users w
    ∧ device_list (igroup w') = device_list (igroup w) ++ [dev idev]
    ∧ sw_msi_start (igroup w') = sw
    ∧ objs w' = <[id := set_hwpt_users h3 (hwpt_users h3 + 1)]> (objs w)
    ∧ match device_list (igroup w) with
      | [] =>
          ∃ d, iommufd_group_setup_msi pf
                 (set_sw_msi_start (igroup w) sw) h1 = (h3, Success)
               ∧ hwpt_domain h3 = Some d
               ∧ iommu_attach_group pf d = Success
               ∧ ig_hwpt (igroup w') = Some id
               ∧ group_domain w' = Some d
      | _ :: _ =>
          h3 = h1 ∧ ig_hwpt (igroup w') = ig_hwpt (igroup w)
          ∧ group_domain w' = group_domain w
      end.
Proof.
  unfold iommufd_hw_pagetable_attach. intros H.
  destruct (objs w !! id) as [h|] eqn:Hobj; [|done].
  assert (ig_hwpt (igroup w) = None ∨ ig_hwpt (igroup w) = Some id) as Hg.
  { destruct (ig_hwpt (igroup w)) as [cur|]; [|by left].
    destruct (Nat.eqb cur id) eqn:Heq; [|done].
    apply Nat.eqb_eq in Heq as ->. by right. }
  destruct (match ig_hwpt (igroup w) with
            | Some cur => negb (Nat.eqb cur id)
            | None => false
            end); [done|].
  destruct (if dev_enforce_cache_coherency idev
            then iommufd_hw_pagetable_enforce_cc pf h
            else (h, Success)) as [h1 rc1] eqn:Hcc.
  destruct rc1; [|done].
  cbn [ioas_iopt set_objs igroup] in H.
  destruct (iopt_table_enforce_dev_resv_regions pf (ioas_iopt w) (dev idev)
              (sw_msi_start (igroup w))) as [[iopt2 sw] rc2] eqn:Hresv.
  destruct rc2; [|done].
  cbn [ioas_iopt set_objs igroup set_igroup set_iopt device_list
       set_sw_msi_start objs] in H.
  assert (if dev_enforce_cache_coherency idev
          then iommufd_hw_pagetable_enforce_cc pf h = (h1, Success)
          else h1 = h) as Hcc'.
  { destruct (dev_enforce_cache_coherency idev); [done|]. by inversion Hcc. }
  destruct (device_list (igroup w)) as [|d0 dl] eqn:Hdl.
  - destruct (iommufd_group_setup_msi pf _ h1) as [h3 rc3] eqn:Hmsi.
    destruct rc3; [|done].
    destruct (hwpt_domain h3) as [d|] eqn:Hd; [|done].
    destruct (iommu_attach_group pf d) eqn:Hatt; [|done].
    inversion H; subst w'; clear H. simpl.
    exists h, h1, h3, iopt2, sw.
    rewrite Hdl. simpl.
    rewrite insert_insert_eq, alter_insert_eq.
    repeat (split; [done|]). by exists d.
  - inversion H; subst w'; clear H. simpl.
    exists h, h1, h1, iopt2, sw.
    rewrite alter_insert_eq.
    repeat (split; [done|]). done.
Qed.

Lemma enforce_cc_users pf h h' r :
  iommufd_hw_pagetable_enforce_cc pf h = (h', r) →
  hwpt_users h' = hwpt_users h.
Proof.
  intros H. apply enforce_cc_binding in H.
  unfold hwpt_binding in H. by inversion H.
Qed.

Lemma setup_msi_users pf g h h' r :
  iommufd_group_setup_msi pf g h = (h', r) →
  hwpt_users h' = hwpt_users h.
Proof.
  intros H. apply setup_msi_binding in H.
  unfold hwpt_binding in H. by inversion H.
Qed.

(** The reserved regions that a successful
    [iopt_table_enforce_dev_resv_regions] adds belong to the device. *)
Lemma enforce_resv_success pf iopt device sw iopt' sw' :
  iopt_table_enforce_dev_resv_regions pf iopt device sw
  = (iopt', sw', Success) →
  ∃ news, iopt' = set_reserved iopt (reserved iopt ++ news)
          ∧ Forall (λ x, resv_owner x = device) news.
Proof.
  unfold iopt_table_enforce_dev_resv_regions. intros H.
  destruct (reserve_regions iopt device _ sw) as [[iopt1 sw1] r] eqn:Hr.
  destruct r; [|done]. inversion H; subst.
  by apply reserve_regions_spec in Hr.
Qed.

Lemma filter_owner_other (owner : nat) (l : list iopt_reserved) :
  Forall (λ x, resv_owner x ≠ owner) l →
  List.filter (λ r, negb (Nat.eqb (resv_owner r) owner)) l = l.
Proof.
  induction 1 as [|x l Hx _ IH]; [done|]. simpl.
  apply Nat.eqb_neq in Hx. rewrite Hx. simpl. by rewrite IH.
Qed.

Lemma filter_owner_own (owner : nat) (l : list iopt_reserved) :
  Forall (λ x, resv_owner x = owner) l →
  List.filter (λ r, negb (Nat.eqb (resv_owner r) owner)) l = [].
Proof.
  induction 1 as [|x l Hx _ IH]; [done|]. simpl.
  apply Nat.eqb_eq in Hx. by rewrite Hx.
Qed.

Lemma upgraded_refl h : upgraded h h.
Proof. unfold upgraded. repeat split; try done. by left. Qed.

Lemma enforce_cc_upgraded pf h h' r :
  iommufd_hw_pagetable_enforce_cc pf h = (h', r) →
  upgraded h h' ∧ hwpt_users h' = hwpt_users h
  ∧ msi_cookie h' = msi_cookie h
  ∧ (r = Success → enforce_cache_coherency h' = true).
Proof.
  unfold iommufd_hw_pagetable_enforce_cc, upgraded. intros H.
  destruct (enforce_cache_coherency h) eqn:Hcc.
  { inversion H; subst. repeat split; try done. by left. }
  destruct (hwpt_domain h) as [d|] eqn:Hd;
    [destruct (drv_enforce_cache_coherency pf d) as [b|]|];
    simpl in H; try rewrite Hcc in H; simpl in H.
  - destruct b; simpl in H; inversion H; subst; simpl;
      repeat split; try done; (by left).
  - inversion H; subst. repeat split; try done. by left.
  - inversion H; subst. repeat split; try done. by left.
Qed.

Lemma setup_msi_upgraded pf g h h' r :
  iommufd_group_setup_msi pf g h = (h', r) →
  upgraded h h' ∧ hwpt_users h' = hwpt_users h
  ∧ enforce_cache_coherency h' = enforce_cache_coherency h.
Proof.
  unfold iommufd_group_setup_msi, upgraded. intros H.
  destruct (negb (sw_msi_start g =? PHYS_ADDR_MAX) && negb (msi_cookie h)).
  - destruct (hwpt_domain h) as [d|] eqn:Hd;
      [destruct (iommu_get_msi_cookie pf d (sw_msi_start g))|];
      inversion H; subst; simpl; repeat split; try done; (by left).
  - inversion H; subst. repeat split; try done. by left.
Qed.

Lemma upgraded_trans h1 h2 h3 :
  upgraded h1 h2 → hwpt_users h2 = hwpt_users h1 → upgraded h2 h3 →
  upgraded h1 h3.
Proof.
  unfold upgraded.
  intros (Hd & Hp & Ha & Hl & Hc & Hm & _) Hu
         (Hd' & Hp' & Ha' & Hl' & Hc' & Hm' & Hu').
  rewrite Hd', Hp', Ha', Hl'.
  repeat (split; [done|]).
  split; [tauto|]. split; [tauto|]. by rewrite <-Hu.
Qed.

(** Whatever its result, [iommufd_hw_pagetable_attach] changes no object
    but the hardware page table it is called on, and that one only by an
    upgrade. *)
Lemma attach_objs_shape pf id idev w w' r :
  iommufd_hw_pagetable_attach pf id idev w = (w', r) →
  (objs w !! id = None ∧ w' = w)
  ∨ ∃ h h', objs w !! id = Some h ∧ objs w' = <[id := h']> (objs w)
            ∧ upgraded h h'.
Proof.
  unfold iommufd_hw_pagetable_attach. intros H.
  destruct (objs w !! id) as [h|] eqn:Hobj;
    [right|left; by inversion H].
  exists h.
  destruct (match ig_hwpt (igroup w) with
            | Some cur => negb (Nat.eqb cur id)
            | None => false
            end).
  { inversion H; subst. exists h. rewrite insert_id by done.
    split; [done|]. split; [done|]. apply upgraded_refl. }
  destruct (if dev_enforce_cache_coherency idev
            then iommufd_hw_pagetable_enforce_cc pf h
            else (h, Success)) as [h1 rc1] eqn:Hcc.
  assert (upgraded h h1 ∧ hwpt_users h1 = hwpt_users h) as [Hup1 Hu1].
  { destruct (dev_enforce_cache_coherency idev).
    - apply enforce_cc_upgraded in Hcc as (? & ? & _). done.
    - inversion Hcc; subst. split; [apply upgraded_refl|done]. }
  destruct rc1; [|inversion H; subst; by exists h1].
  cbn [ioas_iopt set_objs igroup] in H.
  destruct (iopt_table_enforce_dev_resv_regions pf (ioas_iopt w) (dev idev)
              (sw_msi_start (igroup w))) as [[iopt2 sw] rc2] eqn:Hresv.
  destruct rc2; [|inversion H; subst; by exists h1].
  cbn [ioas_iopt set_objs igroup set_igroup set_iopt device_list
       set_sw_msi_start objs] in H.
  assert (∀ h3, upgraded h1 h3 → hwpt_users h3 = hwpt_users h1 →
                upgraded h (set_hwpt_users h3 (hwpt_users h3 + 1))) as Hfin.
  { intros h3 Hup3 Hu3.
    apply (upgraded_trans _ _ _ Hup1 Hu1).
    destruct Hup3 as (? & ? & ? & ? & ? & ? & _).
    unfold upgraded. simpl. repeat (split; [done|]). right. lia. }
  destruct (device_list (igroup w)) as [|d0 dl].
  - destruct (iommufd_group_setup_msi pf _ h1) as [h3 rc3] eqn:Hmsi.
    apply setup_msi_upgraded in Hmsi as (Hup3 & Hu3 & _).
    assert (upgraded h h3) as Hup.
    { by apply (upgraded_trans _ _ _ Hup1 Hu1). }
    destruct rc3.
    2:{ inversion H; subst. exists h3. simpl.
        by rewrite insert_insert_eq. }
    destruct (hwpt_domain h3) as [d|].
    2:{ inversion H; subst. exists h3. simpl.
        by rewrite insert_insert_eq. }
    destruct (iommu_attach_group pf d).
    2:{ inversion H; subst. exists h3. simpl.
        by rewrite insert_insert_eq. }
    inversion H; subst. simpl.
    exists (set_hwpt_users h3 (hwpt_users h3 + 1)).
    rewrite insert_insert_eq, alter_insert_eq.
    split; [done|]. split; [done|]. by apply Hfin.
  - inversion H; subst. simpl.
    exists (set_hwpt_users h1 (hwpt_users h1 + 1)).
    rewrite alter_insert_eq.
    split; [done|]. split; [done|]. apply Hfin; [apply upgraded_refl|done].
Qed.

Lemma link_ioas_objs pf id w w' r :
  iommufd_hw_pagetable_link_ioas pf id w = (w', r) → objs w' = objs w.
Proof.
  unfold iommufd_hw_pagetable_link_ioas, iopt_table_add_domain. intros H.
  destruct (objs w !! id) as [h|]; [|by inversion H].
  destruct (hwpt_parent h); [by inversion H|].
  destruct (hwpt_domain h) as [d|]; [|by inversion H].
  destruct (negb (forallb _ _)); [by inversion H|].
  destruct (fill_areas pf d _ _) as [[entries' filled] [|e]];
    by inversion H.
Qed.

Lemma detach_objs idev w :
  objs (iommufd_hw_pagetable_detach idev w).1 = objs w.
Proof.
  unfold iommufd_hw_pagetable_detach. simpl.
  by destruct (list_del (dev idev) (device_list (igroup w))).
Qed.

Lemma destroy_objs_no_parent id w h :
  objs w !! id = Some h → hwpt_parent h = None →
  objs (iommufd_hw_pagetable_destroy id w) = objs w.
Proof.
  unfold iommufd_hw_pagetable_destroy. intros -> ->.
  destruct (bool_decide (id ∈ hwpt_list w)); destruct (hwpt_domain h); done.
Qed.

(** [iommufd_hw_pagetable_alloc] without a parent changes no object but
    the one it allocates. *)
Lemma alloc_other_objs pf idev user_data immediate_attach w w' r o i :
  iommufd_hw_pagetable_alloc pf idev None user_data immediate_attach w
  = (w', r, o) →
  iommufd_object_alloc pf ≠ Some i →
  objs w' !! i = objs w !! i.
Proof.
  unfold iommufd_hw_pagetable_alloc. intros H Hi.
  destruct (_ && negb (ops_domain_alloc_user pf)); [by inversion H|].
  destruct (iommufd_object_alloc pf) as [id|]; [|by inversion H].
  assert (i ≠ id) as Hne by congruence.
  assert (∀ wk, (∃ h, objs wk !! id = Some h ∧ hwpt_parent h = None) →
                objs wk !! i = objs w !! i →
                objs (iommufd_object_abort_and_destroy id wk) !! i
                = objs w !! i) as Habort.
  { intros wk (h & Hh & Hp) Hwk. unfold iommufd_object_abort_and_destroy.
    simpl. rewrite lookup_delete_ne by done.
    by rewrite (destroy_objs_no_parent _ _ _ Hh Hp). }
  cbn zeta in H.
  destruct (drv_domain_alloc pf) as [d|].
  2:{ inversion H; subst. apply Habort; simpl.
      - eexists. by rewrite lookup_insert_eq.
      - by rewrite lookup_insert_ne. }
  destruct (negb (drv_domain_type_ok pf)).
  { inversion H; subst. apply Habort; simpl.
    - eexists. by rewrite lookup_insert_eq.
    - by rewrite !lookup_insert_ne. }
  destruct (if dev_enforce_cache_coherency idev then _ else _)
    as [h4 rc4] eqn:Hcc.
  assert (hwpt_parent h4 = None) as Hp4.
  { destruct (dev_enforce_cache_coherency idev).
    - apply enforce_cc_upgraded in Hcc as ((_ & -> & _) & _). done.
    - by inversion Hcc. }
  destruct rc4.
  2:{ inversion H; subst. apply Habort; simpl.
      - eexists. by rewrite lookup_insert_eq.
      - by rewrite !lookup_insert_ne. }
  destruct (if immediate_attach then _ else _) as [w5 rc5] eqn:Hatt.
  assert ((∃ h, objs w5 !! id = Some h ∧ hwpt_parent h = None)
          ∧ objs w5 !! i = objs w !! i) as [Hid5 Hi5].
  { destruct immediate_attach.
    - destruct (attach_objs_shape _ _ _ _ _ _ Hatt)
        as [[Hnone _]|(h & h' & Hobj & -> & Hup)].
      { simpl in Hnone. by rewrite lookup_insert_eq in Hnone. }
      simpl in Hobj. rewrite lookup_insert_eq in Hobj.
      inversion Hobj; subst h. split.
      + exists h'. rewrite lookup_insert_eq. split; [done|].
        destruct Hup as (_ & -> & _). done.
      + simpl. by rewrite !lookup_insert_ne.
    - inversion Hatt; subst. simpl. split.
      + eexists. by rewrite lookup_insert_eq.
      + by rewrite !lookup_insert_ne. }
  destruct rc5; [|inversion H; subst; by apply Habort].
  destruct (iommufd_hw_pagetable_link_ioas pf id w5) as [w6 rc6] eqn:Hlink.
  apply link_ioas_objs in Hlink.
  destruct rc6.
  - inversion H; subst. by rewrite Hlink.
  - remember (if immediate_attach
              then (iommufd_hw_pagetable_detach idev w6).1
              else w6) as w7 eqn:Hw7.
    assert (objs w7 = objs w6) as Hobj7.
    { subst w7. destruct immediate_attach; [apply detach_objs|done]. }
    clear Hw7. injection H as <- _ _. apply Habort; by rewrite Hobj7, Hlink.
Qed.

(** The loop of [iommufd_device_auto_get_domain] leaves the hardware page
    tables that are not automatic domains as they are, creates no object,
    and uses an automatic domain if it uses one. *)
Lemma auto_loop_manual pf idev pt_id l :
  ∀ w w' res,
    auto_get_domain_loop pf idev l pt_id w = (w', res) →
    (∀ i h, objs w !! i = Some h → auto_domain h = false →
            objs w' !! i = Some h)
    ∧ (∀ i, objs w !! i = None → objs w' !! i = None)
    ∧ (∀ r id, res = Some (r, id) →
               ∃ h, objs w' !! id = Some h ∧ auto_domain h = true).
Proof.
  induction l as [|c tl IH]; intros w w' res H; simpl in H.
  { by inversion H; subst. }
  destruct (objs w !! c) as [hc|] eqn:Hc; [|by apply IH].
  destruct (auto_domain hc) eqn:Hauto; simpl in H; [|by apply IH].
  destruct (hwpt_lockable hc); simpl in H; [|by apply IH].
  destruct (iommufd_hw_pagetable_attach pf c idev w) as [w1 r1] eqn:Hatt.
  destruct (attach_objs_shape _ _ _ _ _ _ Hatt)
    as [[Hnone _]|(h0 & h' & Hobj & Hobjs & Hup)]; [congruence|].
  rewrite Hc in Hobj. inversion Hobj; subst h0.
  assert (auto_domain h' = true) as Hauto'.
  { destruct Hup as (_ & _ & -> & _). done. }
  assert (∀ i h, objs w !! i = Some h → auto_domain h = false →
                 objs w1 !! i = Some h) as Hman.
  { intros i h Hi Hm. rewrite Hobjs.
    destruct (decide (i = c)) as [->|Hne]; [congruence|].
    by rewrite lookup_insert_ne. }
  assert (∀ i, objs w !! i = None → objs w1 !! i = None) as Hnew.
  { intros i Hi. rewrite Hobjs.
    destruct (decide (i = c)) as [->|Hne]; [congruence|].
    by rewrite lookup_insert_ne. }
  destruct (bool_decide (r1 = Failure EINVAL)).
  - destruct (IH _ _ _ H) as (IH1 & IH2 & IH3).
    split; [|split; [|done]].
    + intros i h Hi Hm. apply IH1; [|done]. by apply Hman.
    + intros i Hi. apply IH2. by apply Hnew.
  - inversion H; subst. split; [done|]. split; [done|].
    intros r id [= <- <-]. exists h'. by rewrite Hobjs, lookup_insert_eq.
Qed.

(** ** More on the access functions *)

Lemma run_steps_invariant {St E : Type} (P : St → Prop)
    (body : iopt_area_contig_iter → cursor → St → St * option E)
    last steps s :
  (∀ it c s, P s → P (body it c s).1) → P s →
  P (run_steps body last steps s).1.
Proof.
  intros Hbody. revert s.
  induction steps as [|step tl IH]; intros s Hs; cbn [run_steps]; [done|].
  pose proof (Hbody (iter_at last step) step.2 s Hs) as H.
  destruct (body (iter_at last step) step.2 s) as [s' [e|]]; [done|].
  by apply IH.
Qed.

Lemma loop_invariant {St E : Type} (P : St → Prop) iopt iova last
    (body : iopt_area_contig_iter → cursor → St → St * option E) s :
  (∀ it c s, P s → P (body it c s).1) → P s →
  P (iopt_for_each_contig_area iopt iova last body s).1.2.
Proof.
  intros Hbody Hs. rewrite iopt_for_each_contig_area_spec.
  unfold loop_result.
  pose proof (run_steps_invariant P body last
                (contig_areas iopt iova last) s Hbody Hs) as H.
  destruct (run_steps _ _ _ _) as [s' [[step e]|]]; done.
Qed.

Lemma WARN_ON_memory b wn st : memory (WARN_ON b wn st) = memory st.
Proof. by destruct b. Qed.

Lemma remove_access_memory c i j st :
  memory (iopt_area_remove_access c i j st) = memory st.
Proof.
  unfold iopt_area_remove_access.
  destruct (pages (c_area c)); [|done].
  destruct (bool_decide _); [|done]. simpl. apply WARN_ON_memory.
Qed.

Lemma unpin_loop_memory iopt iova last st :
  memory (iopt_for_each_contig_area iopt iova last (unpin_body last) st).1.2
  = memory st.
Proof.
  apply (loop_invariant (λ s, memory s = memory st)); [|done].
  intros it c s Hs. unfold unpin_body. simpl.
  by rewrite remove_access_memory.
Qed.

Lemma pin_body_memory iopt last flags it c s :
  memory (pin_body iopt last flags it c s).1.1 = memory s.1.
Proof.
  unfold pin_body.
  destruct (prevent_access (c_area c) || _); [done|].
  destruct (negb (check_area_prot _ _)); [done|].
  unfold iopt_area_add_access.
  destruct (pages (c_area c)) as [p|]; [|done].
  destruct (stores iopt !! p) as [ps|]; [|done].
  destruct (wants_write flags && negb (writable ps)); [done|].
  by destruct (pages_pin_error _ _ _).
Qed.

Lemma rw_body_frame iopt last flags it c st buf off :
  let s' := (rw_body iopt last flags it c (st, buf, off)).1 in
  (wants_write flags = false → memory s'.1.1 = memory st)
  ∧ (wants_write flags = true → s'.1.2 = buf).
Proof.
  unfold rw_body.
  destruct (prevent_access (c_area c)); [done|].
  destruct (negb (check_area_prot _ _)); [done|].
  unfold iopt_pages_rw_access.
  destruct (pages (c_area c)) as [p|]; [|done].
  destruct (stores iopt !! p) as [ps|]; [|done].
  destruct (wants_write flags && negb (writable ps)); [done|].
  destruct (pages_pin_error _ _ _); [done|].
  by destruct (wants_write flags).
Qed.

Lemma pin_body_aligned iopt last flags it c s s' :
  pin_body iopt last flags it c s = (s', None) →
  iopt_area_contig_is_aligned it = true.
Proof.
  unfold pin_body.
  destruct (iopt_area_contig_is_aligned it); [done|].
  rewrite orb_true_r. done.
Qed.

Lemma div_aligned b t ps :
  0 < ps → b mod ps = 0 → (b + t) / ps - b / ps = t / ps.
Proof.
  intros Hps Hb.
  rewrite (Z.div_mod b ps) at 1 by lia. rewrite Hb, Z.add_0_r.
  rewrite (Z.mul_comm ps), Z.div_add_l by lia. lia.
Qed.

Lemma mod_aligned b t ps :
  0 < ps → b mod ps = 0 → (b + t) mod ps = t mod ps.
Proof.
  intros Hps Hb.
  rewrite Z.add_mod, Hb, Z.add_0_l, Z.mod_mod by lia. done.
Qed.

Lemma step_pages_length last step :
  has_pages step.2 = true →
  length (step_pages last step)
  = Z.to_nat ((step_range last step).2 - (step_range last step).1 + 1).
Proof.
  unfold has_pages, step_pages. intros H.
  destruct (pages (c_area step.2)); [|done].
  unfold page_list. by rewrite length_fmap, length_seqZ.
Qed.

(** The pages of a walk that is aligned in every area it visits: one for
    each page of the range. *)
Lemma chain_page_count last steps :
  0 < PAGE_SIZE →
  chain last steps →
  Forall (λ step, iopt_area_contig_is_aligned (iter_at last step) = true)
    steps →
  ∀ s0 tl sk,
    steps = s0 :: tl → s0.1 ≤ last → list.last steps = Some sk →
    last ≤ node_last (c_area sk.2) →
    Z.of_nat (length (concat (step_pages last <$> steps)))
    = (last - s0.1 + PAGE_SIZE) / PAGE_SIZE.
Proof.
  intros Hps Hchain.
  induction Hchain as [step Hlo Hhi Hpg
                      |step step' tl Hlo Hhi Hpg Hlt Hnext Hchain IH];
    intros Hal s0 tl0 sk Heq Hle Hlast Hend.
  - inversion Heq; subst s0 tl0. simpl in Hlast. inversion Hlast; subst sk.
    apply list.Forall_cons in Hal as [Hal _].
    unfold iopt_area_contig_is_aligned in Hal. simpl in Hal.
    destruct (negb (_ =? 0)) eqn:Hb; [done|].
    apply negb_false_iff, Z.eqb_eq in Hb.
    simpl. rewrite app_nil_r, step_pages_length by done.
    unfold step_range, iopt_area_iova_to_index. simpl.
    rewrite Z.min_l by done.
    replace (iopt_area_start_byte (c_area step.2) last)
      with (iopt_area_start_byte (c_area step.2) step.1 + (last - step.1))
      by (unfold iopt_area_start_byte; lia).
    rewrite div_aligned by done.
    assert (0 ≤ (last - step.1) / PAGE_SIZE)
      by (apply Z.div_pos; lia).
    rewrite Z2Nat.id by lia.
    replace (last - step.1 + PAGE_SIZE)
      with (last - step.1 + 1 * PAGE_SIZE) by lia.
    rewrite Z.div_add by lia. done.
  - inversion Heq; subst s0 tl0.
    rewrite last_cons_cons in Hlast.
    apply list.Forall_cons in Hal as [Hal Hal'].
    specialize (IH Hal' step' tl sk eq_refl ltac:(lia) Hlast Hend).
    unfold iopt_area_contig_is_aligned in Hal. simpl in Hal.
    destruct (negb (_ =? 0)) eqn:Hb; [done|].
    apply negb_false_iff, Z.eqb_eq in Hb.
    assert (iopt_area_contig_done (iter_at last step) = false) as Hnd.
    { unfold iopt_area_contig_done. simpl. apply Z.leb_gt.
      unfold iopt_area_last_iova. lia. }
    rewrite Hnd in Hal. simpl in Hal.
    destruct (negb (_ =? PAGE_SIZE - 1)) eqn:Hb2; [done|].
    apply negb_false_iff, Z.eqb_eq in Hb2.
    rewrite fmap_cons, concat_cons, length_app, Nat2Z.inj_add.
    rewrite IH, step_pages_length by done.
    unfold step_range, iopt_area_iova_to_index. simpl.
    unfold iopt_area_last_iova in *.
    rewrite Z.min_r by lia.
    set (nl := node_last (c_area step.2)) in *.
    replace (iopt_area_start_byte (c_area step.2) nl)
      with (iopt_area_start_byte (c_area step.2) step.1 + (nl - step.1))
      in * by (unfold iopt_area_start_byte; lia).
    rewrite div_aligned by done.
    rewrite mod_aligned in Hb2 by done.
    assert (0 ≤ (nl - step.1) / PAGE_SIZE)
      by (apply Z.div_pos; lia).
    rewrite Z2Nat.id by lia.
    pose proof (Z.div_mod (nl - step.1) PAGE_SIZE ltac:(lia)) as Hdm.
    rewrite Hb2 in Hdm. rewrite Hnext.
    replace (last - step.1 + PAGE_SIZE)
      with (((nl - step.1) / PAGE_SIZE + 1) * PAGE_SIZE
            + (last - (nl + 1) + PAGE_SIZE)) by lia.
    rewrite Z.div_add_l by lia. done.
Qed.

(** *** Counting pins *)

Lemma filter_length_perm {A : Type} (f : A → bool) (l l' : list A) :
  l ≡ₚ l' → length (List.filter f l) = length (List.filter f l').
Proof.
  induction 1 as [|x l l' _ IH|x y l|l1 l2 l3 _ IH1 _ IH2]; simpl.
  - done.
  - destruct (f x); simpl; by rewrite IH.
  - by destruct (f x), (f y).
  - by rewrite IH1.
Qed.

Lemma filter_length_union `{Countable A} (f : A → bool) (X Y : gmultiset A) :
  length (List.filter f (elements (X ⊎ Y)))
  = (length (List.filter f (elements X))
     + length (List.filter f (elements Y)))%nat.
Proof.
  rewrite (filter_length_perm f _ _ (gmultiset_elements_disj_union X Y)).
  by rewrite List.filter_app, length_app.
Qed.

Lemma filter_length_list_to_set_disj `{Countable A} (f : A → bool)
    (l : list A) :
  length (List.filter f (elements (list_to_set_disj l : gmultiset A)))
  = length (List.filter f l).
Proof.
  induction l as [|x l IH].
  - by rewrite list_to_set_disj_nil, gmultiset_elements_empty.
  - rewrite list_to_set_disj_cons, filter_length_union, IH.
    rewrite gmultiset_elements_singleton. simpl. by destruct (f x).
Qed.

Lemma page_list_count (q p : nat) (index : Z) (n : nat) (a : Z) :
  length (List.filter (λ pg : page, bool_decide (pg = (p, index)))
            ((λ j, (q, j)) <$> seqZ a (Z.of_nat n)))
  = if bool_decide (q = p) && (a <=? index) && (index <? a + Z.of_nat n)
    then 1%nat else 0%nat.
Proof.
  revert a. induction n as [|n IH]; intros a.
  - simpl. rewrite Z.add_0_r.
    destruct (bool_decide (q = p)); simpl; [|done].
    destruct (a <=? index) eqn:H1; simpl; [|done].
    destruct (index <? a) eqn:H2; [|done].
    apply Z.leb_le in H1. apply Z.ltb_lt in H2. lia.
  - rewrite seqZ_cons by lia. rewrite fmap_cons. simpl List.filter.
    replace (Z.pred (Z.of_nat (S n))) with (Z.of_nat n) by lia.
    destruct (decide (q = p)) as [->|Hqp].
    + rewrite (bool_decide_eq_true_2 (p = p)) in * by done.
      destruct (decide (a = index)) as [->|Hne].
      * rewrite bool_decide_eq_true_2 by done. simpl. rewrite IH.
        rewrite Z.leb_refl. simpl.
        assert ((Z.succ index <=? index) = false) as ->
          by (apply Z.leb_gt; lia).
        assert ((index <? index + Z.of_nat (S n)) = true) as ->
          by (apply Z.ltb_lt; lia).
        done.
      * rewrite bool_decide_eq_false_2 by congruence.
        rewrite IH. simpl.
        destruct (Z.leb_spec (Z.succ a) index), (Z.leb_spec a index),
          (Z.ltb_spec index (Z.succ a + Z.of_nat n)),
          (Z.ltb_spec index (a + Z.of_nat (S n)));
          simpl; try done; lia.
    + rewrite bool_decide_eq_false_2 by congruence.
      rewrite IH. by rewrite !(bool_decide_eq_false_2 (q = p)).
Qed.

Lemma steps_pin_count last (p : nat) (index : Z) steps :
  Forall (λ step : Z * cursor, has_pages step.2 = true) steps →
  length (List.filter
            (λ k : nat * (Z * Z),
               bool_decide (k.1 = p) && (k.2.1 <=? index) && (index <=? k.2.2))
            (omap (step_key last) steps))
  = length (List.filter (λ pg : page, bool_decide (pg = (p, index)))
              (concat (step_pages last <$> steps))).
Proof.
  induction 1 as [|step tl Hpg _ IH]; [done|].
  rewrite fmap_cons, concat_cons, List.filter_app, length_app, <-IH.
  clear IH. unfold has_pages in Hpg.
  destruct (pages (c_area step.2)) as [q|] eqn:Hq; [|done].
  assert (step_key last step = Some (q, step_range last step)) as Hk.
  { unfold step_key. by rewrite Hq. }
  assert (step_pages last step
          = page_list q (step_range last step).1 (step_range last step).2)
    as ->.
  { unfold step_pages. by rewrite Hq. }
  change (omap (step_key last) (step :: tl))
    with (match step_key last step with
          | Some y => y :: omap (step_key last) tl
          | None => omap (step_key last) tl
          end).
  rewrite Hk. cbn [List.filter fst snd].
  set (r1 := (step_range last step).1).
  set (r2 := (step_range last step).2).
  set (F := List.filter _ (omap _ tl)).
  unfold page_list.
  destruct (decide (r1 ≤ r2)) as [Hle|Hgt].
  - replace (r2 - r1 + 1) with (Z.of_nat (Z.to_nat (r2 - r1 + 1))) by lia.
    rewrite page_list_count.
    replace (index <? r1 + Z.of_nat (Z.to_nat (r2 - r1 + 1)))
      with (index <=? r2).
    2:{ destruct (index <=? r2) eqn:H1; symmetry.
        - apply Z.leb_le in H1. apply Z.ltb_lt. lia.
        - apply Z.leb_gt in H1. apply Z.ltb_ge. lia. }
    by destruct (bool_decide (q = p) && (r1 <=? index) && (index <=? r2)).
  - assert (seqZ r1 (r2 - r1 + 1) = []) as ->.
    { apply seqZ_nil. lia. }
    simpl.
    destruct (bool_decide (q = p)); simpl; [|done].
    destruct (r1 <=? index) eqn:H1; simpl; [|done].
    destruct (index <=? r2) eqn:H2; [|done].
    apply Z.leb_le in H1. apply Z.leb_le in H2. lia.
Qed.

(** *** A range inside one Area *)

Lemma contig_areas_single iopt iova last a k :
  iopt_wf iopt = true → areas iopt !! k = Some a → pages a ≠ None →
  node_start a ≤ iova → iova ≤ last → last ≤ node_last a →
  contig_areas iopt iova last
  = [(iova, {| c_index := k; c_area := a;
               c_succ := drop (S k) (areas iopt) |})].
Proof.
  intros Hwf Hk Hp Hlo Hle Hhi. unfold iopt_wf in Hwf.
  unfold contig_areas, iopt_area_iter_first.
  rewrite (iter_from_sorted _ _ 0 k a iova iova Hwf Hk) by lia.
  unfold has_pages, tail_walk. simpl.
  destruct (pages a); [|done].
  by rewrite (proj2 (Z.leb_le _ _) Hhi).
Qed.

Lemma rw_single_area iopt iova buf length flags st a :
  iopt_wf iopt = true → a ∈ areas iopt → pages a ≠ None →
  0 ≤ iova → 0 < length → iova + (length - 1) ≤ ULONG_MAX →
  node_start a ≤ iova → iova + (length - 1) ≤ node_last a →
  iommufd_access_rw iopt iova buf length flags st
  = if prevent_access a then (st, Failure EINVAL, buf)
    else if negb (check_area_prot a flags) then (st, Failure EPERM, buf)
    else iopt_pages_rw_access iopt (pages a) (iopt_area_start_byte a iova)
           buf 0 length flags st.
Proof.
  intros Hwf Hin Hp Hiova Hlen Hmax Hlo Hhi.
  apply list_elem_of_lookup in Hin as (k & Hk).
  unfold iommufd_access_rw.
  assert ((length =? 0) = false) as -> by (apply Z.eqb_neq; lia).
  rewrite check_add_overflow_no by lia.
  rewrite iopt_for_each_contig_area_spec.
  rewrite (contig_areas_single _ _ _ a k) by (done || lia).
  unfold loop_result. cbn [run_steps]. unfold rw_body. simpl.
  destruct (prevent_access a); [done|].
  destruct (negb (check_area_prot a flags)); [done|].
  unfold iopt_area_last_iova.
  rewrite Z.min_l by lia.
  replace (iova + (length - 1) - iova + 1) with length by lia.
  destruct (iopt_pages_rw_access iopt (pages a) _ buf 0 length flags st)
    as [[st' r] buf'].
  destruct r; [|done].
  unfold contig_final, iopt_area_contig_done, iopt_area_last_iova. simpl.
  rewrite (proj2 (Z.leb_le _ _) Hhi). simpl.
  by rewrite (proj2 (Z.leb_le _ _) Hhi).
Qed.

Lemma mem_write_lookup_lt m p start bs k :
  k < start → mem_write m p start bs !! (p, k) = m !! (p, k).
Proof.
  revert m start. induction bs as [|b bs IH]; intros m start Hk; [done|].
  simpl. rewrite IH by lia. apply lookup_insert_ne.
  intros [= ?]. lia.
Qed.

Lemma mem_read_write m p start bs :
  mem_read (mem_write m p start bs) p start (Z.of_nat (length bs)) = bs.
Proof.
  revert m start. induction bs as [|b bs IH]; intros m start; [done|].
  unfold mem_read in *. rewrite seqZ_cons by (simpl; lia).
  rewrite fmap_cons. simpl mem_write.
  rewrite mem_write_lookup_lt by lia. rewrite lookup_insert_eq. simpl.
  f_equal.
  replace (Z.pred (Z.of_nat (S (length bs))))
    with (Z.of_nat (length bs)) by lia.
  replace (Z.succ start) with (start + 1) by lia.
  apply IH.
Qed.

(** *** The buffer of [iommufd_access_rw] *)

Lemma buf_write_frame (buf bs : list Byte.byte) (off : Z) (n : nat) :
  0 ≤ off → (Z.to_nat off + length bs ≤ n)%nat → (n ≤ length buf)%nat →
  length (buf_write buf off bs) = length buf
  ∧ drop n (buf_write buf off bs) = drop n buf.
Proof.
  intros Hoff Hn Hlen. unfold buf_write. split.
  - rewrite !length_app, length_take, length_drop. lia.
  - rewrite drop_app_ge by (rewrite length_take; lia).
    rewrite length_take, drop_app_ge by lia.
    rewrite drop_drop. f_equal. lia.
Qed.

Lemma mem_read_length m p start len :
  length (mem_read m p start len) = Z.to_nat len.
Proof. unfold mem_read. by rewrite length_fmap, length_seqZ. Qed.

Lemma rw_body_buffer iopt last flags it c st buf off (n : nat) :
  let bytes :=
    Z.min last (iopt_area_last_iova (c_area c)) - cur_iova it + 1 in
  0 ≤ off → 0 ≤ bytes → (Z.to_nat (off + bytes) ≤ n)%nat →
  (n ≤ length buf)%nat →
  ∀ st' buf' off' r,
    rw_body iopt last flags it c (st, buf, off) = ((st', buf', off'), r) →
    length buf' = length buf ∧ drop n buf' = drop n buf
    ∧ (r = None → off' = off + bytes).
Proof.
  intros bytes Hoff Hbytes Hn Hlen st' buf' off' r. unfold rw_body.
  destruct (prevent_access (c_area c)); [by intros [= <- <- <- <-]|].
  destruct (negb (check_area_prot _ _)); [by intros [= <- <- <- <-]|].
  unfold iopt_pages_rw_access. fold bytes.
  destruct (pages (c_area c)) as [p|]; [|by intros [= <- <- <- <-]].
  destruct (stores iopt !! p) as [ps|]; [|by intros [= <- <- <- <-]].
  destruct (wants_write flags && negb (writable ps));
    [by intros [= <- <- <- <-]|].
  destruct (pages_pin_error _ _ _); [by intros [= <- <- <- <-]|].
  destruct (wants_write flags); intros [= <- <- <- <-]; [done|].
  destruct (buf_write_frame buf
              (mem_read (memory st) p
                 (iopt_area_start_byte (c_area c) (cur_iova it)) bytes)
              off n) as [H1 H2]; try done.
  rewrite mem_read_length. lia.
Qed.

(** Along a walk the [data] pointer of [iommufd_access_rw] stays inside
    the [length] bytes of the buffer. *)
Lemma rw_run_buffer iopt iova last flags steps :
  chain last steps →
  ∀ s0 tl st buf off st' buf' off' r,
    steps = s0 :: tl → iova ≤ s0.1 → s0.1 ≤ last → off = s0.1 - iova →
    (Z.to_nat (last - iova + 1) ≤ length buf)%nat →
    run_steps (rw_body iopt last flags) last steps (st, buf, off)
    = ((st', buf', off'), r) →
    length buf' = length buf
    ∧ drop (Z.to_nat (last - iova + 1)) buf'
      = drop (Z.to_nat (last - iova + 1)) buf.
Proof.
  induction 1 as [step Hlo Hhi Hpg
                 |step step' tl Hlo Hhi Hpg Hlt Hnext Hchain IH];
    intros s0 tl0 st buf off st' buf' off' r Heq Hge Hle Hoff Hlen Hrun;
    inversion Heq; subst s0 tl0; cbn [run_steps] in Hrun.
  - destruct (rw_body iopt last flags (iter_at last step) step.2
                (st, buf, off)) as [[[st1 buf1] off1] r1] eqn:Hb.
    eapply (rw_body_buffer _ _ _ _ _ _ _ _ (Z.to_nat (last - iova + 1)))
      in Hb as (H1 & H2 & _); try done.
    + destruct r1; inversion Hrun; subst; done.
    + lia.
    + simpl. unfold iopt_area_last_iova. lia.
    + simpl. unfold iopt_area_last_iova. lia.
  - destruct (rw_body iopt last flags (iter_at last step) step.2
                (st, buf, off)) as [[[st1 buf1] off1] r1] eqn:Hb.
    eapply (rw_body_buffer _ _ _ _ _ _ _ _ (Z.to_nat (last - iova + 1)))
      in Hb as (H1 & H2 & H3); try done.
    + destruct r1 as [e|]; [by inversion Hrun; subst|].
      specialize (H3 eq_refl). simpl in H3.
      unfold iopt_area_last_iova in H3. rewrite Z.min_r in H3 by lia.
      destruct (IH step' tl st1 buf1 off1 st' buf' off' r eq_refl
                  ltac:(lia) ltac:(lia) ltac:(lia) ltac:(lia) Hrun)
        as [H4 H5].
      split; congruence.
    + lia.
    + simpl. unfold iopt_area_last_iova. lia.
    + simpl. unfold iopt_area_last_iova. lia.
Qed.

(** ** Groups *)

Lemma gmultiset_add_remove `{Countable A} (X : gmultiset A) (x : A) :
  (X ⊎ {[+ x +]}) ∖ {[+ x +]} = X.
Proof. multiset_solver. Qed.

Lemma set_ge_ref_id g : set_ge_ref g (ge_ref g) = g.
Proof. by destruct g. Qed.

Lemma ictx_state_eta s :
  {| groups := groups s; igroup_mem := igroup_mem s;
     iommu_group_refs := iommu_group_refs s; dma_owners := dma_owners s;
     ctx_users := ctx_users s; idevs := idevs s; ictx_log := ictx_log s |}
  = s.
Proof. by destruct s. Qed.

(** Dropping the only reference of a group that was just allocated and
    is not in the xarray frees it and gives the group reference back. *)
Lemma put_new_group pf s new group data :
  igroup_mem s !! new = None →
  (∀ id, groups s !! id ≠ Some new) →
  ig_hwpt data = None → device_list data = [] →
  iommufd_put_group pf new
    (set_igroup_mem
       (set_iommu_group_refs s (iommu_group_refs s ⊎ {[+ group +]}))
       (<[new := {| ge_group := group; ge_ref := 1; ge_data := data |}]>
          (igroup_mem s)))
  = s.
Proof.
  intros Hnew Hxa Hh Hd. unfold iommufd_put_group. simpl.
  rewrite lookup_insert_eq. simpl.
  unfold iommufd_group_release. simpl. rewrite lookup_insert_eq. simpl.
  rewrite Hh, Hd. simpl.
  unfold xa_cmpxchg.
  rewrite bool_decide_eq_false_2 by apply Hxa. simpl.
  unfold iommu_group_put, set_igroup_mem, set_iommu_group_refs, set_groups.
  simpl.
  rewrite gmultiset_add_remove, !insert_insert_eq, delete_insert_eq.
  rewrite delete_id by done. apply ictx_state_eta.
Qed.

Lemma groups_wf_fresh pf s new :
  groups_wf pf s → igroup_mem s !! new = None →
  ∀ id, groups s !! id ≠ Some new.
Proof.
  intros Hwf Hnew id Hid. destruct (Hwf id new Hid) as (g & Hg & _).
  congruence.
Qed.

(** What [iommufd_get_group] does in a context that keeps the invariant
    of its xarray, case by case. *)
Lemma get_group_cases pf device s :
  groups_wf pf s → Inj (=) (=) (iommu_group_id pf) →
  (∀ p, kzalloc_igroup pf = Some p → igroup_mem s !! p = None) →
  match iommu_group_get pf device with
  | None => iommufd_get_group pf device s = Some (s, inr ENODEV)
  | Some group =>
      match groups s !! iommu_group_id pf group with
      | Some ptr =>
          ∃ g, igroup_mem s !! ptr = Some g ∧ ge_group g = group
               ∧ 0 < ge_ref g
               ∧ iommufd_get_group pf device s
                 = Some (set_igroup_mem s
                           (<[ptr := set_ge_ref g (ge_ref g + 1)]>
                              (igroup_mem s)),
                         inl ptr)
      | None =>
          match kzalloc_igroup pf with
          | None => iommufd_get_group pf device s = Some (s, inr ENOMEM)
          | Some new =>
              match xa_store_error pf with
              | Some e => iommufd_get_group pf device s = Some (s, inr e)
              | None =>
                  iommufd_get_group pf device s
                  = Some
                      (set_groups
                         (set_igroup_mem
                            (set_iommu_group_refs s
                               (iommu_group_refs s ⊎ {[+ group +]}))
                            (<[new :=
                                 {| ge_group := group; ge_ref := 1;
                                    ge_data :=
                                      {| ig_hwpt := None; device_list := [];
                                         sw_msi_start := PHYS_ADDR_MAX |}
                                 |}]> (igroup_mem s)))
                         (<[iommu_group_id pf group := new]> (groups s)),
                       inl new)
              end
          end
      end
  end.
Proof.
  intros Hwf Hinj Hfresh. unfold iommufd_get_group.
  destruct (iommu_group_get pf device) as [group|]; [|done].
  cbn zeta. cbn [groups set_iommu_group_refs].
  destruct (groups s !! iommu_group_id pf group) as [ptr|] eqn:Hxa.
  - destruct (Hwf _ _ Hxa) as (g & Hg & Hid & Href).
    apply Hinj in Hid. exists g. repeat (split; [done|]).
    unfold iommufd_group_try_get. cbn [igroup_mem set_iommu_group_refs].
    rewrite Hg, Hid, Nat.eqb_refl. cbn [negb].
    assert ((ge_ref g =? 0) = false) as -> by (apply Z.eqb_neq; lia).
    unfold iommu_group_put, set_igroup_mem, set_iommu_group_refs. simpl.
    by rewrite gmultiset_add_remove.
  - cbn [iommufd_group_try_get].
    destruct (kzalloc_igroup pf) as [new|] eqn:Hk.
    2:{ unfold iommu_group_put, set_iommu_group_refs. simpl.
        by rewrite gmultiset_add_remove, ictx_state_eta. }
    specialize (Hfresh new eq_refl).
    cbn [get_group_loop]. unfold xa_cmpxchg.
    cbn [groups set_igroup_mem set_iommu_group_refs].
    rewrite Hxa. rewrite bool_decide_eq_true_2 by done.
    change (igroup_mem
              (set_iommu_group_refs s (iommu_group_refs s ⊎ {[+ group +]})))
      with (igroup_mem s).
    destruct (xa_store_error pf) as [e|].
    + rewrite put_new_group; try done. by apply (groups_wf_fresh pf).
    + by rewrite bool_decide_eq_true_2.
Qed.

Lemma put_group_other_fields pf ptr s :
  dma_owners (iommufd_put_group pf ptr s) = dma_owners s
  ∧ ctx_users (iommufd_put_group pf ptr s) = ctx_users s
  ∧ idevs (iommufd_put_group pf ptr s) = idevs s.
Proof.
  unfold iommufd_put_group.
  destruct (igroup_mem s !! ptr) as [g|]; [|done].
  destruct (ge_ref g - 1 =? 0); [|done].
  unfold iommufd_group_release. simpl. rewrite lookup_insert_eq. simpl.
  by destruct (_ || _).
Qed.

Lemma put_group_ext pf ptr s t :
  groups s = groups t → igroup_mem s = igroup_mem t →
  iommu_group_refs s = iommu_group_refs t →
  groups (iommufd_put_group pf ptr s) = groups (iommufd_put_group pf ptr t)
  ∧ igroup_mem (iommufd_put_group pf ptr s)
    = igroup_mem (iommufd_put_group pf ptr t)
  ∧ iommu_group_refs (iommufd_put_group pf ptr s)
    = iommu_group_refs (iommufd_put_group pf ptr t).
Proof.
  intros Hg Hm Hr. unfold iommufd_put_group. rewrite Hm.
  destruct (igroup_mem t !! ptr) as [g|]; [|done].
  destruct (ge_ref g - 1 =? 0); [|done].
  unfold iommufd_group_release. simpl. rewrite !lookup_insert_eq. simpl.
  destruct (_ || _); simpl; by rewrite Hg, Hr.
Qed.

(** Dropping the reference just taken on a group that is alive gives
    the group back as it was. *)
Lemma put_existing_group pf s ptr g :
  igroup_mem s !! ptr = Some g → 0 < ge_ref g →
  iommufd_put_group pf ptr
    (set_igroup_mem s
       (<[ptr := set_ge_ref g (ge_ref g + 1)]> (igroup_mem s)))
  = s.
Proof.
  intros Hg Href.
  unfold iommufd_put_group. simpl. rewrite lookup_insert_eq. simpl.
  assert ((ge_ref g + 1 - 1 =? 0) = false) as ->
    by (apply Z.eqb_neq; lia).
  unfold set_igroup_mem, set_ge_ref. simpl.
  rewrite insert_insert_eq.
  replace (ge_ref g + 1 - 1) with (ge_ref g) by lia.
  replace {| ge_group := ge_group g; ge_ref := ge_ref g;
             ge_data := ge_data g |} with g by (by destruct g).
  rewrite insert_id by done. apply ictx_state_eta.
Qed.

(** Dropping the only reference of a group that was just created and
    installed in the xarray takes it out of the xarray, frees it and
    gives the group reference back. *)
Lemma put_created_group pf s new group data :
  igroup_mem s !! new = None →
  groups s !! iommu_group_id pf group = None →
  ig_hwpt data = None → device_list data = [] →
  iommufd_put_group pf new
    (set_groups
       (set_igroup_mem
          (set_iommu_group_refs s (iommu_group_refs s ⊎ {[+ group +]}))
          (<[new := {| ge_group := group; ge_ref := 1; ge_data := data |}]>
             (igroup_mem s)))
       (<[iommu_group_id pf group := new]> (groups s)))
  = s.
Proof.
  intros Hnew Hxa Hh Hd.
  unfold iommufd_put_group. simpl. rewrite lookup_insert_eq. simpl.
  unfold iommufd_group_release. simpl. rewrite lookup_insert_eq. simpl.
  rewrite Hh, Hd. simpl.
  unfold xa_cmpxchg. rewrite lookup_insert_eq.
  rewrite bool_decide_eq_true_2 by done. simpl.
  unfold iommu_group_put, set_igroup_mem, set_iommu_group_refs, set_groups.
  simpl.
  rewrite gmultiset_add_remove, !insert_insert_eq, !delete_insert_eq.
  rewrite !delete_id by done. apply ictx_state_eta.
Qed.

(** After a successful [iommufd_get_group], [iommufd_put_group] gives
    back the xarray, the groups and the group references of before, also
    when other parts of the context have changed in between. *)
Lemma get_group_undo pf device s s1 ptr t :
  groups_wf pf s → Inj (=) (=) (iommu_group_id pf) →
  (∀ p, kzalloc_igroup pf = Some p → igroup_mem s !! p = None) →
  iommufd_get_group pf device s = Some (s1, inl ptr) →
  groups t = groups s1 → igroup_mem t = igroup_mem s1 →
  iommu_group_refs t = iommu_group_refs s1 →
  groups (iommufd_put_group pf ptr t) = groups s
  ∧ igroup_mem (iommufd_put_group pf ptr t) = igroup_mem s
  ∧ iommu_group_refs (iommufd_put_group pf ptr t) = iommu_group_refs s.
Proof.
  intros Hwf Hinj Hfresh Hget H1 H2 H3.
  destruct (put_group_ext pf ptr t s1 H1 H2 H3) as (-> & -> & ->).
  pose proof (get_group_cases pf device s Hwf Hinj Hfresh) as Hc.
  destruct (iommu_group_get pf device) as [group|]; [|congruence].
  destruct (groups s !! iommu_group_id pf group) as [p|] eqn:Hxa.
  - destruct Hc as (g & Hg & Hgrp & Href & Heq).
    rewrite Heq in Hget. injection Hget as <- <-.
    by rewrite put_existing_group.
  - destruct (kzalloc_igroup pf) as [new|] eqn:Hk; [|congruence].
    destruct (xa_store_error pf) as [e|]; [congruence|].
    rewrite Hc in Hget. injection Hget as <- <-.
    rewrite put_created_group; try done. by apply Hfresh.
Qed.

(** [iommufd_get_group] returns: an error with the context as it was,
    or a group that stands for the [iommu_group] of the device. *)
Lemma get_group_outcome pf device s :
  groups_wf pf s → Inj (=) (=) (iommu_group_id pf) →
  (∀ p, kzalloc_igroup pf = Some p → igroup_mem s !! p = None) →
  ∃ s1 r1,
    iommufd_get_group pf device s = Some (s1, r1)
    ∧ match r1 with
      | inr _ => s1 = s
      | inl ptr =>
          ∃ group g, iommu_group_get pf device = Some group
                     ∧ igroup_mem s1 !! ptr = Some g ∧ ge_group g = group
      end.
Proof.
  intros Hwf Hinj Hfresh.
  pose proof (get_group_cases pf device s Hwf Hinj Hfresh) as Hc.
  destruct (iommu_group_get pf device) as [group|];
    [|eexists _, _; split; [exact Hc|done]].
  destruct (groups s !! iommu_group_id pf group) as [p|].
  - destruct Hc as (g & Hg & Hgrp & Href & Heq).
    eexists _, _. split; [exact Heq|].
    exists group, (set_ge_ref g (ge_ref g + 1)). simpl.
    by rewrite lookup_insert_eq.
  - destruct (kzalloc_igroup pf) as [new|];
      [|eexists _, _; split; [exact Hc|done]].
    destruct (xa_store_error pf) as [e|];
      [eexists _, _; split; [exact Hc|done]|].
    eexists _, _. split; [exact Hc|].
    eexists group, _. simpl. by rewrite lookup_insert_eq.
Qed.

Lemma get_group_other_fields pf device s s' r :
  groups_wf pf s → Inj (=) (=) (iommu_group_id pf) →
  (∀ p, kzalloc_igroup pf = Some p → igroup_mem s !! p = None) →
  iommufd_get_group pf device s = Some (s', r) →
  dma_owners s' = dma_owners s ∧ ctx_users s' = ctx_users s
  ∧ idevs s' = idevs s.
Proof.
  intros Hwf Hinj Hfresh Hget.
  pose proof (get_group_cases pf device s Hwf Hinj Hfresh) as Hc.
  destruct (iommu_group_get pf device) as [group|];
    [|rewrite Hc in Hget; by injection Hget as <- <-].
  destruct (groups s !! iommu_group_id pf group) as [p|].
  { destruct Hc as (g & _ & _ & _ & Heq).
    rewrite Heq in Hget. by injection Hget as <- <-. }
  destruct (kzalloc_igroup pf) as [new|];
    [|rewrite Hc in Hget; by injection Hget as <- <-].
  destruct (xa_store_error pf) as [e|];
    rewrite Hc in Hget; by injection Hget as <- <-.
Qed.

(** The result of [iommufd_device_bind], in terms of the result of
    [iommufd_get_group]. *)
Lemma bind_spec pf device s :
  groups_wf pf s → Inj (=) (=) (iommu_group_id pf) →
  (∀ p, kzalloc_igroup pf = Some p → igroup_mem s !! p = None) →
  ∃ s' r,
    iommufd_device_bind pf device s = Some (s', r)
    ∧ match r with
      | inr e => same_ictx s s'
      | inl id =>
          ∃ s1 ptr group,
            iommufd_get_group pf device s = Some (s1, inl ptr)
            ∧ iommu_group_get pf device = Some group
            ∧ cap_cache_coherency pf device = true
            ∧ iommu_device_claim_dma_owner pf device = Success
            ∧ object_alloc_device pf = inl id
            ∧ (iommufd_selftest_is_mock_dev pf device = true
               ∨ iommu_group_has_isolated_msi pf group = true
               ∨ allow_unsafe_interrupts pf = true)
            ∧ groups s' = groups s1 ∧ igroup_mem s' = igroup_mem s1
            ∧ iommu_group_refs s' = iommu_group_refs s1
            ∧ dma_owners s' = dma_owners s ⊎ {[+ device +]}
            ∧ ctx_users s'
              = (if iommufd_selftest_is_mock_dev pf device
                 then ctx_users s else ctx_users s + 1)
            ∧ idevs s'
              = <[id := {| bd_idev :=
                             {| dev := device;
                                dev_enforce_cache_coherency :=
                                  cap_enforce_cache_coherency pf device |};
                           bd_igroup := ptr; bd_users := 2;
                           bd_finalized := true |}]> (idevs s)
      end.
Proof.
  intros Hwf Hinj Hfresh. unfold iommufd_device_bind.
  destruct (cap_cache_coherency pf device) eqn:Hcap; simpl.
  2:{ eexists _, _. split; [done|]. by repeat split. }
  destruct (get_group_outcome pf device s Hwf Hinj Hfresh)
    as (s1 & r1 & Hget & Hres).
  destruct (get_group_other_fields _ _ _ _ _ Hwf Hinj Hfresh Hget)
    as (Hdma1 & Hcu1 & Hid1).
  rewrite Hget.
  destruct r1 as [ptr|e].
  2:{ subst s1. eexists _, _. split; [done|]. by repeat split. }
  destruct Hres as (group & g & Hgrp & Hg1 & Hgg).
  rewrite Hg1, Hgg.
  assert (∀ t, groups t = groups s1 → igroup_mem t = igroup_mem s1 →
               iommu_group_refs t = iommu_group_refs s1 →
               dma_owners t = dma_owners s → ctx_users t = ctx_users s →
               idevs t = idevs s →
               same_ictx s (iommufd_put_group pf ptr t)) as Hback.
  { intros t H1 H2 H3 H4 H5 H6.
    destruct (get_group_undo _ _ _ _ _ t Hwf Hinj Hfresh Hget H1 H2 H3)
      as (E1 & E2 & E3).
    destruct (put_group_other_fields pf ptr t) as (E4 & E5 & E6).
    unfold same_ictx. rewrite E1, E2, E3, E4, E5, E6. done. }
  set (unsafe := negb (iommufd_selftest_is_mock_dev pf device)
                 && negb (iommu_group_has_isolated_msi pf group)).
  destruct (unsafe && negb (allow_unsafe_interrupts pf)) eqn:Hperm.
  { eexists _, _. split; [done|]. by apply Hback. }
  assert (iommufd_selftest_is_mock_dev pf device = true
          ∨ iommu_group_has_isolated_msi pf group = true
          ∨ allow_unsafe_interrupts pf = true) as Hsafe.
  { subst unsafe.
    destruct (iommufd_selftest_is_mock_dev pf device); [by left|].
    destruct (iommu_group_has_isolated_msi pf group); [by right; left|].
    destruct (allow_unsafe_interrupts pf); [by right; right|done]. }
  destruct (iommu_device_claim_dma_owner pf device) eqn:Hclaim.
  2:{ eexists _, _. split; [done|]. apply Hback; by destruct unsafe. }
  destruct (object_alloc_device pf) as [id|e] eqn:Halloc.
  2:{ eexists _, _. split; [done|].
      apply Hback; destruct unsafe; simpl; try done;
        by rewrite gmultiset_add_remove. }
  eexists _, _. split; [done|].
  exists s1, ptr, group.
  repeat (split; [done|]).
  destruct unsafe, (iommufd_selftest_is_mock_dev pf device); simpl;
    rewrite ?Hdma1, ?Hcu1, ?Hid1; done.
Qed.

(** A successful [iommufd_hw_pagetable_alloc] without an immediate
    attach. *)
Lemma alloc_no_attach_success pf idev parent user_data w :
  ∀ w' o,
      iommufd_hw_pagetable_alloc pf idev parent user_data false w
      = (w', Success, o) →
      ∃ id d h,
        o = Some id ∧ iommufd_object_alloc pf = Some id
        ∧ drv_domain_alloc pf = Some d
        ∧ objs w' !! id = Some h
        ∧ hwpt_domain h = Some d ∧ hwpt_parent h = parent
        ∧ auto_domain h = false ∧ hwpt_lockable h = false
        ∧ igroup w' = igroup w ∧ group_domain w' = group_domain w
        ∧ ioas_users w' = ioas_users w + 1
        ∧ match parent with
          | None =>
              hwpt_list w' = hwpt_list w ++ [id]
              ∧ domains (ioas_iopt w') = domains (ioas_iopt w) ++ [d]
          | Some p =>
              hwpt_list w' = hwpt_list w
              ∧ ioas_iopt w' = ioas_iopt w
              ∧ ∀ hp, objs w !! p = Some hp → p ≠ id →
                      ∃ hp', objs w' !! p = Some hp'
                             ∧ hwpt_users hp' = hwpt_users hp + 1
          end.
Proof.
  intros w' o H. unfold iommufd_hw_pagetable_alloc in H.
  destruct (_ && negb (ops_domain_alloc_user pf)); [done|].
  destruct (iommufd_object_alloc pf) as [id|]; [|done].
  cbn zeta in H.
  destruct (drv_domain_alloc pf) as [d|]; [|done].
  destruct (negb (drv_domain_type_ok pf)); [done|].
  destruct (if dev_enforce_cache_coherency idev then _ else _)
    as [h4 rc4] eqn:Hcc.
  assert (upgraded
            {| hwpt_domain := Some d; hwpt_parent := parent;
               auto_domain := false; enforce_cache_coherency := false;
               msi_cookie := false; hwpt_users := 1;
               hwpt_lockable := false |} h4) as Hup.
  { destruct (dev_enforce_cache_coherency idev).
    - apply enforce_cc_upgraded in Hcc as (? & _). done.
    - inversion Hcc; subst. apply upgraded_refl. }
  destruct Hup as (Hd4 & Hp4 & Ha4 & Hl4 & _). simpl in *.
  destruct rc4; [|done].
  destruct (iommufd_hw_pagetable_link_ioas pf id _) as [w6 rc6] eqn:Hlink.
  destruct rc6; [|done]. injection H as <- <-.
  exists id, d, h4. split; [done|]. split; [done|]. split; [done|].
  unfold iommufd_hw_pagetable_link_ioas in Hlink. simpl in Hlink.
  rewrite lookup_insert_eq, Hp4 in Hlink.
  destruct parent as [p|].
  - injection Hlink as <-. simpl. rewrite lookup_insert_eq.
    do 10 (split; [done|]).
    intros hp Hhp Hne. unfold add_hwpt_users. simpl.
    rewrite !lookup_insert_ne by done.
    rewrite lookup_alter_eq, lookup_insert_ne, Hhp by done.
    simpl. eexists. split; [done|]. done.
  - rewrite Hd4 in Hlink.
    destruct (iopt_table_add_domain pf d _) as [w7 rc7] eqn:Hadd.
    destruct rc7; [|done]. injection Hlink as <-.
    unfold iopt_table_add_domain in Hadd. simpl in Hadd.
    destruct (negb (forallb _ _)); [done|].
    destruct (fill_areas pf d _ _) as [[entries' filled] [|e]]; [|done].
    injection Hadd as <-. simpl. rewrite lookup_insert_eq.
    repeat (split; [done|]). done.
Qed.

(** ** The group across attaches *)

(** A successful attach leaves the group attached to the hardware page
    table it was called on. *)
Lemma attach_success_group pf id idev w w' :
  group_wf w →
  iommufd_hw_pagetable_attach pf id idev w = (w', Success) →
  ig_hwpt (igroup w') = Some id ∧ is_Some (objs w' !! id)
  ∧ device_list (igroup w') = device_list (igroup w) ++ [dev idev].
Proof.
  intros Hwf Hatt.
  pose proof (attach_success _ _ _ _ _ Hatt) as (Hdl' & _ & h0 & h' & _ & Hh' & _).
  apply attach_success_inv in Hatt
    as (h & h1 & h3 & iopt2 & sw & Hobj & Hg & _ & _ & _ & _ & _ & _ & _
        & _ & _ & Hcase).
  split; [|split; [by exists h'|done]].
  unfold group_wf in Hwf.
  destruct (device_list (igroup w)) as [|d0 dl] eqn:Hdl.
  - by destruct Hcase as (d & _ & _ & _ & ? & _).
  - destruct Hcase as (_ & -> & _).
    destruct Hg as [Hg|Hg]; [|done].
    rewrite Hg in Hwf. by destruct Hwf.
Qed.

(** A failed attach leaves the devices of the group, its hardware page
    table and its domain as they are. *)
Lemma attach_failure_group pf id idev w w' e :
  iommufd_hw_pagetable_attach pf id idev w = (w', Failure e) →
  device_list (igroup w') = device_list (igroup w)
  ∧ ig_hwpt (igroup w') = ig_hwpt (igroup w)
  ∧ group_domain w' = group_domain w.
Proof.
  unfold iommufd_hw_pagetable_attach.
  destruct (objs w !! id) as [hwpt|] eqn:Hobj; [|by inversion 1].
  destruct (match ig_hwpt (igroup w) with Some _ => _ | None => _ end);
    [by inversion 1|].
  destruct (if dev_enforce_cache_coherency idev then _ else _)
    as [hwpt1 rc1] eqn:Hcc.
  destruct rc1; [|by inversion 1].
  cbn [ioas_iopt set_objs igroup].
  destruct (iopt_table_enforce_dev_resv_regions _ _ _ _)
    as [[iopt2 sw] rc2].
  destruct rc2; [|by inversion 1].
  cbn [device_list igroup set_igroup set_iopt set_sw_msi_start].
  destruct (device_list (igroup w)) as [|d0 dl] eqn:Hdl; [|by inversion 1].
  destruct (iommufd_group_setup_msi _ _ _) as [hwpt3 rc3] eqn:Hmsi.
  destruct rc3; [|by inversion 1; subst].
  destruct (hwpt_domain hwpt3) as [d|]; [|by inversion 1; subst].
  destruct (iommu_attach_group pf d); by inversion 1; subst.
Qed.

Lemma attach_failure_group_wf pf id idev w w' e :
  group_wf w →
  iommufd_hw_pagetable_attach pf id idev w = (w', Failure e) →
  group_wf w'.
Proof.
  intros Hwf Hatt.
  pose proof (attach_failure_group _ _ _ _ _ _ Hatt) as (Hdl & Hig & Hgd).
  unfold group_wf in *. rewrite Hig, Hdl, Hgd.
  destruct (ig_hwpt (igroup w)) as [cur|]; [|done].
  destruct (attach_objs_shape _ _ _ _ _ _ Hatt)
    as [[_ ->]|(h & h' & Hobj & -> & _)]; [done|].
  destruct (decide (cur = id)) as [->|Hne].
  - rewrite lookup_insert_eq. by eexists.
  - by rewrite lookup_insert_ne.
Qed.

(** The loop of [iommufd_device_auto_get_domain] keeps the group well
    formed, and a hardware page table it succeeds with is the one the
    group is attached to, with the device as the last one attached. *)
Lemma auto_loop_group pf idev pt_id l :
  ∀ w w' res,
    group_wf w →
    auto_get_domain_loop pf idev l pt_id w = (w', res) →
    match res with
    | Some (Success, id) =>
        ig_hwpt (igroup w') = Some id ∧ is_Some (objs w' !! id)
        ∧ ∃ dl, device_list (igroup w') = dl ++ [dev idev]
    | Some (Failure _, _) => True
    | None => group_wf w'
    end.
Proof.
  induction l as [|c tl IH]; intros w w' res Hwf H; simpl in H.
  { by inversion H; subst. }
  destruct (objs w !! c) as [hc|] eqn:Hc; [|by apply (IH w)].
  destruct (auto_domain hc) eqn:Hauto; simpl in H; [|by apply (IH w)].
  destruct (hwpt_lockable hc); simpl in H; [|by apply (IH w)].
  destruct (iommufd_hw_pagetable_attach pf c idev w) as [w1 r1] eqn:Hatt.
  destruct (bool_decide (r1 = Failure EINVAL)) eqn:Hr.
  - apply bool_decide_eq_true in Hr. subst r1.
    apply (IH w1); [|done]. by eapply attach_failure_group_wf.
  - inversion H; subst. destruct r1 as [|e]; [|done].
    destruct (attach_success_group _ _ _ _ _ Hwf Hatt) as (? & ? & ?).
    split; [done|]. split; [done|]. by eexists.
Qed.

(** A successful allocation with an immediate attach leaves the group
    attached to the new hardware page table. *)
Lemma alloc_attach_success_group pf idev w w' id :
  group_wf w →
  iommufd_hw_pagetable_alloc pf idev None false true w
  = (w', Success, Some id) →
  ig_hwpt (igroup w') = Some id.
Proof.
  intros Hwf. unfold iommufd_hw_pagetable_alloc. simpl.
  destruct (iommufd_object_alloc pf) as [n|]; [|by inversion 1].
  destruct (drv_domain_alloc pf) as [d|]; [|by inversion 1].
  destruct (negb (drv_domain_type_ok pf)); [by inversion 1|].
  destruct (if dev_enforce_cache_coherency idev then _ else _)
    as [hwpt4 rc4] eqn:Hcc.
  destruct rc4; [|by inversion 1].
  destruct (iommufd_hw_pagetable_attach _ _ _ _) as [w5 rc5] eqn:Hatt.
  destruct rc5; [|by inversion 1].
  destruct (iommufd_hw_pagetable_link_ioas pf n w5) as [w6 rc6] eqn:Hlink.
  destruct rc6; inversion 1; subst.
  apply link_ioas_success in Hlink as (-> & _).
  refine (proj1 (attach_success_group _ _ _ _ _ _ Hatt)).
  unfold group_wf in *. simpl.
  destruct (ig_hwpt (igroup w)) as [cur|]; [|done].
  destruct (decide (cur = id)) as [->|Hne].
  - rewrite lookup_insert_eq. by eexists.
  - by rewrite !lookup_insert_ne.
Qed.

(** ** The accessor set *)

Lemma alter_placed {A : Type} (f : A → A) (k : nat) (l : list A) (a : A) :
  alter f (length (take k l)) (take k l ++ a :: drop k l)
  = take k l ++ f a :: drop k l.
Proof.
  rewrite <-(Nat.add_0_r (length (take k l))). by rewrite alter_app_r.
Qed.

Lemma delete_placed {A : Type} (k : nat) (l : list A) (a : A) :
  delete (length (take k l)) (take k l ++ a :: drop k l) = l.
Proof. by rewrite delete_middle, take_drop. Qed.

Lemma placed_Permutation {A : Type} (k : nat) (l : list A) (a : A) :
  take k l ++ a :: drop k l ≡ₚ a :: l.
Proof. by rewrite <-Permutation_middle, take_drop. Qed.

Lemma notify_unmap_loop_app l l' iova length :
  notify_unmap_loop (l ++ l') iova length
  = notify_unmap_loop l iova length ++ notify_unmap_loop l' iova length.
Proof.
  induction l as [|a l IH]; simpl; [done|].
  destruct (iommufd_lock_obj a); simpl; by rewrite IH.
Qed.

Lemma set_access_list_id iopt : set_access_list iopt (access_list iopt) = iopt.
Proof. by destruct iopt. Qed.

Lemma world_put_ioas w n :
  set_ioas_users (set_ioas_users w (ioas_users w + n)) (ioas_users w + n - n)
  = w.
Proof.
  destruct w. unfold set_ioas_users. simpl. f_equal. lia.
Qed.

(** ** A failed attach, whatever the device holds *)






(** * The claims *)

(** C1, as amended: for an access that may pin,
    [iommufd_access_pin_pages] fails with EINVAL when the length is zero
    and with EOVERFLOW when [iova + length - 1] overflows.  Otherwise the
    contiguous Areas from [iova] are visited in IOVA order and the first
    one that fails decides the error ([pin_verdict]): EINVAL when the Area
    is marked [prevent_access] or the range is misaligned in it, EPERM
    when the direction exceeds its permissions, the error of the Pages
    Store when pinning its pages fails.  When no visited Area fails, the
    call fails with ENOENT if the range is not fully covered by contiguous
    Areas, and over a well-formed tree it otherwise succeeds and returns
    the pages of the visited Areas in IOVA order. *)
Theorem pin_pages_result iopt access iova length flags st :
  pin_ops_ok access = true → 0 ≤ iova → 0 ≤ length →
  let pin := iommufd_access_pin_pages iopt access iova length flags st in
  let last := request_last iova length in
  let steps := request_areas iopt iova length in
  (length = 0 → pin.1.2 = Failure EINVAL)
  ∧ (0 < length → ULONG_MAX < last → pin.1.2 = Failure EOVERFLOW)
  ∧ (0 < length → last ≤ ULONG_MAX →
     match first_error (pin_verdict iopt last flags) steps with
     | Some e => pin.1.2 = Failure e
     | None =>
         (¬ range_covered iopt iova last → pin.1.2 = Failure ENOENT)
         ∧ (iopt_wf iopt = true → range_covered iopt iova last →
            pin.1.2 = Success
            ∧ pin.2 = concat (step_pages last <$> steps))
     end).
Proof.
  intros Hops Hiova Hlen pin last steps.
  subst pin last steps. unfold request_areas, request_last.
  rewrite pin_pages_rc, Hops. cbn [negb].
  split; [by intros ->|].
  split.
  { intros Hpos Hov.
    assert ((length =? 0) = false) as -> by (apply Z.eqb_neq; lia).
    pose proof (check_add_overflow_yes _ _ Hov) as Hyes.
    destruct (check_add_overflow iova (length - 1)) as [overflow last].
    simpl in Hyes. by subst. }
  intros Hpos Hov.
  assert ((length =? 0) = false) as -> by (apply Z.eqb_neq; lia).
  rewrite check_add_overflow_no by lia.
  destruct (first_error _ _) as [e|] eqn:Herr; [done|].
  split.
  - intros Hcov.
    destruct (iopt_area_contig_done _) eqn:Hdone; [|done].
    by apply contig_done_covered in Hdone.
  - intros Hwf Hcov.
    assert (iova ≤ iova + (length - 1)) as Hle by lia.
    rewrite (covered_contig_done _ _ _ Hwf Hle Hcov).
    split; [done|].
    destruct (iommufd_access_pin_pages _ _ _ _ _ _) as [[st1 r] out] eqn:Hpin.
    assert (r = Success) as ->.
    { change r with (st1, r, out).1.2. rewrite <-Hpin, pin_pages_rc, Hops.
      cbn [negb].
      assert ((length =? 0) = false) as -> by (apply Z.eqb_neq; lia).
      rewrite check_add_overflow_no by lia. rewrite Herr.
      by rewrite (covered_contig_done _ _ _ Hwf Hle Hcov). }
    apply pin_pages_success in Hpin as (_ & _ & Hrun & _).
    rewrite check_add_overflow_no in Hrun by lia. cbn [snd] in Hrun.
    apply pin_run_success in Hrun as (_ & -> & _). done.
Qed.

(** C2: when [iommufd_access_pin_pages] fails, also after it has pinned
    the pages of a prefix of the covered areas, every access it added is
    removed before it returns: the per-area access counts, the accesses of
    every Pages Store, and so the per-page pin counts, are those of before
    the call. *)
Theorem pin_pages_error_unwinds iopt access iova length flags st st' e out :
  iommufd_access_pin_pages iopt access iova length flags st
  = (st', Failure e, out) →
  num_accesses st' = num_accesses st
  ∧ access_itree st' = access_itree st
  ∧ memory st' = memory st
  ∧ ∀ p index, access_pin_count st' p index = access_pin_count st p index.
Proof.
  intros H. apply pin_pages_failure_state in H as (Hn & Ht & Hm).
  repeat split; try done. intros p index.
  unfold access_pin_count. by rewrite Ht.
Qed.

(** C6: [iommufd_access_unpin_pages] over the range of a successful
    [iommufd_access_pin_pages] removes exactly the accesses that pin added
    and reports nothing.  The function returns no error code: a zero
    length, an overflowing range, and a range that is not fully covered by
    contiguous areas are each reported through [WARN_ON]. *)
Theorem unpin_pages_inverse_or_warn iopt access iova length flags st :
  (∀ st1 out,
     iommufd_access_pin_pages iopt access iova length flags st
     = (st1, Success, out) →
     iommufd_access_unpin_pages iopt iova length st1 = st)
  ∧ (length = 0 →
     iommufd_access_unpin_pages iopt iova length st
     = WARN_ON true WARN_ZERO_LENGTH st)
  ∧ (0 < length → ULONG_MAX < iova + (length - 1) →
     iommufd_access_unpin_pages iopt iova length st
     = WARN_ON true WARN_OVERFLOW st)
  ∧ (0 ≤ iova → 0 < length → iova + (length - 1) ≤ ULONG_MAX →
     ¬ range_covered iopt iova (iova + (length - 1)) →
     list.last (warnings (iommufd_access_unpin_pages iopt iova length st))
     = Some WARN_NOT_CONTIG).
Proof.
  repeat split.
  - intros st1 out Hpin.
    apply pin_pages_success in Hpin as (Hlen & Hov & Hrun & Hdone).
    unfold iommufd_access_unpin_pages.
    apply Z.eqb_neq in Hlen. rewrite Hlen.
    destruct (check_add_overflow iova (length - 1)) as [overflow last].
    simpl in *. subst overflow.
    rewrite (unpin_loop_after_pin _ _ _ _ _ _ _ Hrun).
    by rewrite Hdone.
  - intros ->. done.
  - intros Hlen Hov. unfold iommufd_access_unpin_pages.
    assert ((length =? 0) = false) as -> by (apply Z.eqb_neq; lia).
    pose proof (check_add_overflow_yes _ _ Hov) as Hyes.
    destruct (check_add_overflow iova (length - 1)) as [overflow last].
    simpl in Hyes. by subst.
  - intros Hiova Hlen Hov Hcov. unfold iommufd_access_unpin_pages.
    assert ((length =? 0) = false) as -> by (apply Z.eqb_neq; lia).
    rewrite check_add_overflow_no by lia.
    rewrite iopt_for_each_contig_area_spec. unfold loop_result.
    destruct (unpin_run_no_break (iova + (length - 1))
                (contig_areas iopt iova (iova + (length - 1))) st)
      as (st' & ->).
    destruct (iopt_area_contig_done _) eqn:Hdone.
    { by apply contig_done_covered in Hdone. }
    simpl. by rewrite last_snoc.
Qed.

(** C3: over a well-formed area tree, a call of
    [iommufd_access_pin_pages] or of [iommufd_access_rw] whose range
    intersects an Area marked [prevent_access] fails, and the accesses are
    afterwards those of before the call: no access is added over the
    Area. *)
Theorem prevent_access_blocks_new_access
    iopt access iova length flags buf st a x :
  iopt_wf iopt = true →
  a ∈ areas iopt → prevent_access a = true →
  0 ≤ iova → iova ≤ x < iova + length →
  node_start a ≤ x ≤ node_last a →
  let pin := iommufd_access_pin_pages iopt access iova length flags st in
  let rw := iommufd_access_rw iopt iova buf length flags st in
  is_failure pin.1.2 = true
  ∧ num_accesses pin.1.1 = num_accesses st
  ∧ access_itree pin.1.1 = access_itree st
  ∧ is_failure rw.1.2 = true
  ∧ num_accesses rw.1.1 = num_accesses st
  ∧ access_itree rw.1.1 = access_itree st.
Proof.
  intros Hwf Ha Hprev Hiova Hx Hxa pin rw.
  assert (∀ last, (check_add_overflow iova (length - 1)) = (false, last) →
                  iova ≤ x ≤ last) as Hlast.
  { intros last Hov. unfold check_add_overflow in Hov.
    inversion Hov as [[Hf Hl]]. apply Z.ltb_ge in Hf.
    unfold ULONG_MAX in Hf. rewrite Z.mod_small by lia. lia. }
  assert (is_failure pin.1.2 = true) as Hpin.
  { subst pin.
    destruct (iommufd_access_pin_pages _ _ _ _ _ _) as [[st1 r] out] eqn:H.
    destruct r; [|done]. exfalso.
    apply pin_pages_success in H as (Hlen & Hov & Hrun & Hdone).
    destruct (check_add_overflow iova (length - 1)) as [o last] eqn:Hc.
    simpl in *. subst o.
    destruct (contig_done_visits _ _ _ _ _ Hwf Hdone Ha (Hlast _ eq_refl) Hxa)
      as (step & Hin & Heq).
    destruct (run_steps_continue _ _ _ _ _ _ Hrun Hin) as (s0 & s1 & Hb).
    apply pin_body_continue in Hb. congruence. }
  assert (is_failure rw.1.2 = true) as Hrw.
  { subst rw.
    destruct (iommufd_access_rw _ _ _ _ _ _) as [[st1 r] buf1] eqn:H.
    destruct r; [|done]. exfalso.
    apply rw_success in H as (Hlen & Hov & (off1 & Hrun) & Hdone).
    destruct (check_add_overflow iova (length - 1)) as [o last] eqn:Hc.
    simpl in *. subst o.
    destruct (contig_done_visits _ _ _ _ _ Hwf Hdone Ha (Hlast _ eq_refl) Hxa)
      as (step & Hin & Heq).
    destruct (run_steps_continue _ _ _ _ _ _ Hrun Hin) as (s0 & s1 & Hb).
    apply rw_body_continue in Hb. congruence. }
  split; [done|].
  assert (num_accesses pin.1.1 = num_accesses st
          ∧ access_itree pin.1.1 = access_itree st) as [? ?].
  { subst pin.
    destruct (iommufd_access_pin_pages _ _ _ _ _ _) as [[st1 r] out] eqn:H.
    destruct r; [done|].
    apply pin_pages_failure_state in H as (? & ? & _). done. }
  destruct (rw_pins iopt iova buf length flags st) as (? & ? & _).
  done.
Qed.

(** C7: [iommufd_access_rw] makes the coverage checks and the permission
    check of [iommufd_access_pin_pages], with the same errors, for every
    request, and holds no pin when it returns: the accesses are as they
    were before the call.  A zero length fails with EINVAL and an
    overflow of [iova + length - 1] with EOVERFLOW; otherwise the
    contiguous Areas from [iova] are visited in IOVA order and the first
    one that fails decides the error: EINVAL for an Area marked
    [prevent_access], EPERM when the direction exceeds the permissions of
    the Area (a write to an Area without IOMMU_WRITE, a read of one
    without IOMMU_READ), the error of the Pages Store otherwise; when no
    visited Area fails, the call fails with ENOENT if the range is not
    fully covered by contiguous Areas and otherwise succeeds.  At every
    Area the verdict of [iommufd_access_pin_pages] is that of
    [iommufd_access_rw] unless the range is misaligned in the Area, which
    only pinning refuses; so the two return the same code whenever the
    access may pin and the range is aligned in the Areas on its way. *)
Theorem rw_checks_as_pin_pages iopt access iova buf length flags st :
  0 ≤ iova → 0 ≤ length →
  let rw := iommufd_access_rw iopt iova buf length flags st in
  let pin := iommufd_access_pin_pages iopt access iova length flags st in
  let last := request_last iova length in
  let steps := request_areas iopt iova length in
  let aligned step := iopt_area_contig_is_aligned (iter_at last step) in
  (num_accesses rw.1.1 = num_accesses st
   ∧ access_itree rw.1.1 = access_itree st)
  ∧ (length = 0 → rw.1.2 = Failure EINVAL)
  ∧ (0 < length → ULONG_MAX < last → rw.1.2 = Failure EOVERFLOW)
  ∧ (0 < length → last ≤ ULONG_MAX →
     match first_error (rw_verdict iopt last flags) steps with
     | Some e => rw.1.2 = Failure e
     | None =>
         (¬ range_covered iopt iova last → rw.1.2 = Failure ENOENT)
         ∧ (iopt_wf iopt = true → range_covered iopt iova last →
            rw.1.2 = Success)
     end)
  ∧ (∀ step,
       (prevent_access (c_area step.2) = true →
        rw_verdict iopt last flags step = Some EINVAL)
       ∧ (prevent_access (c_area step.2) = false →
          Z.land (iommu_prot (c_area step.2))
            (if Z.land flags IOMMUFD_ACCESS_RW_WRITE =? 0
             then IOMMU_READ else IOMMU_WRITE) = 0 →
          rw_verdict iopt last flags step = Some EPERM)
       ∧ pin_verdict iopt last flags step
         = if aligned step then rw_verdict iopt last flags step
           else Some EINVAL)
  ∧ (pin_ops_ok access = true → Forall (λ step, aligned step = true) steps →
     rw.1.2 = pin.1.2).
Proof.
  intros Hiova Hlen rw pin last steps aligned.
  subst rw pin last steps aligned. unfold request_areas, request_last.
  split.
  { destruct (rw_pins iopt iova buf length flags st) as (? & ? & _). done. }
  rewrite rw_rc.
  split; [by intros ->|].
  split.
  { intros Hpos Hov.
    assert ((length =? 0) = false) as -> by (apply Z.eqb_neq; lia).
    pose proof (check_add_overflow_yes _ _ Hov) as Hyes.
    destruct (check_add_overflow iova (length - 1)) as [overflow last].
    simpl in Hyes. by subst. }
  split.
  { intros Hpos Hov.
    assert ((length =? 0) = false) as -> by (apply Z.eqb_neq; lia).
    rewrite check_add_overflow_no by lia.
    destruct (first_error _ _) as [e|] eqn:Herr; [done|].
    split.
    - intros Hcov.
      destruct (iopt_area_contig_done _) eqn:Hdone; [|done].
      by apply contig_done_covered in Hdone.
    - intros Hwf Hcov.
      assert (iova ≤ iova + (length - 1)) as Hle by lia.
      by rewrite (covered_contig_done _ _ _ Hwf Hle Hcov). }
  split.
  { intros step. unfold rw_verdict, pin_verdict, check_area_prot.
    split; [by intros ->|]. split.
    - intros -> Hprot.
      destruct (Z.land flags IOMMUFD_ACCESS_RW_WRITE =? 0); simpl;
        by rewrite Hprot.
    - destruct (prevent_access (c_area step.2));
        by destruct (iopt_area_contig_is_aligned _). }
  intros Hops Haligned.
  rewrite pin_pages_rc, Hops. cbn [negb].
  destruct (length =? 0) eqn:Hz; [done|]. apply Z.eqb_neq in Hz.
  destruct (Z.le_gt_cases (iova + (length - 1)) ULONG_MAX) as [Hno|Hov].
  - rewrite check_add_overflow_no by lia.
    rewrite (first_error_ext (rw_verdict iopt (iova + (length - 1)) flags)
               (pin_verdict iopt (iova + (length - 1)) flags)); [done|].
    eapply list.Forall_impl; [exact Haligned|].
    intros step Hal. simpl in Hal. unfold rw_verdict, pin_verdict.
    rewrite Hal. by rewrite orb_false_r.
  - pose proof (check_add_overflow_yes _ _ Hov) as Hyes.
    destruct (check_add_overflow iova (length - 1)) as [overflow last].
    simpl in Hyes. by subst.
Qed.

(** C10, as amended: [iommufd_access_notify_unmap] calls the unmap
    callback of every registered access whose object can be locked (one
    that is being destroyed is skipped), once and in the order of the
    access list, and passes the whole unmapped range to each: the accesses
    are not filtered by the pins they hold. *)
Theorem notify_unmap_calls_lockable iopt iova length :
  iommufd_access_notify_unmap iopt iova length
  = (λ a, {| call_data := data a; call_iova := iova;
             call_length := length |})
    <$> List.filter iommufd_lock_obj (access_list iopt).
Proof.
  unfold iommufd_access_notify_unmap.
  induction (access_list iopt) as [|a l IH]; simpl; [done|].
  destruct (iommufd_lock_obj a); simpl; by rewrite IH.
Qed.


(** C8: in [iommufd_device_auto_get_domain], a candidate whose attach
    fails with EINVAL is passed over, as are the hardware page tables
    that are not automatic domains or cannot be locked, and the search
    goes on with the next one.  The first candidate whose attach returns
    anything else ends the search: its result, success or error, is
    returned with its ID, and no later candidate is tried.  When every
    hardware page table of the list has been passed over, a new one is
    allocated with an immediate attach: an error of that is returned, and
    otherwise the call succeeds with the new, automatic, hardware page
    table linked to the IOAS and the device attached to it. *)
Theorem auto_get_domain_selects pf idev pt_id w :
  (∀ pre id post w1 w2 h r,
     hwpt_list w = pre ++ id :: post →
     skipped pf idev pre w w1 →
     objs w1 !! id = Some h → auto_domain h = true →
     hwpt_lockable h = true →
     iommufd_hw_pagetable_attach pf id idev w1 = (w2, r) →
     r ≠ Failure EINVAL →
     iommufd_device_auto_get_domain pf idev pt_id w = (w2, r, id))
  ∧ (∀ w1,
       skipped pf idev (hwpt_list w) w w1 →
       let '(w2, r, o) :=
         iommufd_hw_pagetable_alloc pf idev None false true w1 in
       let '(w3, r', pt_id') :=
         iommufd_device_auto_get_domain pf idev pt_id w in
       r' = r
       ∧ match r with
         | Failure _ => w3 = w2 ∧ pt_id' = pt_id
         | Success =>
             iommufd_object_alloc pf = Some pt_id'
             ∧ (∃ h, objs w3 !! pt_id' = Some h ∧ auto_domain h = true
                     ∧ hwpt_lockable h = true)
             ∧ hwpt_list w3 = hwpt_list w1 ++ [pt_id']
             ∧ device_list (igroup w3)
               = device_list (igroup w1) ++ [dev idev]
         end).
Proof.
  split.
  - intros pre id post w1 w2 h r Hlist Hskip Hobj Hauto Hlock Hatt Hne.
    unfold iommufd_device_auto_get_domain.
    rewrite Hlist, (auto_loop_skipped _ _ _ _ _ _ Hskip). simpl.
    rewrite Hobj, Hauto, Hlock, Hatt. simpl.
    by rewrite bool_decide_eq_false_2.
  - intros w1 Hskip.
    destruct (iommufd_hw_pagetable_alloc pf idev None false true w1)
      as [[w2 r] o] eqn:Halloc.
    unfold iommufd_device_auto_get_domain.
    rewrite <-(app_nil_r (hwpt_list w)).
    rewrite (auto_loop_skipped _ _ _ _ _ _ Hskip). simpl.
    rewrite Halloc.
    destruct r as [|e]; [|done].
    apply alloc_success in Halloc
      as (id & h & -> & Hid & Hobj & Hlist & Hdl).
    split; [done|]. simpl.
    split; [done|]. split; [|done].
    exists (set_hwpt_lockable (set_auto_domain h true) true).
    by rewrite !lookup_alter_eq, Hobj.
Qed.


(** * Further properties of the code *)

(** ** Attach and detach of hardware page tables *)

(** Once a device of a group is attached to a hardware page table, an
    attach of a device of that group to another hardware page table is
    refused with EINVAL and changes nothing, whatever the platform would
    answer. *)
Theorem attach_group_single_hwpt pf pf' id id' idev idev' w w' :
  group_wf w →
  iommufd_hw_pagetable_attach pf id idev w = (w', Success) →
  id' ≠ id → is_Some (objs w' !! id') →
  iommufd_hw_pagetable_attach pf' id' idev' w' = (w', Failure EINVAL).
Proof.
  intros Hwf Hatt Hne [h' Hh'].
  apply attach_success_inv in Hatt
    as (h & h1 & h3 & iopt2 & sw & Hobj & Hg & _ & _ & _ & _ & _ & _ & _
        & _ & _ & Hcase).
  assert (ig_hwpt (igroup w') = Some id) as Hig.
  { unfold group_wf in Hwf.
    destruct (device_list (igroup w)) as [|d0 dl] eqn:Hdl.
    - by destruct Hcase as (d & _ & _ & _ & ? & _).
    - destruct Hcase as (_ & -> & _).
      destruct Hg as [Hg|Hg]; [|done].
      rewrite Hg in Hwf. by destruct Hwf. }
  unfold iommufd_hw_pagetable_attach. rewrite Hh', Hig.
  assert (Nat.eqb id id' = false) as -> by (apply Nat.eqb_neq; done).
  done.
Qed.

(** Only the first device of a group attaches the group: when the group
    already has an attached device, [iommufd_hw_pagetable_attach] neither
    asks for an MSI cookie nor calls [iommu_attach_group], so its result
    does not depend on what they would return, and a success leaves the
    domain of the group and its hardware page table as they are. *)
Theorem attach_follows_group pf attach_rc cookie_rc id idev w :
  device_list (igroup w) ≠ [] →
  iommufd_hw_pagetable_attach (with_group_ops pf attach_rc cookie_rc)
    id idev w
  = iommufd_hw_pagetable_attach pf id idev w
  ∧ ∀ w', iommufd_hw_pagetable_attach pf id idev w = (w', Success) →
          group_domain w' = group_domain w
          ∧ ig_hwpt (igroup w') = ig_hwpt (igroup w).
Proof.
  intros Hdl. split.
  - unfold iommufd_hw_pagetable_attach.
    destruct (objs w !! id) as [h|]; [|done].
    destruct (match ig_hwpt (igroup w) with
              | Some cur => negb (Nat.eqb cur id)
              | None => false
              end); [done|].
    change (iommufd_hw_pagetable_enforce_cc
              (with_group_ops pf attach_rc cookie_rc) h)
      with (iommufd_hw_pagetable_enforce_cc pf h).
    destruct (if dev_enforce_cache_coherency idev
              then iommufd_hw_pagetable_enforce_cc pf h
              else (h, Success)) as [h1 rc1].
    destruct rc1; [|done].
    cbn [ioas_iopt set_objs igroup].
    change (iopt_table_enforce_dev_resv_regions
              (with_group_ops pf attach_rc cookie_rc))
      with (iopt_table_enforce_dev_resv_regions pf).
    destruct (iopt_table_enforce_dev_resv_regions pf (ioas_iopt w) (dev idev)
                (sw_msi_start (igroup w))) as [[iopt2 sw] rc2].
    destruct rc2; [|done].
    cbn [ioas_iopt set_objs igroup set_igroup set_iopt device_list
         set_sw_msi_start objs].
    by destruct (device_list (igroup w)).
  - intros w' Hatt.
    apply attach_success_inv in Hatt
      as (h & h1 & h3 & iopt2 & sw & _ & _ & _ & _ & _ & _ & _ & _ & _
          & _ & _ & Hcase).
    destruct (device_list (igroup w)); [done|].
    by destruct Hcase as (_ & ? & ?).
Qed.

(** [iommufd_hw_pagetable_detach] undoes a successful attach of the first
    device of an idle group: the group is idle again, the IOMMU has no
    domain for it, and the table is as before the attach, the reserved
    regions of the device removed.  The reference that the attach took on
    the hardware page table stays: detach returns the hardware page table
    and leaves the reference to its caller. *)
Theorem attach_detach_round_trip pf id idev w w' :
  owns_nothing (ioas_iopt w) (dev idev) →
  ig_hwpt (igroup w) = None → device_list (igroup w) = [] →
  iommufd_hw_pagetable_attach pf id idev w = (w', Success) →
  let d := iommufd_hw_pagetable_detach idev w' in
  d.2 = Some id
  ∧ ioas_iopt d.1 = ioas_iopt w
  ∧ device_list (igroup d.1) = []
  ∧ ig_hwpt (igroup d.1) = None
  ∧ group_domain d.1 = None
  ∧ hwpt_list d.1 = hwpt_list w
  ∧ hw_entries d.1 = hw_entries w
  ∧ ∃ h h', objs w !! id = Some h ∧ objs d.1 !! id = Some h'
            ∧ hwpt_users h' = hwpt_users h + 1.
Proof.
  intros Hnone Hig Hdl Hatt.
  apply attach_success_inv in Hatt
    as (h & h1 & h3 & iopt2 & sw & Hobj & _ & Hcc & Hresv & Hiopt & Hlist
        & Hent & _ & Hdl' & _ & Hobjs & Hcase).
  rewrite Hdl in Hcase, Hdl'.
  destruct Hcase as (d & Hmsi & Hd & _ & Hig' & Hgd).
  apply (enforce_dev_resv_regions_spec _ _ _ _ _ _ _ Hnone) in Hresv
    as (Hrm & _ & _).
  unfold iommufd_hw_pagetable_detach. simpl.
  rewrite Hdl'. simpl. rewrite Nat.eqb_refl. simpl.
  rewrite Hiopt, Hrm, Hig'.
  repeat (split; [done|]).
  exists h, (set_hwpt_users h3 (hwpt_users h3 + 1)).
  split; [done|]. rewrite Hobjs, lookup_insert_eq.
  split; [done|]. simpl.
  apply setup_msi_users in Hmsi. rewrite Hmsi.
  destruct (dev_enforce_cache_coherency idev); [|by subst].
  apply enforce_cc_users in Hcc. by rewrite Hcc.
Qed.

(** With two devices of a group attached, the detach of one leaves the
    group attached for the other: the group keeps its hardware page table
    and its domain, and the table keeps the reserved regions of the device
    that stays, and only those. *)
Theorem detach_keeps_group_attached pf id a b w w1 w2 :
  dev a ≠ dev b →
  owns_nothing (ioas_iopt w) (dev a) →
  owns_nothing (ioas_iopt w) (dev b) →
  ig_hwpt (igroup w) = None → device_list (igroup w) = [] →
  iommufd_hw_pagetable_attach pf id a w = (w1, Success) →
  iommufd_hw_pagetable_attach pf id b w1 = (w2, Success) →
  let d := iommufd_hw_pagetable_detach a w2 in
  d.2 = Some id
  ∧ device_list (igroup d.1) = [dev b]
  ∧ ig_hwpt (igroup d.1) = Some id
  ∧ is_Some (group_domain d.1)
  ∧ group_domain d.1 = group_domain w1
  ∧ owns_nothing (ioas_iopt d.1) (dev a)
  ∧ iopt_remove_reserved_iova (ioas_iopt d.1) (dev b) = ioas_iopt w.
Proof.
  intros Hab Ha Hb Hig Hdl Hatt1 Hatt2.
  apply attach_success_inv in Hatt1
    as (h & h1 & h3 & iopt1 & sw1 & _ & _ & _ & Hresv1 & Hiopt1 & _
        & _ & _ & Hdl1 & _ & _ & Hcase1).
  rewrite Hdl in Hcase1, Hdl1.
  destruct Hcase1 as (d1 & _ & _ & _ & Hig1 & Hgd1).
  apply attach_success_inv in Hatt2
    as (h' & h1' & h3' & iopt2 & sw2 & _ & _ & _ & Hresv2 & Hiopt2 & _
        & _ & _ & Hdl2 & _ & _ & Hcase2).
  rewrite Hdl1 in Hcase2, Hdl2. simpl in Hcase2, Hdl2.
  destruct Hcase2 as (_ & Hig2 & Hgd2).
  apply enforce_resv_success in Hresv1 as (news1 & -> & Hn1).
  apply enforce_resv_success in Hresv2 as (news2 & -> & Hn2).
  rewrite Hiopt1 in Hiopt2. simpl in Hiopt2.
  unfold iommufd_hw_pagetable_detach. simpl.
  rewrite Hdl2. simpl. rewrite Nat.eqb_refl. simpl.
  rewrite Hig2, Hig1, Hgd2, Hgd1, Hiopt2.
  repeat (split; [done|]).
  unfold owns_nothing, iopt_remove_reserved_iova in *. simpl.
  rewrite !List.filter_app.
  rewrite (filter_owner_other (dev a) (reserved (ioas_iopt w))) by done.
  rewrite (filter_owner_own (dev a) news1) by done.
  rewrite (filter_owner_other (dev a) news2).
  2:{ eapply list.Forall_impl; [exact Hn2|]. simpl. intros x ->. done. }
  rewrite app_nil_r. split.
  - apply Forall_app. split; [done|].
    eapply list.Forall_impl; [exact Hn2|]. simpl. intros x ->. done.
  - rewrite (filter_owner_other (dev b) (reserved (ioas_iopt w))) by done.
    rewrite (filter_owner_own (dev b) news2) by done.
    simpl. rewrite !app_nil_r. by destruct (ioas_iopt w).
Qed.

(** Whatever its result, [iommufd_hw_pagetable_attach] keeps every
    hardware page table, changes none but the one it is called on, and
    never downgrades that one: its domain stays and the flags
    [enforce_cache_coherency] and [msi_cookie] are not cleared.  After a
    successful attach of a device that needs cache coherency enforced,
    the hardware page table enforces it. *)
Theorem attach_only_upgrades pf id idev w w' r :
  iommufd_hw_pagetable_attach pf id idev w = (w', r) →
  (∀ i h, objs w !! i = Some h →
     ∃ h', objs w' !! i = Some h'
           ∧ hwpt_domain h' = hwpt_domain h
           ∧ (enforce_cache_coherency h = true →
              enforce_cache_coherency h' = true)
           ∧ (msi_cookie h = true → msi_cookie h' = true)
           ∧ (i ≠ id → h' = h))
  ∧ (r = Success → dev_enforce_cache_coherency idev = true →
     ∃ h', objs w' !! id = Some h' ∧ enforce_cache_coherency h' = true).
Proof.
  intros Hatt. split.
  - intros i h Hi.
    destruct (attach_objs_shape _ _ _ _ _ _ Hatt)
      as [[_ ->]|(h0 & h' & Hobj & -> & Hup)]; [by exists h|].
    destruct (decide (i = id)) as [->|Hne].
    + rewrite lookup_insert_eq. exists h'.
      rewrite Hobj in Hi. inversion Hi; subst h0.
      destruct Hup as (? & _ & _ & _ & ? & ? & _). done.
    + rewrite lookup_insert_ne by done. by exists h.
  - intros -> Hdev.
    apply attach_success_inv in Hatt
      as (h & h1 & h3 & iopt2 & sw & _ & _ & Hcc & _ & _ & _ & _ & _ & _
          & _ & -> & Hcase).
    rewrite Hdev in Hcc.
    apply enforce_cc_upgraded in Hcc as (_ & _ & _ & Hcc).
    eexists. rewrite lookup_insert_eq. split; [done|]. simpl.
    destruct (device_list (igroup w)).
    + destruct Hcase as (d & Hmsi & _).
      apply setup_msi_upgraded in Hmsi as (_ & _ & ->). by apply Hcc.
    + destruct Hcase as (-> & _). by apply Hcc.
Qed.

(** ** Automatic domain selection and allocation *)

(** Automatic domain selection never picks a manually created domain:
    with an allocator that gives a new ID,
    [iommufd_device_auto_get_domain] leaves every hardware page table
    that is not an automatic domain exactly as it is, whatever it
    returns, and the hardware page table it returns on success is an
    automatic domain. *)
Theorem auto_get_domain_never_manual pf idev pt_id w w' r id :
  (∀ n, iommufd_object_alloc pf = Some n → objs w !! n = None) →
  iommufd_device_auto_get_domain pf idev pt_id w = (w', r, id) →
  (∀ i h, objs w !! i = Some h → auto_domain h = false →
          objs w' !! i = Some h)
  ∧ (r = Success → ∃ h, objs w' !! id = Some h ∧ auto_domain h = true).
Proof.
  intros Hfresh H. unfold iommufd_device_auto_get_domain in H.
  destruct (auto_get_domain_loop pf idev (hwpt_list w) pt_id w)
    as [w1 res] eqn:Hloop.
  apply auto_loop_manual in Hloop as (Hman & Hnew & Hres).
  destruct res as [[r1 id1]|].
  { inversion H; subst. split; [done|]. intros _. by apply (Hres r id). }
  destruct (iommufd_hw_pagetable_alloc pf idev None false true w1)
    as [[w2 r2] o] eqn:Halloc.
  assert (∀ i h, objs w !! i = Some h → auto_domain h = false →
                 objs w2 !! i = Some h) as Hman2.
  { intros i h Hi Hm.
    rewrite (alloc_other_objs _ _ _ _ _ _ _ _ i Halloc); [by apply Hman|].
    intros Hn. apply Hfresh in Hn. congruence. }
  destruct r2 as [|e]; [|by inversion H; subst].
  pose proof Halloc as Hal.
  apply alloc_success in Hal as (n & h & -> & Hn & Hobj & _).
  inversion H; subst. unfold iommufd_object_finalize. simpl. split.
  - intros i h0 Hi Hm.
    assert (i ≠ id) as Hne.
    { intros ->. apply Hfresh in Hn. congruence. }
    rewrite !lookup_alter_ne by done. by apply Hman2.
  - intros _. rewrite !lookup_alter_eq, Hobj. by eexists.
Qed.

(** Only a hardware page table without a parent is linked to the IOAS.
    A successful [iommufd_hw_pagetable_alloc] without an immediate attach
    leaves the group alone, takes a reference on the IOAS, and returns an
    object that is neither an automatic domain nor visible yet; without a
    parent the new domain joins the table and the hardware page table the
    list of the IOAS, and with a parent the table and the list stay as
    they are and the parent gains a reference.  A parent or user data
    need the driver's [domain_alloc_user]: without it the call fails with
    EOPNOTSUPP and changes nothing. *)
Theorem alloc_links_only_parents pf idev parent user_data w :
  (ops_domain_alloc_user pf = false →
   user_data = true ∨ parent ≠ None →
   ∀ immediate_attach,
     iommufd_hw_pagetable_alloc pf idev parent user_data immediate_attach w
     = (w, Failure EOPNOTSUPP, None))
  ∧ ∀ w' o,
      iommufd_hw_pagetable_alloc pf idev parent user_data false w
      = (w', Success, o) →
      ∃ id d h,
        o = Some id ∧ iommufd_object_alloc pf = Some id
        ∧ drv_domain_alloc pf = Some d
        ∧ objs w' !! id = Some h
        ∧ hwpt_domain h = Some d ∧ hwpt_parent h = parent
        ∧ auto_domain h = false ∧ hwpt_lockable h = false
        ∧ igroup w' = igroup w ∧ group_domain w' = group_domain w
        ∧ ioas_users w' = ioas_users w + 1
        ∧ match parent with
          | None =>
              hwpt_list w' = hwpt_list w ++ [id]
              ∧ domains (ioas_iopt w') = domains (ioas_iopt w) ++ [d]
          | Some p =>
              hwpt_list w' = hwpt_list w
              ∧ ioas_iopt w' = ioas_iopt w
              ∧ ∀ hp, objs w !! p = Some hp → p ≠ id →
                      ∃ hp', objs w' !! p = Some hp'
                             ∧ hwpt_users hp' = hwpt_users hp + 1
          end.
Proof.
  split.
  { intros Hops Hud ia. unfold iommufd_hw_pagetable_alloc. rewrite Hops.
    destruct Hud as [->|Hp]; [done|].
    rewrite (bool_decide_eq_true_2 _ Hp). by rewrite orb_true_r. }
  intros w' o H.
  by apply (alloc_no_attach_success pf idev parent user_data w).
Qed.

(** [iommu_get_msi_cookie] is asked at most once for a domain.  The
    attach of the first device of a group whose reserved regions have a
    software MSI window leaves the hardware page table with its
    [msi_cookie] set; and an attach to a hardware page table with
    [msi_cookie] set does not depend on what [iommu_get_msi_cookie] would
    return, such as the EBUSY of a second request. *)
Theorem attach_msi_cookie_once pf id :
  (∀ idev w w',
     device_list (igroup w) = [] →
     iommufd_hw_pagetable_attach pf id idev w = (w', Success) →
     sw_msi_start (igroup w') ≠ PHYS_ADDR_MAX →
     ∃ h', objs w' !! id = Some h' ∧ msi_cookie h' = true)
  ∧ (∀ idev w h cookie_rc,
       objs w !! id = Some h → msi_cookie h = true →
       iommufd_hw_pagetable_attach
         (with_group_ops pf (iommu_attach_group pf) cookie_rc) id idev w
       = iommufd_hw_pagetable_attach pf id idev w).
Proof.
  split.
  - intros idev w w' Hdl Hatt Hsw.
    apply attach_success_inv in Hatt
      as (h & h1 & h3 & iopt2 & sw & _ & _ & _ & _ & _ & _ & _ & _ & _
          & Hsw' & -> & Hcase).
    rewrite Hdl in Hcase. destruct Hcase as (d & Hmsi & _).
    eexists. rewrite lookup_insert_eq. split; [done|]. simpl.
    unfold iommufd_group_setup_msi in Hmsi. simpl in Hmsi.
    rewrite <-Hsw' in Hmsi.
    apply Z.eqb_neq in Hsw. rewrite Hsw in Hmsi. simpl in Hmsi.
    destruct (msi_cookie h1) eqn:Hc; simpl in Hmsi.
    { by inversion Hmsi; subst. }
    destruct (hwpt_domain h1); [|done].
    destruct (iommu_get_msi_cookie pf _ _); [|done].
    by inversion Hmsi; subst.
  - intros idev w h cookie_rc Hobj Hc.
    unfold iommufd_hw_pagetable_attach. rewrite Hobj.
    destruct (match ig_hwpt (igroup w) with
              | Some cur => negb (Nat.eqb cur id)
              | None => false
              end); [done|].
    change (iommufd_hw_pagetable_enforce_cc
              (with_group_ops pf (iommu_attach_group pf) cookie_rc) h)
      with (iommufd_hw_pagetable_enforce_cc pf h).
    destruct (if dev_enforce_cache_coherency idev
              then iommufd_hw_pagetable_enforce_cc pf h
              else (h, Success)) as [h1 rc1] eqn:Hcc.
    assert (msi_cookie h1 = true) as Hc1.
    { destruct (dev_enforce_cache_coherency idev).
      - apply enforce_cc_upgraded in Hcc as (_ & _ & -> & _). done.
      - by inversion Hcc; subst. }
    destruct rc1; [|done].
    cbn [ioas_iopt set_objs igroup].
    change (iopt_table_enforce_dev_resv_regions
              (with_group_ops pf (iommu_attach_group pf) cookie_rc))
      with (iopt_table_enforce_dev_resv_regions pf).
    destruct (iopt_table_enforce_dev_resv_regions pf (ioas_iopt w) (dev idev)
                (sw_msi_start (igroup w))) as [[iopt2 sw] rc2].
    destruct rc2; [|done].
    cbn [ioas_iopt set_objs igroup set_igroup set_iopt device_list
         set_sw_msi_start objs].
    destruct (device_list (igroup w)); [|done].
    unfold iommufd_group_setup_msi. rewrite Hc1.
    rewrite andb_false_r. done.
Qed.

(** ** The in-kernel access functions *)

(** What the access functions never touch: [iommufd_access_pin_pages]
    and [iommufd_access_unpin_pages] leave the backing memory as it is, a
    read through [iommufd_access_rw] leaves the backing memory as it is,
    and a write leaves the caller's buffer as it is, whatever they
    return. *)
Theorem access_functions_frame iopt access iova length flags buf st :
  memory (iommufd_access_pin_pages iopt access iova length flags st).1.1
  = memory st
  ∧ memory (iommufd_access_unpin_pages iopt iova length st) = memory st
  ∧ (wants_write flags = false →
     memory (iommufd_access_rw iopt iova buf length flags st).1.1
     = memory st)
  ∧ (wants_write flags = true →
     (iommufd_access_rw iopt iova buf length flags st).2 = buf).
Proof.
  split; [|split].
  - unfold iommufd_access_pin_pages.
    destruct (CONFIG_IOMMUFD_TEST && _); [done|].
    destruct (length =? 0); [done|].
    destruct (check_add_overflow iova (length - 1)) as [overflow last].
    destruct overflow; [done|].
    pose proof (loop_invariant (λ s, memory s.1 = memory st) iopt iova last
                  (pin_body iopt last flags) (st, [])) as Hloop.
    destruct (iopt_for_each_contig_area iopt iova last _ _)
      as [[iter [st1 out]] brk].
    simpl in Hloop.
    assert (memory st1 = memory st) as Hm.
    { apply Hloop; [|done]. intros it c s Hs.
      by rewrite pin_body_memory. }
    assert (memory
              (if iova <? cur_iova iter
               then
                 let last2 := cur_iova iter - 1 in
                 let '(_, st2, _) :=
                   iopt_for_each_contig_area iopt iova last2
                     (unpin_body last2) st1 in st2
               else st1) = memory st) as Hm2.
    { destruct (iova <? cur_iova iter); [|done]. cbn zeta.
      pose proof (unpin_loop_memory iopt iova (cur_iova iter - 1) st1) as Hu.
      destruct (iopt_for_each_contig_area iopt iova _ _ st1) as [[? ?] ?].
      simpl in Hu. by rewrite Hu. }
    destruct brk as [e|]; [done|].
    by destruct (negb (iopt_area_contig_done iter)).
  - unfold iommufd_access_unpin_pages.
    destruct (length =? 0); [done|].
    destruct (check_add_overflow iova (length - 1)) as [overflow last].
    destruct overflow; [done|].
    pose proof (unpin_loop_memory iopt iova last st) as Hu.
    destruct (iopt_for_each_contig_area iopt iova last _ st) as [[? ?] ?].
    simpl in Hu. by rewrite WARN_ON_memory.
  - unfold iommufd_access_rw.
    destruct (length =? 0); [done|].
    destruct (check_add_overflow iova (length - 1)) as [overflow last].
    destruct overflow; [done|].
    pose proof (loop_invariant
                  (λ s : pin_state * list Byte.byte * Z,
                     (wants_write flags = false → memory s.1.1 = memory st)
                     ∧ (wants_write flags = true → s.1.2 = buf))
                  iopt iova last (rw_body iopt last flags) (st, buf, 0))
      as Hloop.
    destruct (iopt_for_each_contig_area iopt iova last _ _)
      as [[iter [[st1 buf1] off1]] brk].
    simpl in Hloop.
    assert ((wants_write flags = false → memory st1 = memory st)
            ∧ (wants_write flags = true → buf1 = buf)) as Hinv.
    { apply Hloop; [|done]. intros it c [[s b] o] [Hs1 Hs2].
      destruct (rw_body_frame iopt last flags it c s b o) as [H1 H2].
      simpl in *. split; intros Hw.
      - rewrite H1 by done. by apply Hs1.
      - rewrite H2 by done. by apply Hs2. }
    destruct brk as [e|]; [done|].
    by destruct (negb (iopt_area_contig_done iter)).
Qed.

(** A successful [iommufd_access_pin_pages] returns one page for each
    page of the range: [length] bytes rounded up to whole pages, however
    many Areas the range crosses. *)
Theorem pin_pages_page_count iopt access iova length flags st st' out :
  0 < PAGE_SIZE → 0 ≤ iova → 0 < length →
  iova + (length - 1) ≤ ULONG_MAX →
  iommufd_access_pin_pages iopt access iova length flags st
  = (st', Success, out) →
  Z.of_nat (List.length out) = (length + PAGE_SIZE - 1) / PAGE_SIZE.
Proof.
  intros Hps Hiova Hlen Hmax Hpin.
  apply pin_pages_success in Hpin as (_ & _ & Hrun & Hdone).
  rewrite check_add_overflow_no in Hrun, Hdone by lia.
  cbn [snd] in Hrun, Hdone.
  set (last := iova + (length - 1)) in *.
  assert (Forall (λ step,
                    iopt_area_contig_is_aligned (iter_at last step) = true)
            (contig_areas iopt iova last)) as Hal.
  { apply list.Forall_forall. intros step Hin.
    destruct (run_steps_continue _ _ _ _ _ _ Hrun Hin) as (s0 & s1 & Hb).
    by apply pin_body_aligned in Hb. }
  apply pin_run_success in Hrun as (_ & -> & _). simpl.
  destruct (contig_areas_chain iopt iova last)
    as [Hnil|(Hchain & c & tl & Heq)].
  { rewrite Hnil in Hdone. done. }
  unfold contig_final, iopt_area_contig_done in Hdone.
  destruct (list.last (contig_areas iopt iova last)) as [sk|] eqn:Hlast;
    [|done].
  destruct (last <=? node_last (c_area sk.2)) eqn:Hend; [|done].
  apply Z.leb_le in Hend.
  rewrite (chain_page_count last _ Hps Hchain Hal (iova, c) tl sk Heq
             ltac:(simpl; lia) Hlast Hend).
  simpl. f_equal. lia.
Qed.

(** After a successful [iommufd_access_pin_pages] the pin count of every
    page has risen by the number of times the page is in the returned
    list: every returned page is pinned, once for each time it is
    returned, and no other page is. *)
Theorem pin_pages_pin_counts iopt access iova length flags st st' out :
  iommufd_access_pin_pages iopt access iova length flags st
  = (st', Success, out) →
  ∀ p index,
    access_pin_count st' p index
    = (access_pin_count st p index
       + List.length
           (List.filter (λ pg : page, bool_decide (pg = (p, index))) out))%nat.
Proof.
  intros Hpin p index.
  apply pin_pages_success in Hpin as (_ & _ & Hrun & _).
  apply pin_run_success in Hrun as (-> & -> & Hpg).
  unfold access_pin_count. simpl.
  rewrite filter_length_union. f_equal.
  unfold steps_keys. rewrite filter_length_list_to_set_disj.
  by apply steps_pin_count.
Qed.

(** What [iommufd_access_rw] writes it reads back: after a successful
    write of a buffer to a range inside one Area, a successful read of
    the same range returns the bytes of that buffer, and leaves the
    memory as the write left it. *)
Theorem rw_write_read_round_trip
    iopt iova length wflags rflags buf buf0 st st1 st2 buf1 buf2 a :
  iopt_wf iopt = true → a ∈ areas iopt →
  0 ≤ iova → 0 < length → iova + (length - 1) ≤ ULONG_MAX →
  node_start a ≤ iova → iova + (length - 1) ≤ node_last a →
  wants_write wflags = true → wants_write rflags = false →
  Z.of_nat (List.length buf) = length →
  Z.of_nat (List.length buf0) = length →
  iommufd_access_rw iopt iova buf length wflags st = (st1, Success, buf1) →
  iommufd_access_rw iopt iova buf0 length rflags st1
  = (st2, Success, buf2) →
  buf2 = buf ∧ memory st2 = memory st1.
Proof.
  intros Hwf Hin Hiova Hlen Hmax Hlo Hhi Hw Hr Hbuf Hbuf0 Hwrite Hread.
  assert (pages a ≠ None) as Hp.
  { pose proof Hwrite as Hs.
    apply rw_success in Hs as (_ & _ & _ & Hdone).
    rewrite check_add_overflow_no in Hdone by lia. cbn [snd] in Hdone.
    apply contig_done_covered in Hdone.
    destruct (Hdone iova ltac:(lia)) as (a' & Hin' & Hp' & Ha').
    apply list_elem_of_lookup in Hin as (k & Hk).
    apply list_elem_of_lookup in Hin' as (k' & Hk').
    assert (k' = k) as ->.
    { apply (wf_area_unique iopt k' k a' a iova); (done || lia). }
    congruence. }
  rewrite (rw_single_area _ _ _ _ _ _ a) in Hwrite by done.
  rewrite (rw_single_area _ _ _ _ _ _ a) in Hread by done.
  destruct (prevent_access a); [done|].
  destruct (negb (check_area_prot a wflags)); [done|].
  destruct (negb (check_area_prot a rflags)); [done|].
  unfold iopt_pages_rw_access in Hwrite, Hread.
  destruct (pages a) as [p|]; [|done].
  destruct (stores iopt !! p) as [ps|]; [|done].
  rewrite Hw in Hwrite. rewrite Hr in Hread. simpl in Hread.
  destruct (true && negb (writable ps)); [done|].
  destruct (pages_pin_error ps _ _); [done|].
  injection Hwrite as <- <-. injection Hread as <- <-.
  split; [|done]. simpl.
  assert (buf_read buf 0 length = buf) as ->.
  { unfold buf_read. simpl. apply take_ge. lia. }
  rewrite <-Hbuf, mem_read_write.
  unfold buf_write. simpl. rewrite drop_ge by lia. apply app_nil_r.
Qed.

(** [iommufd_access_rw] stays inside its buffer: whatever it returns,
    and however many Areas it has copied, a buffer of at least [length]
    bytes keeps its size, and its bytes from [length] on are as they
    were. *)
Theorem rw_stays_in_buffer iopt iova buf length flags st :
  0 ≤ iova → 0 ≤ length → (Z.to_nat length ≤ List.length buf)%nat →
  let buf' := (iommufd_access_rw iopt iova buf length flags st).2 in
  List.length buf' = List.length buf
  ∧ drop (Z.to_nat length) buf' = drop (Z.to_nat length) buf.
Proof.
  intros Hiova Hlen Hbuf. unfold iommufd_access_rw.
  destruct (length =? 0) eqn:Hz; [done|].
  apply Z.eqb_neq in Hz.
  destruct (check_add_overflow iova (length - 1)) as [overflow last] eqn:Hov.
  destruct overflow; [done|].
  unfold check_add_overflow in Hov. injection Hov as Hov Hlast.
  apply Z.ltb_ge in Hov. unfold ULONG_MAX in Hov.
  rewrite Z.mod_small in Hlast by lia. subst last.
  rewrite iopt_for_each_contig_area_spec. unfold loop_result.
  destruct (run_steps _ _ _ _) as [[[st1 buf1] off1] r] eqn:Hrun.
  assert (List.length buf1 = List.length buf
          ∧ drop (Z.to_nat length) buf1 = drop (Z.to_nat length) buf)
    as Hframe.
  { destruct (contig_areas_chain iopt iova (iova + (length - 1)))
      as [Hnil|(Hchain & c & tl & Heq)].
    { rewrite Hnil in Hrun. by inversion Hrun; subst. }
    pose proof (rw_run_buffer iopt iova _ flags _ Hchain (iova, c) tl
                  st buf 0 st1 buf1 off1 r Heq) as H.
    replace (iova + (length - 1) - iova + 1) with length in H by lia.
    apply H; simpl; (done || lia). }
  destruct r as [[step e]|]; [done|].
  by destruct (negb _).
Qed.

(** ** Groups and bound devices *)

Section Groups.

Variable pf : bind_platform.

(** Group IDs are not reused while a group is held, and the allocator
    returns memory that is not in use. *)
Hypothesis group_id_inj : Inj (=) (=) (iommu_group_id pf).

(** [iommufd_get_group] returns, its loop never needing a third round.
    An error leaves the context as it was.  On success the xarray points
    to the returned group for the [iommu_group] of the device, the
    invariant of the xarray holds again, and the group is either the one
    the xarray had, with one more reference and its attachment state
    untouched, or a new idle one with a single reference and no software
    MSI window. *)
Theorem get_group_result device s :
  groups_wf pf s →
  (∀ p, kzalloc_igroup pf = Some p → igroup_mem s !! p = None) →
  ∃ s' r,
    iommufd_get_group pf device s = Some (s', r)
    ∧ match r with
      | inr e => s' = s
      | inl ptr =>
          groups_wf pf s'
          ∧ ∃ group g,
              iommu_group_get pf device = Some group
              ∧ groups s' !! iommu_group_id pf group = Some ptr
              ∧ igroup_mem s' !! ptr = Some g
              ∧ ge_group g = group
              ∧ match igroup_mem s !! ptr with
                | Some g0 =>
                    groups s !! iommu_group_id pf group = Some ptr
                    ∧ ge_ref g = ge_ref g0 + 1 ∧ ge_data g = ge_data g0
                | None =>
                    groups s !! iommu_group_id pf group = None
                    ∧ ge_ref g = 1
                    ∧ ge_data g
                      = {| ig_hwpt := None; device_list := [];
                           sw_msi_start := PHYS_ADDR_MAX |}
                end
      end.
Proof.
  intros Hwf Hfresh.
  pose proof (get_group_cases pf device s Hwf group_id_inj Hfresh) as Hc.
  destruct (iommu_group_get pf device) as [group|];
    [|eexists _, _; split; [exact Hc|done]].
  destruct (groups s !! iommu_group_id pf group) as [p|] eqn:Hxa.
  - destruct Hc as (g & Hg & Hgrp & Href & Heq).
    eexists _, _. split; [exact Heq|]. simpl. split.
    + intros id ptr Hid.
      cbn [igroup_mem set_igroup_mem set_groups set_iommu_group_refs
           groups] in *.
      destruct (Hwf id ptr Hid) as (g' & Hg' & Hid' & Href').
      destruct (decide (ptr = p)) as [->|Hne].
      * rewrite lookup_insert_eq. eexists. split; [done|].
        rewrite Hg in Hg'. inversion Hg'; subst g'. simpl.
        split; [done|lia].
      * rewrite lookup_insert_ne by done. by exists g'.
    + exists group, (set_ge_ref g (ge_ref g + 1)).
      cbn [igroup_mem set_igroup_mem set_groups set_iommu_group_refs
           groups].
      rewrite lookup_insert_eq, Hg. done.
  - destruct (kzalloc_igroup pf) as [new|] eqn:Hk;
      [|eexists _, _; split; [exact Hc|done]].
    destruct (xa_store_error pf) as [e|];
      [eexists _, _; split; [exact Hc|done]|].
    specialize (Hfresh new eq_refl).
    eexists _, _. split; [exact Hc|]. simpl. split.
    + intros id ptr Hid.
      cbn [igroup_mem set_igroup_mem set_groups set_iommu_group_refs
           groups] in *.
      destruct (decide (id = iommu_group_id pf group)) as [->|Hne].
      * rewrite lookup_insert_eq in Hid. inversion Hid; subst ptr.
        rewrite lookup_insert_eq. eexists. split; [done|]. simpl.
        split; [done|lia].
      * rewrite lookup_insert_ne in Hid by done.
        destruct (Hwf id ptr Hid) as (g' & Hg' & Hid' & Href').
        rewrite lookup_insert_ne by congruence. by exists g'.
    + eexists group, _.
      cbn [igroup_mem set_igroup_mem set_groups set_iommu_group_refs
           groups].
      rewrite !lookup_insert_eq, Hfresh. done.
Qed.

(** [iommufd_put_group] undoes a successful [iommufd_get_group]: the
    xarray, the allocated groups and the references held on the
    [iommu_group]s are again what they were, whether the group was found
    or created. *)
Theorem get_put_group_round_trip device s s' ptr :
  groups_wf pf s →
  (∀ p, kzalloc_igroup pf = Some p → igroup_mem s !! p = None) →
  iommufd_get_group pf device s = Some (s', inl ptr) →
  iommufd_put_group pf ptr s' = s.
Proof.
  intros Hwf Hfresh Hget.
  pose proof (get_group_cases pf device s Hwf group_id_inj Hfresh) as Hc.
  destruct (iommu_group_get pf device) as [group|]; [|congruence].
  destruct (groups s !! iommu_group_id pf group) as [p|] eqn:Hxa.
  - destruct Hc as (g & Hg & Hgrp & Href & Heq).
    rewrite Heq in Hget. injection Hget as <- <-.
    by apply put_existing_group.
  - destruct (kzalloc_igroup pf) as [new|] eqn:Hk; [|congruence].
    destruct (xa_store_error pf) as [e|]; [congruence|].
    rewrite Hc in Hget. injection Hget as <- <-.
    apply put_created_group; try done. by apply Hfresh.
Qed.

(** [iommufd_device_bind] returns.  When it fails, at whatever step, the
    context is as before: the group reference is put back, a group made
    for the device is freed and out of the xarray, and DMA ownership is
    released.  It binds a device only if the device is cache coherent,
    its MSI is isolated (or the device is the selftest's, or unsafe
    interrupts are allowed), and DMA ownership could be claimed; the new
    device object then holds the claim and two references, that of the
    object and that of the calling driver. *)
Theorem bind_result device s :
  groups_wf pf s →
  (∀ p, kzalloc_igroup pf = Some p → igroup_mem s !! p = None) →
  ∃ s' r,
    iommufd_device_bind pf device s = Some (s', r)
    ∧ match r with
      | inr e => same_ictx s s'
      | inl id =>
          cap_cache_coherency pf device = true
          ∧ iommu_device_claim_dma_owner pf device = Success
          ∧ (∃ group,
               iommu_group_get pf device = Some group
               ∧ (iommufd_selftest_is_mock_dev pf device = true
                  ∨ iommu_group_has_isolated_msi pf group = true
                  ∨ allow_unsafe_interrupts pf = true))
          ∧ dma_owners s' = dma_owners s ⊎ {[+ device +]}
          ∧ ∃ d, idevs s' !! id = Some d ∧ dev (bd_idev d) = device
                 ∧ bd_users d = 2
      end.
Proof.
  intros Hwf Hfresh.
  destruct (bind_spec pf device s Hwf group_id_inj Hfresh)
    as (s' & r & Hbind & Hres).
  exists s', r. split; [done|].
  destruct r as [id|e]; [|done].
  destruct Hres as (s1 & ptr & group & _ & Hgrp & Hcap & Hclaim & _ & Hsafe
                    & _ & _ & _ & Hdma & _ & Hidevs).
  repeat (split; [done|]). split; [by exists group|]. split; [done|].
  eexists. rewrite Hidevs, lookup_insert_eq. done.
Qed.

(** [iommufd_device_destroy] undoes a successful [iommufd_device_bind]:
    DMA ownership is released, the reference on the context is dropped,
    and the group reference is put back, so that the xarray, the
    allocated groups and the references on the [iommu_group]s are those
    of before the bind. *)
Theorem bind_destroy_round_trip device s s' id :
  groups_wf pf s →
  (∀ p, kzalloc_igroup pf = Some p → igroup_mem s !! p = None) →
  iommufd_device_bind pf device s = Some (s', inl id) →
  let s'' := iommufd_device_destroy pf id s' in
  groups s'' = groups s ∧ igroup_mem s'' = igroup_mem s
  ∧ iommu_group_refs s'' = iommu_group_refs s
  ∧ dma_owners s'' = dma_owners s ∧ ctx_users s'' = ctx_users s.
Proof.
  intros Hwf Hfresh Hbind.
  destruct (bind_spec pf device s Hwf group_id_inj Hfresh)
    as (s2 & r & Hbind' & Hres).
  rewrite Hbind in Hbind'. injection Hbind' as <- <-.
  destruct Hres as (s1 & ptr & group & Hget & _ & _ & _ & _ & _
                    & Hg & Hm & Hr & Hdma & Hcu & Hidevs).
  unfold iommufd_device_destroy. rewrite Hidevs, lookup_insert_eq. simpl.
  set (t := set_dma_owners s' (dma_owners s' ∖ {[+ device +]})).
  destruct (get_group_undo _ _ _ _ _ t Hwf group_id_inj Hfresh Hget
              Hg Hm Hr) as (E1 & E2 & E3).
  destruct (put_group_other_fields pf ptr t) as (E4 & E5 & E6).
  subst t.
  destruct (iommufd_selftest_is_mock_dev pf device); simpl;
    rewrite ?E1, ?E2, ?E3, ?E4, ?E5; simpl;
    rewrite ?Hdma, ?gmultiset_add_remove, ?Hcu; repeat split; try done; lia.
Qed.

End Groups.

(** ** The commands of hw_pagetable.c *)

(** [iommufd_hwpt_alloc] succeeds only for a command that passes every
    check, and what it creates is a finalized hardware page table that is
    not an automatic domain and to which no device is attached.  Named by
    an IOAS, the new hardware page table has no parent and joins the list
    of the IOAS; named by a hardware page table, which needs a type other
    than the default, it is nested on that one, which is neither an
    automatic domain nor nested itself, and does not join the list: the
    nesting is never deeper than one level. *)
Theorem hwpt_alloc_success env pf cmd w w' o :
  iommufd_hwpt_alloc env pf cmd w = (w', Success, o) →
  ha_flags cmd = 0 ∧ ha_reserved cmd = 0
  ∧ (ha_hwpt_type cmd ≠ IOMMU_HWPT_TYPE_DEFAULT →
     Z.testbit (hwpt_type_bitmap env) (ha_hwpt_type cmd) = true
     ∧ is_Some (domain_alloc_user_data_len env))
  ∧ iommufd_ucmd_respond env = Success
  ∧ ∃ idev id h,
      iommufd_get_device env (ha_dev_id cmd) = inl idev
      ∧ o = Some id ∧ iommufd_object_alloc pf = Some id
      ∧ objs w' !! id = Some h
      ∧ hwpt_lockable h = true ∧ auto_domain h = false
      ∧ igroup w' = igroup w
      ∧ match hwpt_parent h with
        | None =>
            iommufd_get_object env (ha_pt_id cmd) = inl IOMMUFD_OBJ_IOAS
            ∧ hwpt_list w' = hwpt_list w ++ [id]
        | Some p =>
            p = ha_pt_id cmd
            ∧ iommufd_get_object env p = inl IOMMUFD_OBJ_HW_PAGETABLE
            ∧ ha_hwpt_type cmd ≠ IOMMU_HWPT_TYPE_DEFAULT
            ∧ hwpt_list w' = hwpt_list w
            ∧ ∃ hp, objs w !! p = Some hp ∧ auto_domain hp = false
                    ∧ hwpt_parent hp = None
        end.
Proof.
  unfold iommufd_hwpt_alloc. intros H.
  destruct (ha_flags cmd =? 0) eqn:Hf; [|done].
  destruct (ha_reserved cmd =? 0) eqn:Hr; [|done]. simpl in H.
  apply Z.eqb_eq in Hf, Hr.
  destruct (iommufd_get_device env (ha_dev_id cmd)) as [idev|e] eqn:Hdev;
    [|done].
  cbn zeta in H.
  destruct (negb (ha_hwpt_type cmd =? IOMMU_HWPT_TYPE_DEFAULT)
            && negb (Z.testbit _ _)) eqn:Hbit; [done|].
  destruct (negb (ha_hwpt_type cmd =? IOMMU_HWPT_TYPE_DEFAULT)
            && negb (bool_decide _)) eqn:Hlen; [done|].
  destruct (hwpt_alloc_parent env cmd w) as [parent|e] eqn:Hpar; [|done].
  destruct (hwpt_alloc_data env cmd) as [data|e]; [|done].
  destruct (iommufd_hw_pagetable_alloc pf idev parent data false w)
    as [[w1 r1] o1] eqn:Halloc.
  destruct r1; [|done].
  apply alloc_no_attach_success in Halloc
    as (id & d & h & -> & Hid & _ & Hobj & _ & Hp & Hauto & _ & Hig & _ & _
        & Hlink).
  destruct (iommufd_ucmd_respond env) eqn:Hresp; [|done].
  injection H as <- <-.
  split; [done|]. split; [done|]. split.
  { intros Hne. apply Z.eqb_neq in Hne. rewrite Hne in Hbit, Hlen.
    simpl in Hbit, Hlen.
    apply negb_false_iff in Hbit. apply negb_false_iff in Hlen.
    split; [done|]. by apply bool_decide_eq_true in Hlen. }
  split; [done|].
  exists idev, id, (set_hwpt_lockable h true).
  unfold iommufd_object_finalize. simpl.
  rewrite lookup_alter_eq, Hobj. simpl.
  do 7 (split; [done|]). rewrite Hp.
  unfold hwpt_alloc_parent in Hpar.
  destruct (iommufd_get_object env (ha_pt_id cmd)) as [[| |]|e] eqn:Hobjt;
    try done.
  - injection Hpar as <-. by destruct Hlink as [-> _].
  - destruct (ha_hwpt_type cmd =? IOMMU_HWPT_TYPE_DEFAULT) eqn:Hty; [done|].
    apply Z.eqb_neq in Hty.
    destruct (objs w !! ha_pt_id cmd) as [hp|] eqn:Hhp; [|done].
    destruct (auto_domain hp) eqn:Hahp; [done|]. simpl in Hpar.
    destruct (bool_decide (hwpt_parent hp ≠ None)) eqn:Hphp; [done|].
    apply bool_decide_eq_false in Hphp.
    injection Hpar as <-. destruct Hlink as (-> & _ & _).
    do 4 (split; [done|]). exists hp. split; [done|]. split; [done|].
    destruct (hwpt_parent hp); [|done]. exfalso. by apply Hphp.
Qed.

(** User space never invalidates a kernel-managed hardware page table:
    [iommufd_hwpt_invalidate] reaches the driver only for a hardware page
    table that is nested on a parent, with a command that has data and a
    zero reserved field, when the driver has the operation and a data
    length for it and the copy of the data succeeded, and then returns
    what the driver returns; for a hardware page table without a parent
    it fails without asking the driver. *)
Theorem hwpt_invalidate_nested_only env cmd w :
  (∀ r d,
     iommufd_hwpt_invalidate env cmd w = (r, Some d) →
     hi_data_len cmd ≠ 0 ∧ hi_reserved cmd = 0
     ∧ cache_invalidate_user env d = Some r
     ∧ cache_invalidate_user_data_len env d ≠ 0
     ∧ ∃ h, objs w !! hi_hwpt_id cmd = Some h
            ∧ is_Some (hwpt_parent h) ∧ hwpt_domain h = Some d)
  ∧ (∀ h, objs w !! hi_hwpt_id cmd = Some h → hwpt_parent h = None →
          (iommufd_hwpt_invalidate env cmd w).2 = None
          ∧ is_failure (iommufd_hwpt_invalidate env cmd w).1 = true).
Proof.
  unfold iommufd_hwpt_invalidate. split.
  - intros r d H.
    destruct (hi_data_len cmd =? 0) eqn:Hlen; [done|].
    destruct (hi_reserved cmd =? 0) eqn:Hres; [|done]. simpl in H.
    apply Z.eqb_neq in Hlen. apply Z.eqb_eq in Hres.
    destruct (iommufd_get_object env (hi_hwpt_id cmd)) as [[| |]|e];
      try done; try (by destruct (objs w !! hi_hwpt_id cmd)).
    destruct (objs w !! hi_hwpt_id cmd) as [h|]; [|done].
    destruct (bool_decide (is_Some (hwpt_parent h))) eqn:Hp; [|done].
    apply bool_decide_eq_true in Hp. simpl in H.
    destruct (hwpt_domain h) as [d'|] eqn:Hd; [|done].
    destruct (cache_invalidate_user env d') as [drv_rc|] eqn:Hop; [|done].
    destruct (cache_invalidate_user_data_len env d' =? 0) eqn:Hk; [done|].
    apply Z.eqb_neq in Hk.
    destruct (copy_struct_from_user env _ _ _); [|done].
    injection H as <- <-. do 4 (split; [done|]). by exists h.
  - intros h Hh Hp. rewrite Hh.
    destruct ((hi_data_len cmd =? 0) || negb (hi_reserved cmd =? 0));
      [done|].
    destruct (iommufd_get_object env (hi_hwpt_id cmd)) as [[| |]|e];
      try done.
    rewrite Hp. rewrite bool_decide_eq_false_2; [done|].
    by intros [? ?].
Qed.

(** ** Attaching a device by object ID *)

(** [iommufd_device_attach] takes its reference on the device exactly
    when it succeeds.  With a well-formed group, a success leaves the
    group attached to the hardware page table whose ID is returned
    through [pt_id], which exists, and the device is the last one of the
    attached devices of the group; for the ID of a hardware page table
    the ID is returned as it was given.  A failure leaves the reference
    count as it was, and an ID that cannot be looked up, or that is
    neither an IOAS nor a hardware page table, changes nothing at
    all. *)
Theorem device_attach_result env pf idev idev_users pt_id w w' r pt_id' n :
  group_wf w →
  iommufd_device_attach env pf idev idev_users pt_id w = (w', r, pt_id', n) →
  match r with
  | Success =>
      n = idev_users + 1
      ∧ ig_hwpt (igroup w') = Some pt_id'
      ∧ is_Some (objs w' !! pt_id')
      ∧ (∃ dl, device_list (igroup w') = dl ++ [dev idev])
      ∧ (iommufd_get_object env pt_id = inl IOMMUFD_OBJ_HW_PAGETABLE
         ∧ pt_id' = pt_id
         ∨ iommufd_get_object env pt_id = inl IOMMUFD_OBJ_IOAS)
  | Failure e =>
      n = idev_users
      ∧ (iommufd_get_object env pt_id = inr e → w' = w ∧ pt_id' = pt_id)
      ∧ (iommufd_get_object env pt_id = inl IOMMUFD_OBJ_OTHER →
         e = EINVAL ∧ w' = w ∧ pt_id' = pt_id)
  end.
Proof.
  intros Hwf H. unfold iommufd_device_attach in H.
  destruct (iommufd_get_object env pt_id) as [[| |]|e0] eqn:Hget.
  - (* an IOAS: automatic domain selection *)
    destruct (iommufd_device_auto_get_domain pf idev pt_id w)
      as [[w1 r1] id1] eqn:Hauto.
    destruct r1 as [|e1]; inversion H; subst; [|done].
    split; [done|].
    unfold iommufd_device_auto_get_domain in Hauto.
    destruct (auto_get_domain_loop pf idev (hwpt_list w) pt_id w)
      as [w2 res] eqn:Hloop.
    pose proof (auto_loop_group _ _ _ _ _ _ _ Hwf Hloop) as Hgrp.
    destruct res as [[r2 id2]|].
    + inversion Hauto; subst.
      destruct Hgrp as (? & ? & ?). repeat (split; [done|]). by right.
    + destruct (iommufd_hw_pagetable_alloc pf idev None false true w2)
        as [[w3 r3] o] eqn:Halloc.
      destruct r3 as [|e3]; [|done].
      pose proof Halloc as Hal.
      apply alloc_success in Hal as (id & h & -> & _ & Hobj & _ & Hdl).
      pose proof (alloc_attach_success_group _ _ _ _ _ Hgrp Halloc) as Hig.
      inversion Hauto; subst. unfold iommufd_object_finalize. simpl.
      split; [done|]. split.
      { rewrite !lookup_alter_eq, Hobj. by eexists. }
      split; [by eexists|by right].
  - (* a hardware page table *)
    destruct (iommufd_hw_pagetable_attach pf pt_id idev w)
      as [w1 r1] eqn:Hatt.
    destruct r1 as [|e1]; inversion H; subst; [|done].
    destruct (attach_success_group _ _ _ _ _ Hwf Hatt) as (? & ? & ?).
    split; [done|]. split; [done|]. split; [done|].
    split; [by eexists|by left].
  - inversion H; subst. split; [done|]. split; [done|]. by intros _.
  - inversion H; subst. by repeat split.
Qed.

(** ** Creating and destroying an access *)

(** A successful [iommufd_access_create] registers exactly one access in
    the accessor set of the IOAS, and returns it: the accesses registered
    before are all still there, and the new one carries the driver's
    data, can be locked, and is aligned to PAGE_SIZE when the driver
    needs pinned pages and to 1 otherwise; the IOAS and the context each
    gain one reference.  From then on an unmap notification makes the
    calls it made before and one more, for the new access, wherever the
    registration has placed it in the walk; the access may pin when the
    driver needs pinned pages and has an unmap operation, and with
    CONFIG_IOMMUFD_TEST and a page size other than 1 every
    [iommufd_access_pin_pages] of an access created without
    [needs_pin_pages] fails with EINVAL.  A failed create changes
    nothing. *)
Theorem access_create_result env ops data_v w ctx w' ctx' res :
  iommufd_access_create env ops data_v w ctx = (w', ctx', res) →
  match res with
  | inl i =>
      let a :=
        {| data := data_v;
           iova_alignment := if needs_pin_pages ops then PAGE_SIZE else 1;
           ops_unmap := unmap ops;
           obj_lockable := true |} in
      (∃ l1 l2, access_list (ioas_iopt w) = l1 ++ l2
                ∧ access_list (ioas_iopt w') = l1 ++ a :: l2)
      ∧ access_list (ioas_iopt w') ≡ₚ a :: access_list (ioas_iopt w)
      ∧ access_list (ioas_iopt w') !! i = Some a
      ∧ ioas_users w' = ioas_users w + 1 ∧ ctx' = ctx + 1
      ∧ (∀ iova length,
           iommufd_access_notify_unmap (ioas_iopt w') iova length
           ≡ₚ {| call_data := data_v; call_iova := iova;
                 call_length := length |}
              :: iommufd_access_notify_unmap (ioas_iopt w) iova length)
      ∧ (needs_pin_pages ops = true → unmap ops = true →
         pin_ops_ok a = true)
      ∧ (CONFIG_IOMMUFD_TEST = true → PAGE_SIZE ≠ 1 →
         needs_pin_pages ops = false →
         ∀ iopt iova length flags st,
           (iommufd_access_pin_pages iopt a iova length flags st).1.2
           = Failure EINVAL)
  | inr e => w' = w ∧ ctx' = ctx
  end.
Proof.
  unfold iommufd_access_create. intros H.
  destruct (object_alloc_access env) as [e0|]; [by inversion H; subst|].
  destruct (get_ioas env) as [e1|]; [by inversion H; subst|].
  unfold iopt_add_access in H.
  destruct (iopt_add_access_rc env) as [|e2].
  2:{ inversion H; subst. split; [|done].
      replace (ioas_users (set_ioas_users w (ioas_users w + 1)) - 1)
        with (ioas_users w + 1 - 1) by done.
      apply world_put_ioas. }
  inversion H; subst. clear H. cbn [ioas_iopt set_ioas_users set_iopt
    access_list set_access_list ioas_users].
  set (k := iopt_add_access_place env). set (l := access_list (ioas_iopt w)).
  rewrite alter_placed.
  cbn [set_obj_lockable data iova_alignment ops_unmap].
  split.
  { exists (take k l), (drop k l). by rewrite take_drop. }
  split; [apply placed_Permutation|].
  split; [by apply list_lookup_middle|].
  split; [done|]. split; [done|]. split.
  { intros iova length. unfold iommufd_access_notify_unmap.
    change (access_list (set_access_list ?x ?y)) with y.
    change (access_list (ioas_iopt w)) with l.
    rewrite <-(take_drop k l) at 3.
    rewrite !notify_unmap_loop_app. simpl.
    by rewrite <-Permutation_middle. }
  split.
  - intros -> ->. unfold pin_ops_ok. cbn [iova_alignment ops_unmap].
    rewrite Z.eqb_refl. by rewrite andb_false_r.
  - intros Htest Hps -> iopt iova length flags st.
    unfold iommufd_access_pin_pages. cbn [iova_alignment ops_unmap].
    rewrite Htest.
    assert ((1 =? PAGE_SIZE) = false) as -> by (apply Z.eqb_neq; lia).
    done.
Qed.

(** [iommufd_access_destroy_object] undoes [iommufd_access_create]: called
    on the access that a successful create returned, it gives back the
    accessor set, the references of the IOAS and of the context, and
    everything else, as they were before the create. *)
Theorem access_create_destroy_round_trip env ops data_v w ctx w' ctx' i :
  iommufd_access_create env ops data_v w ctx = (w', ctx', inl i) →
  iommufd_access_destroy_object i w' ctx' = (w, ctx).
Proof.
  unfold iommufd_access_create. intros H.
  destruct (object_alloc_access env) as [e0|]; [done|].
  destruct (get_ioas env) as [e1|]; [done|].
  unfold iopt_add_access in H.
  destruct (iopt_add_access_rc env) as [|e2]; [|done].
  inversion H; subst. clear H.
  unfold iommufd_access_destroy_object, iopt_remove_access.
  cbn [ioas_iopt set_ioas_users set_iopt access_list set_access_list
       ioas_users].
  rewrite alter_placed, delete_placed.
  f_equal; [|lia].
  destruct w as [o hl iopt u g gd he]. destruct iopt.
  unfold set_ioas_users, set_iopt, set_access_list. simpl.
  f_equal. lia.
Qed.

End Iommufd.

(** * The theorems at concrete requests

    Pages of 4096 bytes, [IOMMUFD_ACCESS_RW_WRITE = 1], [IOMMU_READ = 1],
    [IOMMU_WRITE = 2], and a self-test build. *)

Abbreviation pin_pages_4k := (iommufd_access_pin_pages 4096 1 1 2 true).
Abbreviation unpin_pages_4k := (iommufd_access_unpin_pages 4096).
Abbreviation rw_4k := (iommufd_access_rw 4096 1 1 2).

Lemma example_covered_0x5000 : range_covered Examples.iopt 0x5000 0x5fff.
Proof. apply contig_done_covered. vm_compute. reflexivity. Qed.

Lemma example_covered_0x3000 : range_covered Examples.iopt 0x3000 0x3fff.
Proof. apply contig_done_covered. vm_compute. reflexivity. Qed.

Lemma example_covered_0x5000_0x6fff :
  range_covered Examples.iopt 0x5000 0x6fff.
Proof. apply contig_done_covered. vm_compute. reflexivity. Qed.

(** C1 as stated fails.  A read of the page at 0x3000 has a non-zero
    length, does not overflow, is page aligned, is fully covered by one
    Area and is within that Area's permissions, and yet fails, with EINVAL,
    because the Area is marked [prevent_access]; a read of the two pages
    at 0x5000 is likewise covered, aligned and permitted and fails with
    the EFAULT of the Pages Store.  And a range that is not covered fails
    with ENOENT, which is not the EINVAL of a zero length. *)
Lemma pin_pages_claimed_errors_counterexample :
  range_covered Examples.iopt 0x3000 0x3fff
  ∧ (pin_pages_4k Examples.iopt Examples.access 0x3000 0x1000 0
       Examples.st).1.2 = Failure EINVAL
  ∧ range_covered Examples.iopt 0x5000 0x6fff
  ∧ (pin_pages_4k Examples.iopt Examples.access 0x5000 0x2000 0
       Examples.st).1.2 = Failure EFAULT
  ∧ ¬ range_covered Examples.iopt 0x4000 0x4fff
  ∧ (pin_pages_4k Examples.iopt Examples.access 0x4000 0x1000 0
       Examples.st).1.2 = Failure ENOENT
  ∧ (pin_pages_4k Examples.iopt Examples.access 0x4000 0 0
       Examples.st).1.2 = Failure EINVAL.
Proof.
  split; [exact example_covered_0x3000|].
  split; [vm_compute; reflexivity|].
  split; [exact example_covered_0x5000_0x6fff|].
  split; [vm_compute; reflexivity|].
  split; [|split; vm_compute; reflexivity].
  intros Hcov. destruct (Hcov 0x4000 ltac:(lia)) as (a & Hin & _ & Ha).
  unfold Examples.iopt in Hin. simpl in Hin.
  repeat (apply elem_of_cons in Hin as [->|Hin]; [simpl in Ha; lia|]).
  by apply elem_of_nil in Hin.
Qed.

Lemma pin_pages_result_witness :
  pin_ops_ok 4096 true Examples.access = true
  ∧ 0 ≤ 0x5000 ∧ 0 ≤ 0x1000
  ∧ (pin_pages_4k Examples.iopt Examples.access 0x5000 0x1000 0
       Examples.st).1.2 = Success
  ∧ (pin_pages_4k Examples.iopt Examples.access 0x5000 0x1000 0
       Examples.st).2 = [(0%nat, 2)].
Proof.
  assert (pin_ops_ok 4096 true Examples.access = true) as Hops
    by reflexivity.
  assert (0 ≤ 0x5000) as Hiova by lia.
  assert (0 ≤ 0x1000) as Hlen by lia.
  split; [exact Hops|]. split; [exact Hiova|]. split; [exact Hlen|].
  destruct (pin_pages_result 4096 1 1 2 true Examples.iopt Examples.access
              0x5000 0x1000 0 Examples.st Hops Hiova Hlen)
    as (_ & _ & H).
  assert (request_last 0x5000 0x1000 ≤ ULONG_MAX) as Hmax
    by (vm_compute; discriminate).
  specialize (H ltac:(lia) Hmax).
  destruct H as [_ H].
  exact (H eq_refl example_covered_0x5000).
Defined.

(** A write over the first two areas pins the page of the first area,
    fails with EPERM at the second, which is read-only, and unwinds. *)
Lemma pin_pages_error_unwinds_witness :
  pin_pages_4k Examples.iopt Examples.access 0x1000 0x2000 1 Examples.st
  = (Examples.st, Failure EPERM, [(0%nat, 0)])
  ∧ num_accesses Examples.st = num_accesses Examples.st
  ∧ access_itree Examples.st = access_itree Examples.st
  ∧ memory Examples.st = memory Examples.st
  ∧ ∀ p index,
      access_pin_count Examples.st p index
      = access_pin_count Examples.st p index.
Proof.
  assert (pin_pages_4k Examples.iopt Examples.access 0x1000 0x2000 1
            Examples.st
          = (Examples.st, Failure EPERM, [(0%nat, 0)])) as H
    by (vm_compute; reflexivity).
  split; [exact H|].
  exact (pin_pages_error_unwinds 4096 1 1 2 true _ _ _ _ _ _ _ _ _ H).
Defined.

(** A read over the second and third areas meets the third, which is
    being unmapped. *)
Lemma prevent_access_blocks_new_access_witness :
  iopt_wf Examples.iopt = true
  ∧ Examples.mk_area 0x3000 0x3fff 0 0x1000 3 true ∈ areas Examples.iopt
  ∧ prevent_access (Examples.mk_area 0x3000 0x3fff 0 0x1000 3 true) = true
  ∧ 0 ≤ 0x2000
  ∧ 0x2000 ≤ 0x3000 < 0x2000 + 0x2000
  ∧ 0x3000 ≤ 0x3000 ≤ 0x3fff
  ∧ is_failure
      (pin_pages_4k Examples.iopt Examples.access 0x2000 0x2000 0
         Examples.st).1.2 = true
  ∧ is_failure
      (rw_4k Examples.iopt 0x2000 Examples.buf 0x2000 0 Examples.st).1.2
    = true.
Proof.
  assert (iopt_wf Examples.iopt = true) as Hwf by reflexivity.
  assert (Examples.mk_area 0x3000 0x3fff 0 0x1000 3 true
          ∈ areas Examples.iopt) as Hin.
  { unfold Examples.iopt. simpl. do 2 apply elem_of_cons, or_intror.
    apply elem_of_cons. by left. }
  assert (prevent_access (Examples.mk_area 0x3000 0x3fff 0 0x1000 3 true)
          = true) as Hprev by reflexivity.
  assert (0 ≤ 0x2000) as Hiova by lia.
  assert (0x2000 ≤ 0x3000 < 0x2000 + 0x2000) as Hx by lia.
  assert (node_start (Examples.mk_area 0x3000 0x3fff 0 0x1000 3 true)
          ≤ 0x3000
          ≤ node_last (Examples.mk_area 0x3000 0x3fff 0 0x1000 3 true))
    as Hxa by (simpl; lia).
  destruct (prevent_access_blocks_new_access 4096 1 1 2 true
              Examples.iopt Examples.access 0x2000 0x2000 0 Examples.buf
              Examples.st _ 0x3000 Hwf Hin Hprev Hiova Hx Hxa)
    as (Hpin & _ & _ & Hrw & _ & _).
  split; [exact Hwf|]. split; [exact Hin|]. split; [exact Hprev|].
  split; [exact Hiova|]. split; [exact Hx|]. split; [exact Hxa|].
  split; [exact Hpin|exact Hrw].
Defined.

(** Unpinning the range of a successful pin gives back the state of
    before the pin; the three misuses are reported. *)
Lemma unpin_pages_inverse_or_warn_witness :
  (pin_pages_4k Examples.iopt Examples.access 0x5000 0x1000 0
     Examples.st).1.2 = Success
  ∧ unpin_pages_4k Examples.iopt 0x5000 0x1000
      (pin_pages_4k Examples.iopt Examples.access 0x5000 0x1000 0
         Examples.st).1.1
    = Examples.st
  ∧ warnings (unpin_pages_4k Examples.iopt 0x5000 0 Examples.st)
    = [WARN_ZERO_LENGTH]
  ∧ warnings (unpin_pages_4k Examples.iopt 0x5000 (2 ^ 64) Examples.st)
    = [WARN_OVERFLOW]
  ∧ list.last
      (warnings (unpin_pages_4k Examples.iopt 0x4000 0x1000 Examples.st))
    = Some WARN_NOT_CONTIG.
Proof.
  destruct (unpin_pages_inverse_or_warn 4096 1 1 2 true Examples.iopt
              Examples.access 0x5000 0x1000 0 Examples.st) as (Hinv & _).
  destruct (unpin_pages_inverse_or_warn 4096 1 1 2 true Examples.iopt
              Examples.access 0x5000 0 0 Examples.st) as (_ & Hzero & _).
  destruct (unpin_pages_inverse_or_warn 4096 1 1 2 true Examples.iopt
              Examples.access 0x5000 (2 ^ 64) 0 Examples.st)
    as (_ & _ & Hover & _).
  destruct (unpin_pages_inverse_or_warn 4096 1 1 2 true Examples.iopt
              Examples.access 0x4000 0x1000 0 Examples.st)
    as (_ & _ & _ & Hgap).
  split; [reflexivity|].
  split.
  { apply (Hinv _ [(0%nat, 2)]). vm_compute. reflexivity. }
  split; [by rewrite (Hzero eq_refl)|].
  split.
  { rewrite Hover; [done|lia|unfold ULONG_MAX; lia]. }
  apply Hgap; [lia|lia|unfold ULONG_MAX; lia|].
  intros Hcov. destruct (Hcov 0x4000 ltac:(lia)) as (a & Hin & _ & Ha).
  unfold Examples.iopt in Hin. simpl in Hin.
  repeat (apply elem_of_cons in Hin as [->|Hin]; [simpl in Ha; lia|]).
  by apply elem_of_nil in Hin.
Defined.

Lemma example_covered_0x1ffe : range_covered Examples.iopt 0x1ffe 0x2001.
Proof. apply contig_done_covered. vm_compute. reflexivity. Qed.

(** Four bytes across the first two areas, which no pinning accepts as
    they are not page aligned.  A write fails with EPERM at the second
    area, which is read-only, and a read succeeds; neither leaves an
    access. *)
Lemma rw_checks_as_pin_pages_witness :
  0 ≤ 0x1ffe ∧ 0 ≤ 4
  ∧ (rw_4k Examples.iopt 0x1ffe Examples.buf 4 1 Examples.st).1.2
    = Failure EPERM
  ∧ num_accesses
      (rw_4k Examples.iopt 0x1ffe Examples.buf 4 1 Examples.st).1.1
    = num_accesses Examples.st
  ∧ (rw_4k Examples.iopt 0x1ffe Examples.buf 4 0 Examples.st).1.2 = Success
  ∧ (pin_pages_4k Examples.iopt Examples.access 0x1ffe 4 0
       Examples.st).1.2 = Failure EINVAL.
Proof.
  assert (0 ≤ 0x1ffe) as Hiova by lia.
  assert (0 ≤ 4) as Hlen by lia.
  assert (0 < 4) as Hpos by lia.
  assert (request_last 0x1ffe 4 ≤ ULONG_MAX) as Hlast by (by vm_compute).
  destruct (rw_checks_as_pin_pages 4096 1 1 2 true Examples.iopt
              Examples.access 0x1ffe Examples.buf 4 1 Examples.st
              Hiova Hlen) as ((Hnum & _) & _ & _ & Hwrite & _).
  destruct (rw_checks_as_pin_pages 4096 1 1 2 true Examples.iopt
              Examples.access 0x1ffe Examples.buf 4 0 Examples.st
              Hiova Hlen) as (_ & _ & _ & Hread & _).
  specialize (Hwrite Hpos Hlast). specialize (Hread Hpos Hlast).
  split; [exact Hiova|]. split; [exact Hlen|].
  split.
  { match type of Hwrite with
    | match ?x with _ => _ end =>
        assert (x = Some EPERM) as Hfe by (vm_compute; reflexivity);
        rewrite Hfe in Hwrite
    end.
    exact Hwrite. }
  split; [exact Hnum|].
  split.
  { match type of Hread with
    | match ?x with _ => _ end =>
        assert (x = None) as Hfe by (vm_compute; reflexivity);
        rewrite Hfe in Hread
    end.
    exact (proj2 Hread eq_refl example_covered_0x1ffe). }
  vm_compute. reflexivity.
Defined.

(** C9: [iommufd_access_rw] is not atomic on failure.  On the example
    table a four-byte write that starts two bytes before the end of the
    first area fails with EPERM at the second area, which is read-only; a
    four-byte read that starts two bytes before the end of the second area
    fails with EINVAL at the third, which is being unmapped; a four-byte
    write that starts two bytes before the end of the last area fails with
    ENOENT where nothing is mapped.  Each time the two bytes of the earlier
    area have been copied and stay copied: the backing memory, or the
    buffer, holds a prefix of the transfer. *)
Theorem rw_not_atomic_on_failure :
  let written := [Byte.x01; Byte.x02] in
  let st_read :=
    set_memory Examples.st (mem_write ∅ 1%nat 0xffe written) in
  let wr := rw_4k Examples.iopt 0x1ffe Examples.buf 4 1 Examples.st in
  let rd := rw_4k Examples.iopt 0x2ffe Examples.buf 4 0 st_read in
  let gap := rw_4k Examples.iopt 0x7ffe Examples.buf 4 1 Examples.st in
  (wr.1.2 = Failure EPERM
   ∧ mem_read (memory Examples.st) 0%nat 0xffe 2 = [Byte.x00; Byte.x00]
   ∧ mem_read (memory wr.1.1) 0%nat 0xffe 2 = take 2 Examples.buf)
  ∧ (rd.1.2 = Failure EINVAL
     ∧ rd.2 = written ++ drop 2 Examples.buf)
  ∧ (gap.1.2 = Failure ENOENT
     ∧ mem_read (memory gap.1.1) 0%nat 0x3ffe 2 = take 2 Examples.buf).
Proof. vm_compute. repeat split; reflexivity. Qed.

(** C10 as stated fails: the second access of the example table is
    registered, but its object cannot be locked, and its callback is not
    called. *)
Lemma notify_unmap_every_access_counterexample :
  let skipped :=
    {| data := 2; iova_alignment := 4096; ops_unmap := true;
       obj_lockable := false |} in
  skipped ∈ access_list Examples.iopt
  ∧ iommufd_access_notify_unmap Examples.iopt 0x3000 0x1000
    = [ {| call_data := 1; call_iova := 0x3000; call_length := 0x1000 |} ]
  ∧ ¬ ∃ call,
        call ∈ iommufd_access_notify_unmap Examples.iopt 0x3000 0x1000
        ∧ call_data call = data skipped.
Proof.
  split; [|split].
  - unfold Examples.iopt. simpl. apply elem_of_cons, or_intror.
    apply elem_of_cons. by left.
  - reflexivity.
  - intros (call & Hin & Hdata). simpl in Hin.
    apply elem_of_cons in Hin as [->|Hin]; [simpl in Hdata; lia|].
    by apply elem_of_nil in Hin.
Qed.

Abbreviation attach_64 := (iommufd_hw_pagetable_attach (2 ^ 64 - 1)).
Abbreviation alloc_64 := (iommufd_hw_pagetable_alloc (2 ^ 64 - 1)).
Abbreviation auto_get_domain_64 :=
  (iommufd_device_auto_get_domain (2 ^ 64 - 1)).

(** The example world with an empty domain 102. *)
Abbreviation world_102 :=
  (set_hw_entries Examples.world0
     (<[102%nat := []]> (hw_entries Examples.world0))).



(** The example world after the failed attach to the hardware page table
    10, and after the failed attaches to 10 and 11. *)
Abbreviation world_after pf :=
  (attach_64 pf 10%nat Examples.idev Examples.world0).1.
Abbreviation world_after2 pf :=
  (attach_64 pf 11%nat Examples.idev (world_after pf)).1.

Lemma auto_get_domain_selects_witness :
  skipped (2 ^ 64 - 1) Examples.pf_second Examples.idev [10%nat]
    Examples.world0 (world_after Examples.pf_second)
  ∧ auto_get_domain_64 Examples.pf_second Examples.idev 1%nat Examples.world0
    = (world_after2 Examples.pf_second, Success, 11%nat)
  ∧ auto_get_domain_64 Examples.pf_busy Examples.idev 1%nat Examples.world0
    = (world_after Examples.pf_busy, Failure EBUSY, 10%nat)
  ∧ skipped (2 ^ 64 - 1) Examples.pf_new Examples.idev [10%nat; 11%nat]
      Examples.world0 (world_after2 Examples.pf_new)
  ∧ (let w3 :=
       (auto_get_domain_64 Examples.pf_new Examples.idev 1%nat
          Examples.world0).1.1 in
     (auto_get_domain_64 Examples.pf_new Examples.idev 1%nat
        Examples.world0).1.2 = Success
     ∧ (auto_get_domain_64 Examples.pf_new Examples.idev 1%nat
          Examples.world0).2 = 12%nat
     ∧ hwpt_list w3 = [10%nat; 11%nat; 12%nat]
     ∧ device_list (igroup w3) = [1%nat]).
Proof.
  assert (skipped (2 ^ 64 - 1) Examples.pf_second Examples.idev [10%nat]
            Examples.world0 (world_after Examples.pf_second)) as Hskip.
  { apply (skipped_incompatible _ _ _ 10%nat [] Examples.world0
             (world_after Examples.pf_second) _ (Examples.mk_hwpt 100));
      [reflexivity|reflexivity|reflexivity|vm_compute; reflexivity|].
    apply skipped_nil. }
  assert (skipped (2 ^ 64 - 1) Examples.pf_new Examples.idev
            [10%nat; 11%nat] Examples.world0
            (world_after2 Examples.pf_new)) as Hskip2.
  { apply (skipped_incompatible _ _ _ 10%nat [11%nat] Examples.world0
             (world_after Examples.pf_new) _ (Examples.mk_hwpt 100));
      [reflexivity|reflexivity|reflexivity|vm_compute; reflexivity|].
    apply (skipped_incompatible _ _ _ 11%nat [] _
             (world_after2 Examples.pf_new) _ (Examples.mk_hwpt 101));
      [vm_compute; reflexivity|reflexivity|reflexivity
      |vm_compute; reflexivity|].
    apply skipped_nil. }
  split; [exact Hskip|].
  split.
  { apply (proj1 (auto_get_domain_selects (2 ^ 64 - 1) Examples.pf_second
                    Examples.idev 1%nat Examples.world0)
             [10%nat] 11%nat [] (world_after Examples.pf_second) _
             (Examples.mk_hwpt 101) Success);
      [reflexivity|exact Hskip|vm_compute; reflexivity|reflexivity
      |reflexivity|vm_compute; reflexivity|discriminate]. }
  split.
  { apply (proj1 (auto_get_domain_selects (2 ^ 64 - 1) Examples.pf_busy
                    Examples.idev 1%nat Examples.world0)
             [] 10%nat [11%nat] Examples.world0 _
             (Examples.mk_hwpt 100) (Failure EBUSY));
      [reflexivity|apply skipped_nil|reflexivity|reflexivity
      |reflexivity|vm_compute; reflexivity|discriminate]. }
  split; [exact Hskip2|].
  pose proof (proj2 (auto_get_domain_selects (2 ^ 64 - 1) Examples.pf_new
                       Examples.idev 1%nat Examples.world0)
                _ Hskip2) as H.
  destruct (alloc_64 Examples.pf_new Examples.idev None false true
              (world_after2 Examples.pf_new)) as [[w2 r] o] eqn:Halloc.
  assert (r = Success) as ->.
  { change r with (w2, r, o).1.2. rewrite <-Halloc. vm_compute; reflexivity. }
  destruct (auto_get_domain_64 Examples.pf_new Examples.idev 1%nat
              Examples.world0) as [[w3 r'] pt_id'].
  destruct H as (-> & Hid & _ & Hlist & Hdl).
  assert (pt_id' = 12%nat) as -> by (vm_compute in Hid; congruence).
  cbn zeta. cbn [fst snd].
  split; [reflexivity|].
  split; [reflexivity|].
  split.
  - rewrite Hlist. vm_compute; reflexivity.
  - rewrite Hdl. vm_compute; reflexivity.
Defined.

(** ** Instances of the further properties *)

Abbreviation get_group_64 := (iommufd_get_group (2 ^ 64 - 1)).
Abbreviation bind_64 := (iommufd_device_bind (2 ^ 64 - 1)).

(** The example world after the attach of [Examples.idev] to the
    hardware page table 11. *)
Abbreviation world_attached :=
  (attach_64 Examples.pf_second 11%nat Examples.idev Examples.world0).1.

Lemma example_group_wf : group_wf Examples.world0.
Proof. by split. Qed.

Lemma example_owns_nothing d :
  owns_nothing (ioas_iopt Examples.world0) d.
Proof. constructor. Qed.

Lemma example_attach_11 :
  attach_64 Examples.pf_second 11%nat Examples.idev Examples.world0
  = (world_attached, Success).
Proof. vm_compute; reflexivity. Qed.

Lemma attach_group_single_hwpt_witness :
  group_wf Examples.world0
  ∧ attach_64 Examples.pf_second 11%nat Examples.idev Examples.world0
    = (world_attached, Success)
  ∧ attach_64 MoreExamples.pf_msi 10%nat MoreExamples.idev2 world_attached
    = (world_attached, Failure EINVAL).
Proof.
  split; [exact example_group_wf|]. split; [exact example_attach_11|].
  apply (attach_group_single_hwpt (2 ^ 64 - 1) Examples.pf_second
           MoreExamples.pf_msi 11%nat 10%nat Examples.idev
           MoreExamples.idev2 Examples.world0 world_attached
           example_group_wf example_attach_11).
  - lia.
  - exists (set_enforce_cc (Examples.mk_hwpt 100) false).
    vm_compute; reflexivity.
Defined.

Lemma attach_follows_group_witness :
  device_list (igroup world_attached) ≠ []
  ∧ attach_64
      (with_group_ops Examples.pf_second (λ _, Failure EBUSY)
         (λ _ _, Failure EBUSY))
      11%nat MoreExamples.idev2 world_attached
    = attach_64 Examples.pf_second 11%nat MoreExamples.idev2 world_attached
  ∧ (attach_64 Examples.pf_second 11%nat MoreExamples.idev2
       world_attached).2 = Success.
Proof.
  assert (device_list (igroup world_attached) ≠ []) as Hdl
    by (vm_compute; discriminate).
  split; [exact Hdl|]. split; [|vm_compute; reflexivity].
  exact (proj1 (attach_follows_group (2 ^ 64 - 1) Examples.pf_second
                  (λ _, Failure EBUSY) (λ _ _, Failure EBUSY) 11%nat
                  MoreExamples.idev2 world_attached Hdl)).
Defined.

Lemma attach_detach_round_trip_witness :
  owns_nothing (ioas_iopt Examples.world0) (dev Examples.idev)
  ∧ ig_hwpt (igroup Examples.world0) = None
  ∧ device_list (igroup Examples.world0) = []
  ∧ ioas_iopt (iommufd_hw_pagetable_detach Examples.idev world_attached).1
    = ioas_iopt Examples.world0
  ∧ ig_hwpt
      (igroup (iommufd_hw_pagetable_detach Examples.idev world_attached).1)
    = None
  ∧ (iommufd_hw_pagetable_detach Examples.idev world_attached).2
    = Some 11%nat.
Proof.
  split; [exact (example_owns_nothing _)|].
  split; [reflexivity|]. split; [reflexivity|].
  destruct (attach_detach_round_trip (2 ^ 64 - 1) Examples.pf_second 11%nat
              Examples.idev Examples.world0 world_attached
              (example_owns_nothing _) eq_refl eq_refl example_attach_11)
    as (H1 & H2 & _ & H4 & _).
  split; [exact H2|]. split; [exact H4|exact H1].
Defined.

Lemma example_attach_11_second :
  attach_64 Examples.pf_second 11%nat MoreExamples.idev2 world_attached
  = ((attach_64 Examples.pf_second 11%nat MoreExamples.idev2
        world_attached).1, Success).
Proof. vm_compute; reflexivity. Qed.

Lemma detach_keeps_group_attached_witness :
  dev Examples.idev ≠ dev MoreExamples.idev2
  ∧ device_list
      (igroup
         (iommufd_hw_pagetable_detach Examples.idev
            (attach_64 Examples.pf_second 11%nat MoreExamples.idev2
               world_attached).1).1)
    = [2%nat]
  ∧ ig_hwpt
      (igroup
         (iommufd_hw_pagetable_detach Examples.idev
            (attach_64 Examples.pf_second 11%nat MoreExamples.idev2
               world_attached).1).1)
    = Some 11%nat.
Proof.
  assert (dev Examples.idev ≠ dev MoreExamples.idev2) as Hne
    by (simpl; lia).
  split; [exact Hne|].
  destruct (detach_keeps_group_attached (2 ^ 64 - 1) Examples.pf_second
              11%nat Examples.idev MoreExamples.idev2 Examples.world0
              world_attached _ Hne (example_owns_nothing _)
              (example_owns_nothing _) eq_refl eq_refl example_attach_11
              example_attach_11_second)
    as (_ & H2 & H3 & _).
  split; [exact H2|exact H3].
Defined.

Lemma attach_only_upgrades_witness :
  attach_64 Examples.pf_second 11%nat Examples.idev Examples.world0
  = (world_attached, Success)
  ∧ ∃ h', objs world_attached !! 11%nat = Some h'
          ∧ enforce_cache_coherency h' = true.
Proof.
  split; [exact example_attach_11|].
  exact (proj2 (attach_only_upgrades (2 ^ 64 - 1) Examples.pf_second 11%nat
                  Examples.idev Examples.world0 world_attached Success
                  example_attach_11) eq_refl eq_refl).
Defined.

Lemma example_fresh_id (pf : platform) :
  iommufd_object_alloc pf = Some 12%nat →
  ∀ n, iommufd_object_alloc pf = Some n → objs Examples.world0 !! n = None.
Proof. intros -> n [= <-]. reflexivity. Qed.

Lemma auto_get_domain_never_manual_witness :
  (∀ n, iommufd_object_alloc Examples.pf_new = Some n →
        objs Examples.world0 !! n = None)
  ∧ (auto_get_domain_64 Examples.pf_new Examples.idev 1%nat
       Examples.world0).1.2 = Success
  ∧ ∃ h, objs
           (auto_get_domain_64 Examples.pf_new Examples.idev 1%nat
              Examples.world0).1.1 !! 12%nat = Some h
         ∧ auto_domain h = true.
Proof.
  pose proof (example_fresh_id Examples.pf_new eq_refl) as Hfresh.
  split; [exact Hfresh|]. split; [vm_compute; reflexivity|].
  assert (auto_get_domain_64 Examples.pf_new Examples.idev 1%nat
            Examples.world0
          = ((auto_get_domain_64 Examples.pf_new Examples.idev 1%nat
                Examples.world0).1.1, Success, 12%nat)) as Heq
    by (vm_compute; reflexivity).
  exact (proj2 (auto_get_domain_never_manual (2 ^ 64 - 1) Examples.pf_new
                  Examples.idev 1%nat Examples.world0 _ Success 12%nat
                  Hfresh Heq) eq_refl).
Defined.

Lemma alloc_links_only_parents_witness :
  ops_domain_alloc_user Examples.pf_new = false
  ∧ alloc_64 Examples.pf_new Examples.idev (Some 10%nat) false true
      Examples.world0
    = (Examples.world0, Failure EOPNOTSUPP, None)
  ∧ hwpt_list
      (alloc_64 Examples.pf_new Examples.idev None false false
         Examples.world0).1.1
    = [10%nat; 11%nat; 12%nat].
Proof.
  destruct (alloc_links_only_parents (2 ^ 64 - 1) Examples.pf_new
              Examples.idev (Some 10%nat) false Examples.world0)
    as [Hnosup _].
  destruct (alloc_links_only_parents (2 ^ 64 - 1) Examples.pf_new
              Examples.idev None false Examples.world0)
    as [_ Hlink].
  assert (Some 10%nat ≠ @None nat) as Hp by discriminate.
  split; [reflexivity|].
  split; [exact (Hnosup eq_refl (or_intror Hp) true)|].
  assert (alloc_64 Examples.pf_new Examples.idev None false false
            Examples.world0
          = ((alloc_64 Examples.pf_new Examples.idev None false false
                Examples.world0).1.1, Success, Some 12%nat)) as Heq
    by (vm_compute; reflexivity).
  destruct (Hlink _ _ Heq)
    as (id & d & h & Ho & _ & _ & _ & _ & _ & _ & _ & _ & _ & _ & Hl & _).
  injection Ho as <-. exact Hl.
Defined.

Lemma attach_msi_cookie_once_witness :
  device_list (igroup Examples.world0) = []
  ∧ (attach_64 MoreExamples.pf_msi 11%nat Examples.idev Examples.world0).2
    = Success
  ∧ (∃ h', objs
             (attach_64 MoreExamples.pf_msi 11%nat Examples.idev
                Examples.world0).1 !! 11%nat = Some h'
           ∧ msi_cookie h' = true)
  ∧ attach_64
      (with_group_ops MoreExamples.pf_msi
         (iommu_attach_group MoreExamples.pf_msi) (λ _ _, Failure EBUSY))
      11%nat Examples.idev
      (iommufd_hw_pagetable_detach Examples.idev
         (attach_64 MoreExamples.pf_msi 11%nat Examples.idev
            Examples.world0).1).1
    = attach_64 MoreExamples.pf_msi 11%nat Examples.idev
        (iommufd_hw_pagetable_detach Examples.idev
           (attach_64 MoreExamples.pf_msi 11%nat Examples.idev
              Examples.world0).1).1.
Proof.
  destruct (attach_msi_cookie_once (2 ^ 64 - 1) MoreExamples.pf_msi 11%nat)
    as [Hset Honce].
  assert (attach_64 MoreExamples.pf_msi 11%nat Examples.idev Examples.world0
          = ((attach_64 MoreExamples.pf_msi 11%nat Examples.idev
                Examples.world0).1, Success)) as Heq
    by (vm_compute; reflexivity).
  split; [reflexivity|]. split; [vm_compute; reflexivity|].
  split.
  - apply (Hset Examples.idev Examples.world0 _ eq_refl Heq).
    vm_compute. discriminate.
  - apply (Honce Examples.idev _
             (set_hwpt_users
                (set_msi_cookie (set_enforce_cc (Examples.mk_hwpt 101) true)
                   true) 2)
             (λ _ _, Failure EBUSY)).
    + vm_compute; reflexivity.
    + reflexivity.
Defined.

Lemma access_functions_frame_witness :
  memory (pin_pages_4k Examples.iopt Examples.access 0x1000 0x2000 0
            Examples.st).1.1 = memory Examples.st
  ∧ memory (unpin_pages_4k Examples.iopt 0x1000 0x2000 Examples.st)
    = memory Examples.st
  ∧ memory (rw_4k Examples.iopt 0x1000 Examples.buf 4 0 Examples.st).1.1
    = memory Examples.st
  ∧ (rw_4k Examples.iopt 0x1000 Examples.buf 4 1 Examples.st).2
    = Examples.buf.
Proof.
  destruct (access_functions_frame 4096 1 1 2 true Examples.iopt
              Examples.access 0x1000 0x2000 0 Examples.buf Examples.st)
    as (H1 & H2 & _).
  destruct (access_functions_frame 4096 1 1 2 true Examples.iopt
              Examples.access 0x1000 4 0 Examples.buf Examples.st)
    as (_ & _ & H3 & _).
  destruct (access_functions_frame 4096 1 1 2 true Examples.iopt
              Examples.access 0x1000 4 1 Examples.buf Examples.st)
    as (_ & _ & _ & H4).
  split; [exact H1|]. split; [exact H2|].
  split; [exact (H3 eq_refl)|exact (H4 eq_refl)].
Defined.

Lemma example_pin_two_areas :
  pin_pages_4k Examples.iopt Examples.access 0x1000 0x1800 0 Examples.st
  = ((pin_pages_4k Examples.iopt Examples.access 0x1000 0x1800 0
        Examples.st).1.1, Success, [(0%nat, 0); (1%nat, 0)]).
Proof. vm_compute; reflexivity. Qed.

Lemma pin_pages_page_count_witness :
  0 < 4096 ∧ 0 ≤ 0x1000 ∧ 0 < 0x1800
  ∧ 0x1000 + (0x1800 - 1) ≤ ULONG_MAX
  ∧ (pin_pages_4k Examples.iopt Examples.access 0x1000 0x1800 0
       Examples.st).1.2 = Success
  ∧ Z.of_nat
      (List.length
         (pin_pages_4k Examples.iopt Examples.access 0x1000 0x1800 0
            Examples.st).2)
    = (0x1800 + 4096 - 1) / 4096.
Proof.
  assert (0 < 4096) as H1 by lia.
  assert (0 ≤ 0x1000) as H2 by lia.
  assert (0 < 0x1800) as H3 by lia.
  assert (0x1000 + (0x1800 - 1) ≤ ULONG_MAX) as H4
    by (unfold ULONG_MAX; lia).
  repeat (split; [assumption|]).
  split; [vm_compute; reflexivity|].
  rewrite example_pin_two_areas at 1.
  exact (pin_pages_page_count 4096 1 1 2 true Examples.iopt Examples.access
           0x1000 0x1800 0 Examples.st _ _ H1 H2 H3 H4
           example_pin_two_areas).
Defined.

Lemma pin_pages_pin_counts_witness :
  (pin_pages_4k Examples.iopt Examples.access 0x1000 0x1800 0
     Examples.st).1.2 = Success
  ∧ access_pin_count
      (pin_pages_4k Examples.iopt Examples.access 0x1000 0x1800 0
         Examples.st).1.1 0%nat 0
    = (access_pin_count Examples.st 0%nat 0 + 1)%nat.
Proof.
  split; [vm_compute; reflexivity|].
  exact (pin_pages_pin_counts 4096 1 1 2 true Examples.iopt Examples.access
           0x1000 0x1800 0 Examples.st _ _ example_pin_two_areas 0%nat 0).
Defined.

Lemma example_iopt_wf : iopt_wf Examples.iopt = true.
Proof. reflexivity. Qed.

Lemma rw_write_read_round_trip_witness :
  iopt_wf Examples.iopt = true
  ∧ 0 ≤ 0x1000 ∧ 0 < 4 ∧ 0x1000 + (4 - 1) ≤ ULONG_MAX
  ∧ (rw_4k Examples.iopt 0x1000 Examples.buf 4 1 Examples.st).1.2 = Success
  ∧ (rw_4k Examples.iopt 0x1000 [Byte.x00; Byte.x00; Byte.x00; Byte.x00] 4 0
       (rw_4k Examples.iopt 0x1000 Examples.buf 4 1 Examples.st).1.1).2
    = Examples.buf.
Proof.
  assert (0 ≤ 0x1000) as H2 by lia.
  assert (0 < 4) as H3 by lia.
  assert (0x1000 + (4 - 1) ≤ ULONG_MAX) as H4 by (unfold ULONG_MAX; lia).
  split; [exact example_iopt_wf|].
  repeat (split; [assumption|]).
  split; [vm_compute; reflexivity|].
  assert (rw_4k Examples.iopt 0x1000 Examples.buf 4 1 Examples.st
          = ((rw_4k Examples.iopt 0x1000 Examples.buf 4 1 Examples.st).1.1,
             Success,
             (rw_4k Examples.iopt 0x1000 Examples.buf 4 1 Examples.st).2))
    as Hw by (vm_compute; reflexivity).
  assert (rw_4k Examples.iopt 0x1000
            [Byte.x00; Byte.x00; Byte.x00; Byte.x00] 4 0
            (rw_4k Examples.iopt 0x1000 Examples.buf 4 1 Examples.st).1.1
          = ((rw_4k Examples.iopt 0x1000
                [Byte.x00; Byte.x00; Byte.x00; Byte.x00] 4 0
                (rw_4k Examples.iopt 0x1000 Examples.buf 4 1
                   Examples.st).1.1).1.1,
             Success,
             (rw_4k Examples.iopt 0x1000
                [Byte.x00; Byte.x00; Byte.x00; Byte.x00] 4 0
                (rw_4k Examples.iopt 0x1000 Examples.buf 4 1
                   Examples.st).1.1).2))
    as Hr by (vm_compute; reflexivity).
  refine (proj1 (rw_write_read_round_trip 4096 1 1 2 Examples.iopt 0x1000 4
                   1 0 Examples.buf [Byte.x00; Byte.x00; Byte.x00; Byte.x00]
                   Examples.st _ _ _ _
                   (Examples.mk_area 0x1000 0x1fff 0 0 3 false)
                   example_iopt_wf _ H2 H3 H4 _ _ eq_refl eq_refl eq_refl
                   eq_refl Hw Hr)).
  - apply elem_of_cons. by left.
  - simpl; lia.
  - simpl; lia.
Defined.

Lemma rw_stays_in_buffer_witness :
  0 ≤ 0x1ffe ∧ 0 ≤ 2
  ∧ (Z.to_nat 2 ≤ List.length Examples.buf)%nat
  ∧ drop 2 (rw_4k Examples.iopt 0x1ffe Examples.buf 2 0 Examples.st).2
    = [Byte.x0c; Byte.x0d].
Proof.
  assert (0 ≤ 0x1ffe) as H1 by lia.
  assert (0 ≤ 2) as H2 by lia.
  assert (Z.to_nat 2 ≤ List.length Examples.buf)%nat as H3
    by (simpl; lia).
  repeat (split; [assumption|]).
  exact (proj2 (rw_stays_in_buffer 4096 1 1 2 Examples.iopt 0x1ffe
                  Examples.buf 2 0 Examples.st H1 H2 H3)).
Defined.

Lemma example_group_id_inj (allow : bool) (claim_rc : nat → rc) :
  Inj (=) (=) (iommu_group_id (MoreExamples.mk_bind_platform allow claim_rc)).
Proof. intros x y H. exact H. Qed.

Lemma example_groups_wf (allow : bool) (claim_rc : nat → rc) :
  groups_wf (MoreExamples.mk_bind_platform allow claim_rc) MoreExamples.ictx0.
Proof.
  intros id ptr H.
  change (groups MoreExamples.ictx0)
    with ({[ 7%nat := 40%nat ]} : gmap nat nat) in H.
  apply lookup_singleton_Some in H as [<- <-].
  eexists. split; [reflexivity|]. simpl. split; [reflexivity|lia].
Qed.

Lemma example_kzalloc_fresh (allow : bool) (claim_rc : nat → rc) :
  ∀ p, kzalloc_igroup (MoreExamples.mk_bind_platform allow claim_rc) = Some p →
       igroup_mem MoreExamples.ictx0 !! p = None.
Proof. intros p [= <-]. reflexivity. Qed.

Lemma get_group_result_witness :
  groups_wf MoreExamples.bpf MoreExamples.ictx0
  ∧ ∃ s' r,
      get_group_64 MoreExamples.bpf 3%nat MoreExamples.ictx0 = Some (s', r)
      ∧ r = inl 41%nat
      ∧ groups_wf MoreExamples.bpf s'.
Proof.
  split; [apply example_groups_wf|].
  destruct (get_group_result (2 ^ 64 - 1) MoreExamples.bpf
              (example_group_id_inj _ _) 3%nat MoreExamples.ictx0
              (example_groups_wf _ _) (example_kzalloc_fresh _ _))
    as (s' & r & Hget & Hres).
  exists s', r. split; [exact Hget|].
  assert (r = inl 41%nat) as ->.
  { assert ((λ x : option (ictx_state * (nat + errno)),
               match x with Some y => y.2 | None => inr EINVAL end)
              (get_group_64 MoreExamples.bpf 3%nat MoreExamples.ictx0)
            = inl 41%nat) as H by (vm_compute; reflexivity).
    rewrite Hget in H. exact H. }
  split; [reflexivity|]. exact (proj1 Hres).
Defined.

Lemma example_get_group_1 :
  get_group_64 MoreExamples.bpf 1%nat MoreExamples.ictx0
  = Some (set_igroup_mem MoreExamples.ictx0
            {[ 40%nat :=
                 {| ge_group := 7; ge_ref := 2;
                    ge_data := {| ig_hwpt := None; device_list := [];
                                  sw_msi_start := 2 ^ 64 - 1 |} |} ]},
          inl 40%nat).
Proof. vm_compute; reflexivity. Qed.

Lemma get_put_group_round_trip_witness :
  groups_wf MoreExamples.bpf MoreExamples.ictx0
  ∧ iommufd_put_group MoreExamples.bpf 40%nat
      (set_igroup_mem MoreExamples.ictx0
         {[ 40%nat :=
              {| ge_group := 7; ge_ref := 2;
                 ge_data := {| ig_hwpt := None; device_list := [];
                               sw_msi_start := 2 ^ 64 - 1 |} |} ]})
    = MoreExamples.ictx0.
Proof.
  split; [apply example_groups_wf|].
  exact (get_put_group_round_trip (2 ^ 64 - 1) MoreExamples.bpf
           (example_group_id_inj _ _) 1%nat MoreExamples.ictx0 _ 40%nat
           (example_groups_wf _ _) (example_kzalloc_fresh _ _)
           example_get_group_1).
Defined.

Lemma bind_result_witness :
  groups_wf MoreExamples.bpf_busy MoreExamples.ictx0
  ∧ ∃ s' r,
      bind_64 MoreExamples.bpf_busy 3%nat MoreExamples.ictx0 = Some (s', r)
      ∧ r = inr EBUSY
      ∧ same_ictx MoreExamples.ictx0 s'.
Proof.
  split; [apply example_groups_wf|].
  destruct (bind_result (2 ^ 64 - 1) MoreExamples.bpf_busy
              (example_group_id_inj _ _) 3%nat MoreExamples.ictx0
              (example_groups_wf _ _) (example_kzalloc_fresh _ _))
    as (s' & r & Hbind & Hres).
  exists s', r. split; [exact Hbind|].
  assert (r = inr EBUSY) as ->.
  { assert ((λ x : option (ictx_state * (nat + errno)),
               match x with Some y => y.2 | None => inr EINVAL end)
              (bind_64 MoreExamples.bpf_busy 3%nat MoreExamples.ictx0)
            = inr EBUSY) as H by (vm_compute; reflexivity).
    rewrite Hbind in H. exact H. }
  split; [reflexivity|exact Hres].
Defined.

Lemma example_bind_1 :
  ∃ s', bind_64 MoreExamples.bpf 1%nat MoreExamples.ictx0
        = Some (s', inl 20%nat).
Proof. eexists. vm_compute; reflexivity. Qed.

Lemma bind_destroy_round_trip_witness :
  groups_wf MoreExamples.bpf MoreExamples.ictx0
  ∧ ∃ s',
      bind_64 MoreExamples.bpf 1%nat MoreExamples.ictx0
      = Some (s', inl 20%nat)
      ∧ igroup_mem (iommufd_device_destroy MoreExamples.bpf 20%nat s')
        = igroup_mem MoreExamples.ictx0
      ∧ dma_owners (iommufd_device_destroy MoreExamples.bpf 20%nat s')
        = dma_owners MoreExamples.ictx0.
Proof.
  split; [apply example_groups_wf|].
  destruct example_bind_1 as [s' Hbind].
  exists s'. split; [exact Hbind|].
  destruct (bind_destroy_round_trip (2 ^ 64 - 1) MoreExamples.bpf
              (example_group_id_inj _ _) 1%nat MoreExamples.ictx0 s' 20%nat
              (example_groups_wf _ _) (example_kzalloc_fresh _ _) Hbind)
    as (_ & H2 & _ & H4 & _).
  split; [exact H2|exact H4].
Defined.

(** ** The commands, attach by ID, and the accesses *)

Abbreviation hwpt_alloc_64 := (iommufd_hwpt_alloc (2 ^ 64 - 1) 0).
Abbreviation device_attach_64 := (iommufd_device_attach (2 ^ 64 - 1)).
Abbreviation access_create_4k := (iommufd_access_create 4096).

Lemma hwpt_alloc_success_witness :
  ∃ w',
    hwpt_alloc_64 MoreExamples.env Examples.pf_new MoreExamples.alloc_cmd
      Examples.world0
    = (w', Success, Some 12%nat)
    ∧ igroup w' = igroup Examples.world0
    ∧ ∃ h, objs w' !! 12%nat = Some h ∧ hwpt_lockable h = true
           ∧ auto_domain h = false.
Proof.
  eexists. split; [vm_compute; reflexivity|].
  match goal with
  | |- igroup ?w = _ ∧ _ =>
      destruct (hwpt_alloc_success (2 ^ 64 - 1) 0 MoreExamples.env
                  Examples.pf_new MoreExamples.alloc_cmd Examples.world0
                  w (Some 12%nat))
        as (_ & _ & _ & _ & idev & id & h & _ & Ho & _ & Hobj & Hlock
            & Hauto & Hig & _); [vm_compute; reflexivity|]
  end.
  injection Ho as <-. split; [exact Hig|].
  exists h. split; [exact Hobj|]. split; [exact Hlock|exact Hauto].
Defined.

Lemma device_attach_result_witness :
  group_wf Examples.world0
  ∧ ∃ w',
      device_attach_64 MoreExamples.env Examples.pf_second Examples.idev 1
        1%nat Examples.world0
      = (w', Success, 11%nat, 2)
      ∧ ig_hwpt (igroup w') = Some 11%nat
      ∧ is_Some (objs w' !! 11%nat).
Proof.
  split; [apply example_group_wf|].
  eexists. split; [vm_compute; reflexivity|].
  match goal with
  | |- ig_hwpt (igroup ?w) = _ ∧ _ =>
      pose proof (device_attach_result (2 ^ 64 - 1) MoreExamples.env
                    Examples.pf_second Examples.idev 1 1%nat
                    Examples.world0 w Success 11%nat 2 example_group_wf)
        as H
  end.
  destruct H as (_ & Hig & Hobj & _); [vm_compute; reflexivity|].
  split; [exact Hig|exact Hobj].
Defined.

Lemma access_create_result_witness :
  ∃ w',
    access_create_4k (MoreExamples.access_env_of Success)
      MoreExamples.pin_ops 77 Examples.world0 1
    = (w', 2, inl 1%nat)
    ∧ ioas_users w' = 4
    ∧ iommufd_access_notify_unmap (ioas_iopt w') 0x3000 0x1000
      ≡ₚ {| call_data := 77; call_iova := 0x3000; call_length := 0x1000 |}
         :: iommufd_access_notify_unmap Examples.iopt 0x3000 0x1000.
Proof.
  eexists. split; [vm_compute; reflexivity|].
  match goal with
  | |- ioas_users ?w = _ ∧ _ =>
      pose proof (access_create_result 4096 1 1 2 true
                    (MoreExamples.access_env_of Success)
                    MoreExamples.pin_ops 77 Examples.world0 1 w 2
                    (inl 1%nat)) as H
  end.
  destruct H as (_ & _ & _ & Hu & _ & Hn & _); [vm_compute; reflexivity|].
  split; [exact Hu|exact (Hn 0x3000 0x1000)].
Defined.

Lemma access_create_destroy_round_trip_witness :
  ∃ w',
    access_create_4k (MoreExamples.access_env_of Success)
      MoreExamples.pin_ops 77 Examples.world0 1
    = (w', 2, inl 1%nat)
    ∧ iommufd_access_destroy_object 1 w' 2 = (Examples.world0, 1).
Proof.
  eexists. split; [vm_compute; reflexivity|].
  apply (access_create_destroy_round_trip 4096
           (MoreExamples.access_env_of Success) MoreExamples.pin_ops 77).
  vm_compute; reflexivity.
Defined.
